(** * A task scheduler and its retry-validating tasks

    Shallow embedding of [src/new/run.ts] (the [TaskGraph] scheduler:
    depth-first planning, sequential and concurrent execution; [pipe] and
    [parallelPipe]), of [src/new/tasks.ts] ([createJsonTask], the bounded
    retry loop around a completion port, and the tasks made with it), of
    the message and context classes, of [src/new/chatCompletion.ts] and of
    the earlier application, together with their properties.

    Layout: the embedding first (modules [Run], [Chat], [Tasks], [Legacy],
    [Pipe], [Messages], [Completions], [Extractors], [LegacyApp] and the
    sample inputs), the properties after it. *)

From stdpp Require Import gmap strings list.
From Stdlib Require Import DecimalString ZArith QArith.

Open Scope string_scope.
Open Scope list_scope.
Open Scope nat_scope.

#[global] Set Warnings "-clear-no-such-hyp".

(** ** Control-flow outcome of a JavaScript block *)

(** A block either completes normally with a value or throws. *)
Inductive Result (E A : Type) : Type :=
| Normal (a : A)
| Thrown (e : E).
Arguments Normal {E A} a.
Arguments Thrown {E A} e.

(** [for (const x of xs) f(x)] / [xs.forEach(f)] over a state [S], where [f]
    may throw: the first exception ends the iteration. *)
Fixpoint forEach {E S A : Type} (f : A -> S -> Result E S) (xs : list A) (s : S)
  : Result E S :=
  match xs with
  | [] => Normal s
  | x :: rest =>
      match f x s with
      | Normal s' => forEach f rest s'
      | Thrown e => Thrown e
      end
  end.

(** ** JavaScript [Set<string>], which iterates in insertion order *)
Module JsSet.

Definition has (x : string) (s : list string) : bool := bool_decide (x ∈ s).

Definition add (x : string) (s : list string) : list string :=
  if has x s then s else s ++ [x].

Definition delete (x : string) (s : list string) : list string :=
  filter (λ y, y ≠ x) s.

End JsSet.

(** ** JavaScript [Map<string, V>], which iterates in insertion order *)
Module JsMap.
Section JsMap.
Context {V : Type}.

Fixpoint set (k : string) (v : V) (m : list (string * V)) : list (string * V) :=
  match m with
  | [] => [(k, v)]
  | (k', v') :: m' =>
      if bool_decide (k' = k) then (k, v) :: m' else (k', v') :: set k v m'
  end.

Definition get (k : string) (m : list (string * V)) : option V :=
  snd <$> find (λ kv, bool_decide (kv.1 = k)) m.

Definition values (m : list (string * V)) : list V := snd <$> m.

End JsMap.
End JsMap.

(** The double-quote character of the template literals. *)
Definition dquote : string := String (Ascii.ascii_of_nat 34) EmptyString.

(** [`${n}`] for a non-negative integer. *)
Definition showNat (n : nat) : string := NilEmpty.string_of_uint (Nat.to_uint n).

(** [s.includes(sub)]. *)
Fixpoint includes (sub s : string) : bool :=
  if String.prefix sub s then true
  else match s with
       | EmptyString => false
       | String _ s' => includes sub s'
       end.

(** * run.ts *)
Module Run.

(** [CyclicDependencyError.formatPath]: [path.join(" -> ")]. *)
Definition formatPath (path : list string) : string := String.concat " -> " path.

(** What [topologicalSort] can throw.  [DepthExceeded] is the recursion
    budget of the embedding ([visit] below); it is shown never to be
    raised ([RunSpec.topologicalSort_thrown]). *)
Inductive SortError : Type :=
| CyclicDependencyError (path : list string)
| TaskNotFound (name : string)
| DepthExceeded.

(** The [message] of the thrown error object. *)
Definition sortErrorMessage (e : SortError) : string :=
  match e with
  | CyclicDependencyError path => "Cycle detected: " +:+ formatPath path
  | TaskNotFound name => "Task not found: " +:+ name
  | DepthExceeded => "Maximum call stack size exceeded"
  end.

Section Graph.

(** [World] is the state the tasks act on (the message, the context and
    whatever the actions reach); [Err] is the type of the values they
    throw. *)
Context {World Err : Type}.

(** How a [Promise<void>] settles. *)
Inductive Settlement : Type :=
| Fulfilled
| Rejected (reason : Err).

(** A pending asynchronous computation: either its promise is settled, or
    it is suspended at an [await] and [resume] runs it to its next
    suspension point.  The type is inductive: it holds the computations
    that settle after finitely many resumptions. *)
#[warnings="-register-all"]
Inductive Async : Type :=
| Settle (r : Settlement)
| Suspend (resume : World -> World * Async).

(** [type Task = (message, context) => Promise<void>]: calling it runs the
    synchronous prefix and returns the pending computation. *)
Definition Task : Type := World -> World * Async.

(** [await p] with nothing else scheduled: run [p] until it settles. *)
Fixpoint finish (a : Async) (w : World) : World * Settlement :=
  match a with
  | Settle r => (w, r)
  | Suspend k => let (w', a') := k w in finish a' w'
  end.

(** [interface TaskDescriptor]. *)
Record TaskDescriptor : Type := {
  name : string;
  dependencies : list string;
  task : Task;
}.

(** [#tasks = new Map<string, TaskDescriptor>()]: an insertion-ordered map.
    Entries are only written by [add], under the key [task.name], so the
    map is the list of its descriptors in insertion order. *)
Abbreviation TaskGraph := (list TaskDescriptor).

Definition keys (g : TaskGraph) : list string := name <$> g.

(** [this.#tasks.set(task.name, task)]: an existing key keeps its place. *)
Fixpoint add (t : TaskDescriptor) (g : TaskGraph) : TaskGraph :=
  match g with
  | [] => [t]
  | t' :: g' => if bool_decide (name t' = name t) then t :: g' else t' :: add t g'
  end.

Definition get (n : string) (g : TaskGraph) : option TaskDescriptor :=
  find (λ t, bool_decide (name t = n)) g.

Definition has (n : string) (g : TaskGraph) : bool :=
  match get n g with Some _ => true | None => false end.

Definition delete (n : string) (g : TaskGraph) : TaskGraph :=
  filter (λ t, name t ≠ n) g.

(** *** topologicalSort *)

(** The three locals of [topologicalSort]. *)
Record SortState : Type := {
  sorted : list string;
  visited : gset string;
  visiting : list string;
}.

Definition sortInit : SortState :=
  {| sorted := []; visited := ∅; visiting := [] |}.

(** The closure [visit].  [depth] bounds the nesting of the recursive
    calls. *)
Fixpoint visit (g : TaskGraph) (depth : nat) (n : string) (s : SortState)
  : Result SortError SortState :=
  match depth with
  | 0 => Thrown DepthExceeded
  | S depth' =>
      if bool_decide (n ∈ visited s) then Normal s
      else if JsSet.has n (visiting s) then
        Thrown (CyclicDependencyError (visiting s ++ [n]))
      else
        let s1 := {| sorted := sorted s; visited := visited s;
                     visiting := JsSet.add n (visiting s) |} in
        match get n g with
        | None => Thrown (TaskNotFound n)
        | Some t =>
            match forEach (visit g depth') (dependencies t) s1 with
            | Thrown e => Thrown e
            | Normal s2 =>
                Normal {| sorted := sorted s2 ++ [n];
                          visited := {[n]} ∪ visited s2;
                          visiting := JsSet.delete n (visiting s2) |}
            end
        end
  end.

(** [this.#tasks.forEach((_, name) => visit(name)); return sorted]. *)
Definition topologicalSort (g : TaskGraph) : Result SortError (list string) :=
  match forEach (visit g (S (length g))) (keys g) sortInit with
  | Normal s => Normal (sorted s)
  | Thrown e => Thrown e
  end.

(** *** execute *)

(** What [execute] and [executeParallel] can throw.  [TypeError] is the
    destructuring of [undefined] in [const { task } = this.get(name)!]. *)
Inductive ExecError : Type :=
| PlanError (e : SortError)
| AggregateError (errors : list Err) (message : string)
| TypeError.

(** Observable events of a run, recorded for the statements only. *)
Inductive Event : Type :=
| Invoked (n : string)
| Completed (n : string) (r : Settlement).

Definition Trace : Type := list Event.

(** [await task(message, context)] where nothing else is scheduled. *)
Definition awaitCall (t : Task) (w : World) : World * Settlement :=
  let (w1, a) := t w in finish a w1.

(** The [message] of the error thrown by [execute]. *)
Definition taskFailed (n : string) : string :=
  "Task " +:+ dquote +:+ n +:+ dquote +:+ " failed".

(** The body of [for (const name of tasks)] in [execute]. *)
Fixpoint executeLoop (g : TaskGraph) (tasks : list string) (w : World) (tr : Trace)
  : World * Trace * Result ExecError () :=
  match tasks with
  | [] => (w, tr, Normal ())
  | n :: rest =>
      match get n g with
      | None => (w, tr, Thrown TypeError)
      | Some t =>
          let (w2, r) := awaitCall (task t) w in
          let tr' := tr ++ [Invoked n; Completed n r] in
          match r with
          | Fulfilled => executeLoop g rest w2 tr'
          | Rejected error => (w2, tr', Thrown (AggregateError [error] (taskFailed n)))
          end
      end
  end.

Definition execute (g : TaskGraph) (w : World) : World * Trace * Result ExecError () :=
  match topologicalSort g with
  | Thrown e => (w, [], Thrown (PlanError e))
  | Normal tasks => executeLoop g tasks w []
  end.

(** *** executeParallel *)

(** Where the async closure [executeTask] of one plan entry stands. *)
Inductive UnitState : Type :=
| AwaitingDeps
| AwaitingTask (a : Async)
| Settled (r : Settlement).

(** One call of [executeTask()]: its promise is identified by its position
    in [units] below.  [dependencyPromises] holds, per declared dependency,
    the promise found in [taskPromises] when the unit was created, or
    [None] for [undefined]. *)
Record Unit : Type := {
  unitName : string;
  unitTask : Task;
  dependencyPromises : list (option nat);
  unitState : UnitState;
}.

Definition setState (u : Unit) (st : UnitState) : Unit :=
  {| unitName := unitName u; unitTask := unitTask u;
     dependencyPromises := dependencyPromises u; unitState := st |}.

(** The [for (const name of taskOrder)] loop: it only creates the units;
    each one runs synchronously up to its first [await]. *)
Fixpoint spawn (g : TaskGraph) (taskOrder : list string)
    (us : list Unit) (taskPromises : list (string * nat))
  : Result ExecError (list Unit * list (string * nat)) :=
  match taskOrder with
  | [] => Normal (us, taskPromises)
  | n :: rest =>
      match get n g with
      | None => Thrown TypeError
      | Some td =>
          let deps := (λ dep, JsMap.get dep taskPromises) <$> dependencies td in
          let u := {| unitName := n; unitTask := task td;
                      dependencyPromises := deps; unitState := AwaitingDeps |} in
          spawn g rest (us ++ [u]) (JsMap.set n (length us) taskPromises)
      end
  end.

(** The event loop's view of the pending call: the shared world, every
    unit, the order in which units settled, and the events so far. *)
Record ParState : Type := {
  world : World;
  units : list Unit;
  settleOrder : list nat;
  trace : Trace;
}.

Definition parInit (w : World) (us : list Unit) : ParState :=
  {| world := w; units := us; settleOrder := []; trace := [] |}.

(** The state of one element of [dependencyPromises]; [None] is pending.
    [Promise.all] takes a non-promise element as fulfilled. *)
Definition promiseState (us : list Unit) (p : option nat) : option Settlement :=
  match p with
  | None => Some Fulfilled
  | Some i =>
      match unitState <$> us !! i with
      | Some (Settled r) => Some r
      | _ => None
      end
  end.

Definition isFulfilled (us : list Unit) (p : option nat) : bool :=
  match promiseState us p with
  | Some Fulfilled => true
  | _ => false
  end.

Definition rejection (us : list Unit) (i : nat) : option Err :=
  match promiseState us (Some i) with
  | Some (Rejected e) => Some e
  | _ => None
  end.

(** The reason of the first of [deps] to have rejected. *)
Definition firstRejection (ps : ParState) (deps : list (option nat)) : option Err :=
  head (omap (λ i, if bool_decide (Some i ∈ deps) then rejection (units ps) i else None)
             (settleOrder ps)).

(** [Promise.all(deps)]: rejected with the first rejection, fulfilled once
    every element is, pending otherwise. *)
Definition promiseAll (ps : ParState) (deps : list (option nat)) : option Settlement :=
  match firstRejection ps deps with
  | Some e => Some (Rejected e)
  | None =>
      if forallb (isFulfilled (units ps)) deps then Some Fulfilled else None
  end.

(** The job that unit [i] can run next, if any: leave
    [await Promise.all(...)] and call the action, or fail there; resume the
    action; leave [await task(...)] and settle. *)
Definition fire (i : nat) (ps : ParState) : option ParState :=
  match units ps !! i with
  | None => None
  | Some u =>
      match unitState u with
      | AwaitingDeps =>
          match promiseAll ps (dependencyPromises u) with
          | None => None
          | Some Fulfilled =>
              let (w', a) := unitTask u (world ps) in
              Some {| world := w';
                      units := <[i := setState u (AwaitingTask a)]> (units ps);
                      settleOrder := settleOrder ps;
                      trace := trace ps ++ [Invoked (unitName u)] |}
          | Some (Rejected e) =>
              Some {| world := world ps;
                      units := <[i := setState u (Settled (Rejected e))]> (units ps);
                      settleOrder := settleOrder ps ++ [i];
                      trace := trace ps |}
          end
      | AwaitingTask (Suspend k) =>
          let (w', a') := k (world ps) in
          Some {| world := w';
                  units := <[i := setState u (AwaitingTask a')]> (units ps);
                  settleOrder := settleOrder ps;
                  trace := trace ps |}
      | AwaitingTask (Settle r) =>
          Some {| world := world ps;
                  units := <[i := setState u (Settled r)]> (units ps);
                  settleOrder := settleOrder ps ++ [i];
                  trace := trace ps ++ [Completed (unitName u) r] |}
      | Settled _ => None
      end
  end.

(** A schedule names the unit whose job runs at each turn. *)
Fixpoint run (schedule : list nat) (ps : ParState) : option ParState :=
  match schedule with
  | [] => Some ps
  | i :: rest =>
      match fire i ps with
      | Some ps' => run rest ps'
      | None => None
      end
  end.

(** [await Promise.allSettled(promises)]: defined once all have settled. *)
Definition allSettled (ps : ParState) (promises : list nat) : option (list Settlement) :=
  mapM (λ i, promiseState (units ps) (Some i)) promises.

Definition reason (r : Settlement) : option Err :=
  match r with
  | Fulfilled => None
  | Rejected e => Some e
  end.

(** [if (rejected.length) throw new AggregateError(reasons, ...)]. *)
Definition aggregate (reasons : list Err) : Result ExecError () :=
  match length reasons with
  | 0 => Normal ()
  | S _ =>
      Thrown (AggregateError reasons (showNat (length reasons) +:+ " tasks failed"))
  end.

(** The end of [executeParallel], from [settled.filter(isRejected)] on. *)
Definition parOutcome (settled : list Settlement) : Result ExecError () :=
  aggregate (omap reason settled).

(** [executeParallel]: the world, the events and the completion of the call
    at the moment it settles, for some order of the jobs.  The loop runs
    without suspending, so a throw in it comes before any job; with the
    plan of [topologicalSort] it never throws
    ([RunSpec.topologicalSort_spawn]). *)
Inductive executeParallel (g : TaskGraph) (w : World)
  : World * Trace * Result ExecError () → Prop :=
| par_plan_error e :
    topologicalSort g = Thrown e →
    executeParallel g w (w, [], Thrown (PlanError e))
| par_spawn_error taskOrder e :
    topologicalSort g = Normal taskOrder →
    spawn g taskOrder [] [] = Thrown e →
    executeParallel g w (w, [], Thrown e)
| par_settled taskOrder us taskPromises schedule ps settled :
    topologicalSort g = Normal taskOrder →
    spawn g taskOrder [] [] = Normal (us, taskPromises) →
    run schedule (parInit w us) = Some ps →
    allSettled ps (JsMap.values taskPromises) = Some settled →
    executeParallel g w (world ps, trace ps, parOutcome settled).

(** *** Vocabulary of the statements *)

(** [l.indexOf(x)], with [None] for [-1]. *)
Fixpoint indexOf (x : string) (l : list string) : option nat :=
  match l with
  | [] => None
  | y :: l' => if bool_decide (y = x) then Some 0 else S <$> indexOf x l'
  end.

(** [a] and [b] both occur in [l], and [a] first occurs before [b]. *)
Definition before (l : list string) (a b : string) : Prop :=
  match indexOf a l, indexOf b l with
  | Some i, Some j => i < j
  | _, _ => False
  end.

(** [d] is a declared dependency of the task registered as [t]. *)
Definition depends (g : TaskGraph) (t d : string) : Prop :=
  ∃ td, get t g = Some td ∧ d ∈ dependencies td.

(** [d] is a transitive dependency of [t]. *)
Definition dependsT (g : TaskGraph) : relation string := tc (depends g).

(** [d] is reached from [t] by following dependencies, [t] itself included. *)
Definition reaches (g : TaskGraph) : relation string := rtc (depends g).

(** [d] is named as a dependency by a registered task but was never added. *)
Definition missing (g : TaskGraph) (d : string) : Prop :=
  (∃ t, depends g t d) ∧ d ∉ keys g.

Definition acyclic (g : TaskGraph) : Prop := ∀ n, ¬ dependsT g n n.

(** Consecutive names of [l] are dependency edges. *)
Fixpoint chain (g : TaskGraph) (l : list string) : Prop :=
  match l with
  | x :: (y :: _) as l' => depends g x y ∧ chain g l'
  | _ => True
  end.

(** A cycle path: it ends at the name [m] it repeats, [m] occurs once
    before, and from there on each name depends on the next. *)
Definition cyclePath (g : TaskGraph) (path : list string) : Prop :=
  ∃ pre m mid, path = pre ++ m :: mid ++ [m] ∧ NoDup (pre ++ m :: mid) ∧
               chain g (m :: mid ++ [m]).

(** What a failed plan computation tells about the graph. *)
Definition planFailure (g : TaskGraph) (e : SortError) : Prop :=
  match e with
  | CyclicDependencyError path => cyclePath g path
  | TaskNotFound d => missing g d
  | DepthExceeded => False
  end.

(** The events of tasks that ran one after the other and fulfilled. *)
Definition ranInOrder (names : list string) : Trace :=
  flat_map (λ n, [Invoked n; Completed n Fulfilled]) names.

(** The actions of the tasks [names] of [g], called one after the other
    from the state [w], each on the state that the one before it left,
    all fulfil, and the last one leaves the state [w']. *)
Inductive fulfilInTurn (g : TaskGraph) : list string → World → World → Prop :=
| fulfil_nil w : fulfilInTurn g [] w w
| fulfil_cons n td names w w1 w' :
    get n g = Some td →
    awaitCall (task td) w = (w1, Fulfilled) →
    fulfilInTurn g names w1 w' →
    fulfilInTurn g (n :: names) w w'.

(** *** Invariants of the traversal *)

(** Every name of [l] is registered and its dependencies stand before it. *)
Definition closed (g : TaskGraph) (l : list string) : Prop :=
  ∀ l1 x l2, l = l1 ++ x :: l2 →
    ∃ td, get x g = Some td ∧ ∀ d, d ∈ dependencies td → d ∈ l1.

(** [visited] and [sorted] hold the same names; [sorted] is duplicate-free
    and closed. *)
Record SortInv (g : TaskGraph) (s : SortState) : Prop := {
  inv_visited : ∀ x, x ∈ visited s ↔ x ∈ sorted s;
  inv_nodup : NoDup (sorted s);
  inv_closed : closed g (sorted s);
}.

(** What a successful run of [roots.forEach(visit)] from [s] to [s'] has
    done: [visiting] is restored, [sorted] grew by names reached from
    [roots] that were not in progress, and holds all of [roots]. *)
Record SortPost (g : TaskGraph) (roots : list string) (s s' : SortState) : Prop := {
  post_visiting : visiting s' = visiting s;
  post_sorted : ∃ new, sorted s' = sorted s ++ new ∧
      ∀ x, x ∈ new → (∃ r, r ∈ roots ∧ reaches g r x) ∧ x ∉ visiting s;
  post_roots : ∀ r, r ∈ roots → r ∈ sorted s';
  post_inv : SortInv g s';
}.

(** What a thrown error tells, for a call [visit(n)] entered in state [s]. *)
Definition ThrownSpec (g : TaskGraph) (n : string) (s : SortState) (e : SortError) : Prop :=
  match e with
  | DepthExceeded => False
  | TaskNotFound m => (m ∉ keys g) ∧ reaches g n m
  | CyclicDependencyError path =>
      ∃ ext m, path = (visiting s ++ ext) ++ [m] ∧ m ∈ visiting s ++ ext ∧
               NoDup (visiting s ++ ext) ∧ chain g path ∧
               ∀ x, x ∈ ext → x ∈ keys g
  end.

(** *** Vocabulary and invariants of concurrent runs *)

(** [a'] is what is left of the pending computation [a] after some of its
    resumptions. *)
Inductive Residual : Async → Async → Prop :=
| residual_refl a : Residual a a
| residual_step k w a' : Residual (k w).2 a' → Residual (Suspend k) a'.

(** Every resumption of [a] takes a world to one related to it by [R]. *)
Fixpoint stepsWithin (R : relation World) (a : Async) : Prop :=
  match a with
  | Settle _ => True
  | Suspend k => ∀ w, R w (k w).1 ∧ stepsWithin R (k w).2
  end.

(** A call of [t] can be left pending as [a]; it can settle as [r]. *)
Definition mayYield (t : Task) (a : Async) : Prop := ∃ w, Residual (t w).2 a.
Definition maySettle (t : Task) (r : Settlement) : Prop := mayYield t (Settle r).

(** A unit with its state erased: what [spawn] fixed once and for all. *)
Definition frame (u : Unit) : Unit := setState u AwaitingDeps.

(** The promise [i] has settled as [r]. *)
Definition settledAs (ps : ParState) (i : nat) (r : Settlement) : Prop :=
  ∃ u, units ps !! i = Some u ∧ unitState u = Settled r.

(** The unit made for the task [n] has settled as [r]. *)
Definition unitSettled (ps : ParState) (n : string) (r : Settlement) : Prop :=
  ∃ i u, units ps !! i = Some u ∧ unitName u = n ∧ unitState u = Settled r.

(** The states that the run of [g] from the world [w] passes through. *)
Definition Reachable (g : TaskGraph) (w : World) (ps : ParState) : Prop :=
  ∃ taskOrder us taskPromises schedule,
    topologicalSort g = Normal taskOrder ∧
    spawn g taskOrder [] [] = Normal (us, taskPromises) ∧
    run schedule (parInit w us) = Some ps.


(** How the state of a unit relates to the events and to its dependencies. *)
Definition unitInv (ps : ParState) (u : Unit) : Prop :=
  match unitState u with
  | AwaitingDeps => Invoked (unitName u) ∉ trace ps
  | AwaitingTask a =>
      Invoked (unitName u) ∈ trace ps ∧
      (∀ r, Completed (unitName u) r ∉ trace ps) ∧
      promiseAll ps (dependencyPromises u) = Some Fulfilled ∧
      mayYield (unitTask u) a
  | Settled r =>
      (Invoked (unitName u) ∈ trace ps ∧
       Completed (unitName u) r ∈ trace ps ∧
       promiseAll ps (dependencyPromises u) = Some Fulfilled ∧
       maySettle (unitTask u) r) ∨
      ((Invoked (unitName u) ∉ trace ps) ∧
       ∃ e, r = Rejected e ∧ firstRejection ps (dependencyPromises u) = Some e)
  end.

Record ParInv (ps : ParState) : Prop := {
  pi_names : NoDup (unitName <$> units ps);
  pi_back : ∀ i u j, units ps !! i = Some u → Some j ∈ dependencyPromises u → j < i;
  pi_order_nodup : NoDup (settleOrder ps);
  pi_order : ∀ i, i ∈ settleOrder ps ↔ ∃ r, settledAs ps i r;
  pi_units : ∀ i u, units ps !! i = Some u → unitInv ps u;
  pi_completed : ∀ n r, Completed n r ∈ trace ps → unitSettled ps n r;
  pi_invoked : ∀ n, Invoked n ∈ trace ps → n ∈ unitName <$> units ps;
}.

(** What the loop of [executeParallel] has built from a duplicate-free
    [plan]: one unit per name, in order, each holding the action of its
    task and, per dependency, the promise of the unit made before it. *)
Record Spawned (g : TaskGraph) (plan : list string)
    (us : list Unit) (tp : list (string * nat)) : Prop := {
  sp_names : unitName <$> us = plan;
  sp_fresh : ∀ u, u ∈ us → unitState u = AwaitingDeps;
  sp_units : ∀ i u, us !! i = Some u →
      ∃ td, get (unitName u) g = Some td ∧ unitTask u = task td ∧
            dependencyPromises u = (λ d, indexOf d (take i plan)) <$> dependencies td;
  sp_keys : fst <$> tp = plan;
  sp_get : ∀ d, JsMap.get d tp = indexOf d plan;
  sp_values : JsMap.values tp = seq 0 (length plan);
}.

(** A state of the run of the units made for [plan]. *)
Record Running (g : TaskGraph) (plan : list string) (ps : ParState) : Prop := {
  rn_inv : ParInv ps;
  rn_plan : NoDup plan;
  rn_closed : closed g plan;
  rn_complete : ∀ n, n ∈ keys g → n ∈ plan;
  rn_names : unitName <$> units ps = plan;
  rn_units : ∀ i u, units ps !! i = Some u →
      ∃ td, get (unitName u) g = Some td ∧ unitTask u = task td ∧
            dependencyPromises u = (λ d, indexOf d (take i plan)) <$> dependencies td;
}.

Definition isSettled (st : UnitState) : bool :=
  match st with
  | Settled _ => true
  | _ => false
  end.

(** One job of the unit [i]: its state becomes [st'], its index is
    appended to [settleOrder] if it settled, and the new events are its
    own. *)
Record Update (ps : ParState) (i : nat) (u : Unit) (st' : UnitState) (ps' : ParState)
  : Prop := {
  up_lookup : units ps !! i = Some u;
  up_pending : isSettled (unitState u) = false;
  up_units : units ps' = <[i := setState u st']> (units ps);
  up_order : settleOrder ps' =
             if isSettled st' then settleOrder ps ++ [i] else settleOrder ps;
  up_trace : ∃ evs, trace ps' = trace ps ++ evs ∧
             ∀ ev, ev ∈ evs →
               ev = Invoked (unitName u) ∨ ∃ r, ev = Completed (unitName u) r ∧ st' = Settled r;
}.

End Graph.

Arguments Settlement : clear implicits.
Arguments Async : clear implicits.
Arguments Task : clear implicits.
Arguments TaskDescriptor : clear implicits.
Arguments ExecError : clear implicits.
Arguments Event : clear implicits.
Arguments Trace : clear implicits.
Arguments UnitState : clear implicits.
Arguments Unit : clear implicits.
Arguments ParState : clear implicits.

End Run.

(** * types.ts, ChatMessage.ts, Context.ts *)
Module Chat.

(** A decoded JSON value, the [unknown] that [JSON.parse] returns. *)
#[warnings="-register-all"]
Inductive Json : Type :=
| JNull
| JBool (b : bool)
| JNumber (z : Z)
| JString (s : string)
| JArray (items : list Json)
| JObject (fields : list (string * Json)).

(** [interface DataItem]; numbers are token counts, integers here. *)
Record DataItem : Type := {
  itemContent : Json;
  itemSize : option Z;
}.

(** [class ChatMessage]: [role], [content], [#size] and the annotation
    store [#data]. *)
Record ChatMessage : Type := {
  role : string;
  content : string;
  size : option Z;
  data : gmap string DataItem;
}.

Definition SystemChatMessage (c : string) : ChatMessage :=
  {| role := "system"; content := c; size := None; data := ∅ |}.

Definition UserChatMessage (c : string) : ChatMessage :=
  {| role := "user"; content := c; size := None; data := ∅ |}.

(** [ChatMessage.set(key, content, size)]. *)
Definition setData (key : string) (v : Json) (sz : option Z) (m : ChatMessage)
  : ChatMessage :=
  {| role := role m; content := content m; size := size m;
     data := <[key := {| itemContent := v; itemSize := sz |}]> (data m) |}.

(** [ChatMessage.get(key)]. *)
Definition getData (key : string) (m : ChatMessage) : option Json :=
  itemContent <$> data m !! key.

(** [class Context]. *)
Record Context : Type := {
  messages : list ChatMessage;
  contextData : gmap string DataItem;
}.

Definition newContext : Context := {| messages := []; contextData := ∅ |}.

(** [Context.push(message)]. *)
Definition push (m : ChatMessage) (c : Context) : Context :=
  {| messages := messages c ++ [m]; contextData := contextData c |}.

Record CompletionUsage : Type := {
  prompt : Z;
  completion : Z;
}.

(** [interface Completion]. *)
Record Completion : Type := {
  message : ChatMessage;
  usage : CompletionUsage;
  duration : Z;
}.

(** A thrown [Error] object. *)
Record JsError : Type := {
  errorName : string;
  errorMessage : string;
}.

Definition newError (m : string) : JsError := {| errorName := "Error"; errorMessage := m |}.

End Chat.

(** * tasks.ts *)
Module Tasks.
Import Run Chat.

(** The line feed of the template literals. *)
Definition newline : string := String (Ascii.ascii_of_nat 10) EmptyString.

(** One element of [validateJson.errors]. *)
Record ErrorObject : Type := {
  objectMessage : option string;
}.

(** The verdict of an Ajv [ValidateFunction]: the returned boolean and,
    when it is [false], the [errors] property left behind. *)
Inductive Validation : Type :=
| Valid
| Invalid (errors : option (list ErrorObject)).

(** [validateKeywords]: the schema [{type: "array", items: {type: "string"}}]. *)
Definition isJString (j : Json) : bool :=
  match j with
  | JString _ => true
  | _ => false
  end.

Definition validateKeywords (j : Json) : Validation :=
  match j with
  | JArray items =>
      if forallb isJString items then Valid
      else Invalid (Some [{| objectMessage := Some "must be string" |}])
  | _ => Invalid (Some [{| objectMessage := Some "must be array" |}])
  end.

(** [new Error(validateJson.errors?.[0].message ?? "Invalid JSON")]; reading
    [message] off the missing first element of an empty [errors] throws a
    [TypeError] instead. *)
Definition validationError (errors : option (list ErrorObject)) : JsError :=
  match errors with
  | None => newError "Invalid JSON"
  | Some [] =>
      {| errorName := "TypeError";
         errorMessage := "Cannot read properties of undefined (reading 'message')" |}
  | Some (e :: _) => newError (default "Invalid JSON" (objectMessage e))
  end.

(** The user turn pushed after a failed attempt. *)
Definition feedback (error : JsError) : ChatMessage :=
  UserChatMessage ("Unable to parse response. Please fix the error and try again."
                   +:+ newline +:+ newline +:+ "Error: " +:+ errorMessage error).

(** The error thrown once the loop is over. *)
Definition triesExhausted (maxTries : nat) : JsError :=
  newError ("Unable to parse response after " +:+ showNat maxTries +:+ " tries").

(** How one call of [complete()] ended; recorded for the statements only. *)
Inductive AttemptResult : Type :=
| PortFailed (error : JsError)
| ParseFailed (response : ChatMessage)
| SchemaFailed (response : ChatMessage) (json : Json) (error : JsError)
| Accepted (response : ChatMessage) (json : Json) (size : Z).

(** One call of the completion port: the conversation it was given and how
    the attempt ended. *)
Record Attempt : Type := {
  sent : Context;
  result : AttemptResult;
}.

Definition accepted (a : Attempt) : bool :=
  match result a with
  | Accepted _ _ _ => true
  | _ => false
  end.

Section JsonTask.

(** [Port] is the state of the completion service, [Options] the type
    [ChatCompletionOptions]. *)
Context {Port Options : Type}.

(** [type ChatCompletion]: the port reads the conversation and the options
    and resolves with a completion or rejects. *)
Definition ChatCompletion : Type :=
  Context → option Options → Port → Port * (JsError + Completion).

(** What a task can reach: the message it annotates, the shared context it
    is handed, and the completion service.  [attempts] records the calls of
    the port. *)
Record World : Type := {
  subject : ChatMessage;
  shared : Context;
  service : Port;
  attempts : list Attempt;
}.

Variable JSON_parse : string → option Json.

Section Task.
Variables (key : string) (chatCompletion : ChatCompletion)
  (validateJson : Json → Validation) (systemMessageContent : string)
  (maxTries : nat) (options : option Options).

(** The inner [async function complete()], from the state of
    [innerContext] on entry: the world and [innerContext] on exit, and the
    error thrown, if any. *)
Definition complete (innerContext : Context) (w : World)
  : World * Context * option JsError :=
  let (service', answer) := chatCompletion innerContext options (service w) in
  let record r m :=
    {| subject := m; shared := shared w; service := service';
       attempts := attempts w ++ [{| sent := innerContext; result := r |}] |} in
  match answer with
  | inl error => (record (PortFailed error) (subject w), innerContext, Some error)
  | inr c =>
      let response := message c in
      let innerContext1 := push response innerContext in
      match JSON_parse (content response) with
      | None =>
          (record (ParseFailed response) (subject w), innerContext1,
           Some (newError "Message is not valid JSON"))
      | Some parsedJson =>
          match validateJson parsedJson with
          | Invalid errors =>
              let error := validationError errors in
              (record (SchemaFailed response parsedJson error) (subject w), innerContext1,
               Some error)
          | Valid =>
              (record (Accepted response parsedJson (completion (usage c)))
                 (setData key parsedJson (Some (completion (usage c))) (subject w)),
               innerContext1, None)
          end
      end
  end.

(** The [for] loop with [tries] iterations left.  An iteration is one
    step, taken when the task is resumed: the call of the port together
    with the handling of its answer. *)
Fixpoint retry (tries : nat) (innerContext : Context) : Async World JsError :=
  match tries with
  | 0 => Settle (Rejected (triesExhausted maxTries))
  | S tries' =>
      Suspend (λ w,
        let '(w', innerContext', thrown) := complete innerContext w in
        match thrown with
        | None => (w', Settle Fulfilled)
        | Some error => (w', retry tries' (push (feedback error) innerContext'))
        end)
  end.

(** [createJsonTask(key, chatCompletion, validateJson, systemMessageContent,
    maxTries, options)].  The returned task takes the message only. *)
Definition createJsonTask : Task World JsError :=
  λ w,
    let innerContext :=
      push (UserChatMessage (content (subject w)))
        (push (SystemChatMessage systemMessageContent) newContext) in
    (w, retry maxTries innerContext).

(** The conversation that a call of the task starts from. *)
Definition firstContext (m : ChatMessage) : Context :=
  push (UserChatMessage (content m)) (push (SystemChatMessage systemMessageContent) newContext).

(** The calls of the port that the loop can make, told by the port and by
    the answers alone: from the conversation [inner] and the service state
    [s], the attempts [log], after which the service is in the state [s'].
    An answer that parses and that the validator accepts ends them.  After
    any other outcome the next call, if there is one, is sent the same
    conversation followed by the response, when the port gave one, and by
    the user turn that quotes the error. *)
Inductive Played : Context → Port → list Attempt → Port → Prop :=
| played_none inner s : Played inner s [] s
| played_accepted inner s s' c json :
    chatCompletion inner options s = (s', inr c) →
    JSON_parse (content (message c)) = Some json →
    validateJson json = Valid →
    Played inner s
      [{| sent := inner;
          result := Accepted (message c) json (completion (usage c)) |}] s'
| played_port_failed inner s s1 error log s' :
    chatCompletion inner options s = (s1, inl error) →
    Played (push (feedback error) inner) s1 log s' →
    Played inner s ({| sent := inner; result := PortFailed error |} :: log) s'
| played_parse_failed inner s s1 c log s' :
    chatCompletion inner options s = (s1, inr c) →
    JSON_parse (content (message c)) = None →
    Played (push (feedback (newError "Message is not valid JSON")) (push (message c) inner))
      s1 log s' →
    Played inner s ({| sent := inner; result := ParseFailed (message c) |} :: log) s'
| played_schema_failed inner s s1 c json errors log s' :
    chatCompletion inner options s = (s1, inr c) →
    JSON_parse (content (message c)) = Some json →
    validateJson json = Invalid errors →
    Played (push (feedback (validationError errors)) (push (message c) inner)) s1 log s' →
    Played inner s
      ({| sent := inner;
          result := SchemaFailed (message c) json (validationError errors) |} :: log) s'.

End Task.

(** *** Vocabulary of the statements *)

(** The same world around another shared context. *)
Definition withShared (c : Context) (w : World) : World :=
  {| subject := subject w; shared := c; service := service w; attempts := attempts w |}.

(** What one resumption of the task may do to the world: it leaves the
    shared context alone, and the message too unless it writes the
    annotation [key]. *)
Definition annotates (key : string) (w w' : World) : Prop :=
  shared w' = shared w ∧
  (subject w' = subject w ∨ ∃ j sz, subject w' = setData key j sz (subject w)).

End JsonTask.

Arguments World : clear implicits.
Arguments ChatCompletion : clear implicits.

End Tasks.

(** * The earlier wrapper, [wrap] *)
Module Legacy.
Import Run Chat.

(** [class TryError]. *)
Definition TryError (m : string) : JsError := {| errorName := "TryError"; errorMessage := m |}.

(** [createErrorMessage(err, context)]: the user turn it builds and pushes. *)
Definition createErrorMessage (err : JsError) : ChatMessage :=
  {| role := "user";
     content := "The following error occurred during parsing. Please try again."
                +:+ Tasks.newline +:+ Tasks.newline +:+ "Error: " +:+ errorMessage err;
     size := None; data := ∅ |}.

Section Wrap.
Context {Port : Type}.

(** The module-level [chatCompletion]: it resolves with a message and its
    token size, or rejects. *)
Definition ChatCompletion : Type := Context → Port → Port * (JsError + ChatMessage * Z).

(** The message the caller passed, the completion service, and the number
    of calls made to it. *)
Record World : Type := {
  subject : ChatMessage;
  service : Port;
  calls : nat;
}.

Variables (JSON_parse : string → option Json) (trim : string → string).
Variables (chatCompletion : ChatCompletion) (key : string)
  (init : Context → Context) (validate : Json → option JsError) (maxTries : nat).

(** [wrappedFn] from its [await chatCompletion(ctx)] on, with [left] tries
    to go, that is [maxTries + 1 - i].  [target] tells which object the
    parameter [message] is: the caller's message ([None]) or, in a retry,
    the error message at a position of [ctx], which [wrappedFn] passes to
    itself; [message.set] then lands in [ctx], out of the caller's sight. *)
Fixpoint wrappedFn (left : nat) (target : option nat) (ctx : Context)
  : Async World JsError :=
  match left with
  | 0 => Settle (Rejected (TryError ("Maximum number of tries exceeded ("
                                     +:+ showNat maxTries +:+ ")")))
  | S left' =>
      Suspend (λ w,
        let (service', answer) := chatCompletion ctx (service w) in
        let w1 := {| subject := subject w; service := service'; calls := S (calls w) |} in
        match answer with
        | inl error => (w1, Settle (Rejected error))
        | inr (completionMessage, sz) =>
            let again err :=
              wrappedFn left' (Some (length (messages ctx)))
                (push (createErrorMessage err) ctx) in
            match JSON_parse (trim (content completionMessage)) with
            | None => (w1, again (newError "Failed to parse as JSON"))
            | Some json =>
                match validate json with
                | Some validationError => (w1, again validationError)
                | None =>
                    match target with
                    | None =>
                        ({| subject := setData key json (Some sz) (subject w);
                            service := service'; calls := S (calls w) |},
                         Settle Fulfilled)
                    | Some _ => (w1, Settle Fulfilled)
                    end
                end
            end
        end)
  end.

(** [wrap(key, init, validate, maxTries)]. *)
Definition wrap : Task World JsError :=
  λ w,
    let ctx := push {| role := "user"; content := content (subject w);
                       size := None; data := ∅ |} (init newContext) in
    (w, wrappedFn maxTries None ctx).

End Wrap.

Arguments World : clear implicits.

End Legacy.

(** * Sample inputs *)
Module Samples.
Import Run.

(** A task that does nothing and fulfils at once. *)
Definition noop : Task unit string := λ w, (w, Settle Fulfilled).

Definition mk (n : string) (deps : list string) : TaskDescriptor unit string :=
  {| name := n; dependencies := deps; task := noop |}.

(** A task that rejects at once with [e]. *)
Definition failing (e : string) : Task unit string := λ w, (w, Settle (Rejected e)).

Definition mkFailing (n : string) (deps : list string) (e : string)
  : TaskDescriptor unit string :=
  {| name := n; dependencies := deps; task := failing e |}.

(** Registration order A, B, C, where only A has a dependency, on C. *)
Definition tieGraph : list (TaskDescriptor unit string) :=
  [mk "A" ["C"]; mk "B" []; mk "C" []].

(** A depends on B, B on C; nothing else. *)
Definition lineGraph : list (TaskDescriptor unit string) :=
  [mk "A" ["B"]; mk "B" ["C"]; mk "C" []].

(** The two-cycle A -> B -> A. *)
Definition twoCycle : list (TaskDescriptor unit string) :=
  [mk "A" ["B"]; mk "B" ["A"]].

(** The cycle B -> C -> B, entered from A. *)
Definition leadInCycle : list (TaskDescriptor unit string) :=
  [mk "A" ["B"]; mk "B" ["C"]; mk "C" ["B"]].

(** A names the unregistered X; B and C form a cycle. *)
Definition missingThenCycle : list (TaskDescriptor unit string) :=
  [mk "A" ["X"]; mk "B" ["C"]; mk "C" ["B"]].

(** A depends on itself, then on the unregistered X. *)
Definition selfThenMissing : list (TaskDescriptor unit string) :=
  [mk "A" ["A"; "X"]].

(** A names the unregistered X and Y. *)
Definition twoMissing : list (TaskDescriptor unit string) :=
  [mk "A" ["X"; "Y"]].

(** A names the unregistered X. *)
Definition oneMissing : list (TaskDescriptor unit string) :=
  [mk "A" []; mk "B" ["A"; "X"]].

(** A fulfils, B rejects, C fulfils; no dependencies. *)
Definition okFailOk : list (TaskDescriptor unit string) :=
  [mk "A" []; mkFailing "B" [] "boom"; mk "C" []].

(** D rejects; T depends on D. *)
Definition depFail : list (TaskDescriptor unit string) :=
  [mkFailing "D" [] "boom"; mk "T" ["D"]].

(** A rejects; B depends on A and C on B. *)
Definition chainGraph : list (TaskDescriptor unit string) :=
  [mkFailing "A" [] "boom"; mk "B" ["A"]; mk "C" ["B"]].


Definition unitOf (n : string) (t : Task unit string) (deps : list (option nat))
    (st : UnitState unit string) : Unit unit string :=
  {| unitName := n; unitTask := t; dependencyPromises := deps; unitState := st |}.

(** The run of [depFail] once D has been called and has rejected. *)
Definition depFailAfterD : ParState unit string :=
  {| world := ();
     units := [unitOf "D" (failing "boom") [] (Settled (Rejected "boom"));
               unitOf "T" noop [Some 0] AwaitingDeps];
     settleOrder := [0];
     trace := [Invoked "D"; Completed "D" (Rejected "boom")] |}.

(** The run of [chainGraph] once every unit has settled. *)
Definition chainDone : ParState unit string :=
  {| world := ();
     units := [unitOf "A" (failing "boom") [] (Settled (Rejected "boom"));
               unitOf "B" noop [Some 0] (Settled (Rejected "boom"));
               unitOf "C" noop [Some 1] (Settled (Rejected "boom"))];
     settleOrder := [0; 1; 2];
     trace := [Invoked "A"; Completed "A" (Rejected "boom")] |}.



(** *** Completion ports and tasks *)

(** [JSON.parse] on the few texts the samples use: two are JSON, the
    others are not. *)
Definition sampleParse (s : string) : option Chat.Json :=
  if bool_decide (s = "[]") then Some (Chat.JArray [])
  else if bool_decide (s = "{}") then Some (Chat.JObject [])
  else None.

Definition transportError : Chat.JsError :=
  Chat.newError "Chat completion failed: Service Unavailable".

Definition answer (c : string) : Chat.Completion :=
  {| Chat.message := {| Chat.role := "assistant"; Chat.content := c;
                        Chat.size := Some 7%Z; Chat.data := ∅ |};
     Chat.usage := {| Chat.prompt := 11%Z; Chat.completion := 7%Z |};
     Chat.duration := 0%Z |}.

(** A port that plays a script: each call consumes one entry, a failure
    or the text of an answer; it fails once the script is over. *)
Definition scripted : Tasks.ChatCompletion (list (Chat.JsError + string)) unit :=
  λ _ _ script,
    match script with
    | [] => ([], inl transportError)
    | inl e :: rest => (rest, inl e)
    | inr c :: rest => (rest, inr (answer c))
    end.

Definition sampleMessage : Chat.ChatMessage :=
  {| Chat.role := "user"; Chat.content := "Rocq proves programs.";
     Chat.size := None; Chat.data := ∅ |}.

Definition sampleWorld (script : list (Chat.JsError + string))
  : Tasks.World (list (Chat.JsError + string)) :=
  {| Tasks.subject := sampleMessage;
     Tasks.shared := Chat.push (Chat.SystemChatMessage "You are a helpful assistant.")
                       Chat.newContext;
     Tasks.service := script; Tasks.attempts := [] |}.

(** [createExtractKeywords(scripted, maxTries)], with a short instruction. *)
Definition extractKeywords (maxTries : nat)
  : Task (Tasks.World (list (Chat.JsError + string))) Chat.JsError :=
  Tasks.createJsonTask sampleParse "keywords" scripted Tasks.validateKeywords
    "Extract keywords." maxTries None.

(** The same script played to the earlier wrapper. *)
Definition legacyScripted : @Legacy.ChatCompletion (list (Chat.JsError + string)) :=
  λ _ script,
    match script with
    | [] => ([], inl transportError)
    | inl e :: rest => (rest, inl e)
    | inr c :: rest => (rest, inr (Chat.message (answer c), 7%Z))
    end.

End Samples.

(** * run.ts: the registry of [TaskGraph], [pipe] and [parallelPipe] *)
Module Pipe.
Import Run.

Section Pipe.
Context {World Err : Type}.

(** The boolean that [TaskGraph.delete(name)] returns. *)
Definition deleted (n : string) (g : list (TaskDescriptor World Err)) : bool := has n g.

(** A call of one of the two mutators of [TaskGraph]. *)
Inductive GraphOp : Type :=
| Add (t : TaskDescriptor World Err)
| Delete (n : string).

Definition applyOp (g : list (TaskDescriptor World Err)) (op : GraphOp)
  : list (TaskDescriptor World Err) :=
  match op with
  | Add t => add t g
  | Delete n => delete n g
  end.

(** A graph as a program makes it: [new TaskGraph()] and then the calls
    [ops], in order. *)
Definition build (ops : list GraphOp) : list (TaskDescriptor World Err) :=
  foldl applyOp [] ops.

(** [await p] followed by [rest]: what is left of [p] runs first; once [p]
    is fulfilled the function goes on with [rest] in a job of its own, and
    a rejection of [p] is thrown at the [await], which rejects the promise
    of the function. *)
Fixpoint awaitThen (p : Async World Err) (rest : World → World * Async World Err)
  : Async World Err :=
  match p with
  | Settle Fulfilled => Suspend rest
  | Settle (Rejected e) => Suspend (λ w, (w, Settle (Rejected e)))
  | Suspend k => Suspend (λ w, let (w', p') := k w in (w', awaitThen p' rest))
  end.

(** [pipe(...tasks)]: [for (const task of tasks) await task(message, context)]. *)
Fixpoint pipe (tasks : list (Task World Err)) : Task World Err :=
  λ w,
    match tasks with
    | [] => (w, Settle Fulfilled)
    | t :: rest => let (w1, p) := t w in (w1, awaitThen p (pipe rest))
    end.

(** *** parallelPipe *)


(** The pending call [Promise.all(promises)]: the shared world, the
    promises of the tasks, and the order in which they settled. *)
Record AllState : Type := {
  allWorld : World;
  promises : list (Async World Err);
  settledInOrder : list nat;
}.



Definition isSettle (p : Async World Err) : bool :=
  match p with
  | Settle _ => true
  | Suspend _ => false
  end.

(** The next job of the task [i], if it is pending. *)
Definition resume (i : nat) (st : AllState) : option AllState :=
  match promises st !! i with
  | Some (Suspend k) =>
      let (w', p') := k (allWorld st) in
      Some {| allWorld := w';
              promises := <[i := p']> (promises st);
              settledInOrder := if isSettle p' then settledInOrder st ++ [i]
                                else settledInOrder st |}
  | _ => None
  end.






(** *** Vocabulary of the statements *)

(** The task [t] keeps the relation [R]: in its synchronous part and in
    every resumption. *)
Definition keeps (R : relation World) (t : Task World Err) : Prop :=
  ∀ w, R w (t w).1 ∧ stepsWithin R (t w).2.

(** The names of [g] are listed dependencies first. *)
Definition dependenciesFirst (g : list (TaskDescriptor World Err)) : Prop :=
  ∀ t d, depends g t d → before (keys g) d t.

(** In [tr], a task is invoked only after each of its dependencies has
    completed and fulfilled, and completes only after it was invoked. *)
Definition wellOrdered (g : list (TaskDescriptor World Err)) (tr : Trace Err) : Prop :=
  (∀ tr1 tr2 t d, tr = tr1 ++ Invoked t :: tr2 → depends g t d →
                  Completed d Fulfilled ∈ tr1) ∧
  (∀ tr1 tr2 n r, tr = tr1 ++ Completed n r :: tr2 → Invoked n ∈ tr1).


End Pipe.

Arguments GraphOp : clear implicits.
Arguments AllState : clear implicits.

End Pipe.


(** * ChatMessage.ts and Context.ts: the rest of the two classes *)
Module Messages.
Import Chat.

(** [new ChatMessage(role, content, size)]. *)
Definition newChatMessage (r c : string) (sz : option Z) : ChatMessage :=
  {| role := r; content := c; size := sz; data := ∅ |}.

(** [new AssistantChatMessage(content, size)]. *)
Definition AssistantChatMessage (c : string) (sz : option Z) : ChatMessage :=
  newChatMessage "assistant" c sz.

(** [get size()]: [this.#size ?? 0]. *)
Definition getSize (m : ChatMessage) : Z := default 0%Z (size m).

(** [set size(size)]. *)
Definition setSize (sz : Z) (m : ChatMessage) : Result JsError ChatMessage :=
  match size m with
  | Some _ => Thrown (newError "Cannot set size twice")
  | None =>
      Normal {| role := role m; content := content m; size := Some sz; data := data m |}
  end.

(** [Context.push(...messages)]. *)
Definition pushAll (ms : list ChatMessage) (c : Context) : Context :=
  {| messages := messages c ++ ms; contextData := contextData c |}.

(** [Context.create(role, content, size)]: the message it returns and the
    context afterwards. *)
Definition create (r c : string) (sz : option Z) (ctx : Context) : ChatMessage * Context :=
  let message := newChatMessage r c sz in (message, pushAll [message] ctx).

(** [Context.set(key, content, size)]. *)
Definition setContextData (key : string) (v : Json) (sz : option Z) (ctx : Context)
  : Context :=
  {| messages := messages ctx;
     contextData := <[key := {| itemContent := v; itemSize := sz |}]> (contextData ctx) |}.

(** [Context.get(key)]: the whole item. *)
Definition getContextData (key : string) (ctx : Context) : option DataItem :=
  contextData ctx !! key.

(** A call of one of the mutators of [Context]. *)
Inductive ContextOp : Type :=
| OpPush (ms : list ChatMessage)
| OpCreate (r c : string) (sz : option Z)
| OpSet (key : string) (v : Json) (sz : option Z).

Definition applyContextOp (ctx : Context) (op : ContextOp) : Context :=
  match op with
  | OpPush ms => pushAll ms ctx
  | OpCreate r c sz => (create r c sz ctx).2
  | OpSet key v sz => setContextData key v sz ctx
  end.

(** The messages that a call hands to the context. *)
Definition given (op : ContextOp) : list ChatMessage :=
  match op with
  | OpPush ms => ms
  | OpCreate r c sz => [newChatMessage r c sz]
  | OpSet _ _ _ => []
  end.

End Messages.

(** * chatCompletion.ts *)
Module Completions.
Import Chat.

(** [interface Message]. *)
Record Message : Type := {
  messageRole : string;
  messageContent : string;
}.

(** An element of [choices]. *)
Record Choice : Type := {
  choiceMessage : Message;
}.

(** [interface ChatCompletionUsage]. *)
Record ChatCompletionUsage : Type := {
  prompt_tokens : Z;
  completion_tokens : Z;
}.

(** [interface ChatCompletionResponse]. *)
Record ChatCompletionResponse : Type := {
  choices : list Choice;
  usage : ChatCompletionUsage;
}.

(** [interface ChatCompletionOptions]; its numbers are only passed on,
    and are kept exact. *)
Record ChatCompletionOptions : Type := {
  temperature : option Q;
  max_tokens : option Z;
  top_p : option Q;
  frequency_penalty : option Q;
  presence_penalty : option Q;
  stop : option (string + list string);
  logprobs : option Z;
}.

(** What [JSON.stringify] keeps of a [ChatMessage]: its two public fields. *)
Definition toMessage (m : ChatMessage) : Message :=
  {| messageRole := role m; messageContent := content m |}.

(** [HeadersInit], the type of the [headers] parameter: a [Headers]
    instance with its entries, an array of arrays of strings, or a plain
    object used as a record. *)
Inductive HeadersInit : Type :=
| HeadersObject (entries : list (string * string))
| HeadersArray (pairs : list (list string))
| HeadersRecord (fields : gmap string string).

(** The value of a property of the [headers] object that [fetch] is
    given: a string, or an array of strings where an array was spread. *)
Inductive HeaderValue : Type :=
| Text (s : string)
| Items (l : list string).

(** [{ ...headers }]: the own enumerable properties of [headers].  A
    record has its fields, under their names as they are written; an array
    has its indices; a [Headers] instance has none, as has [undefined]. *)
Definition spreadHeaders (headers : option HeadersInit) : gmap string HeaderValue :=
  match headers with
  | None => ∅
  | Some (HeadersObject _) => ∅
  | Some (HeadersArray pairs) => list_to_map (imap (λ i pair, (showNat i, Items pair)) pairs)
  | Some (HeadersRecord fields) => Text <$> fields
  end.

(** The argument of [fetch]: the URL and the [init] object, whose
    [headers] are an object literal.  The body is the JSON text of
    [{ ...options, messages }], kept here as its two parts. *)
Record Request : Type := {
  requestUrl : string;
  requestMethod : string;
  requestHeaders : gmap string HeaderValue;
  bodyOptions : option ChatCompletionOptions;
  bodyMessages : list Message;
}.

(** What comes back: [fetch] rejects, or resolves with a response whose
    body, when [response.json()] is called, parses or does not. *)
Inductive Reply : Type :=
| FetchFailed (error : JsError)
| Response (ok : bool) (statusText : string) (json : JsError + ChatCompletionResponse).

Definition jsonContentType : HeaderValue := Text "application/json; charset=utf-8".

(** The request of [chatCompletion(context, options)], for the [url] and
    the [headers] given to [createChatCompletion]. *)
Definition requestOf (url : string) (headers : option HeadersInit)
    (context : Context) (options : option ChatCompletionOptions) : Request :=
  {| requestUrl := url;
     requestMethod := "POST";
     requestHeaders := <["Content-Type" := jsonContentType]> (spreadHeaders headers);
     bodyOptions := options;
     bodyMessages := toMessage <$> messages context |}.

(** Reading [message] off the missing first element of [choices]. *)
Definition noChoice : JsError :=
  {| errorName := "TypeError";
     errorMessage := "Cannot read properties of undefined (reading 'message')" |}.

Section Fetch.

(** [Net] is the state of the network and of the clock; [fetch] sends a
    request, [now] is [performance.now()]. *)
Context {Net : Type}.
Variables (fetch : Request → Net → Net * Reply) (now : Net → Z).

(** [createChatCompletion(url, headers)]. *)
Definition createChatCompletion (url : string) (headers : option HeadersInit)
  : Tasks.ChatCompletion Net ChatCompletionOptions :=
  λ context options net,
    let start := now net in
    let (net', reply) := fetch (requestOf url headers context options) net in
    match reply with
    | FetchFailed error => (net', inl error)
    | Response false statusText _ =>
        (net', inl (newError ("Chat completion failed: " +:+ statusText)))
    | Response true _ (inl error) => (net', inl error)
    | Response true _ (inr response) =>
        match choices response with
        | [] => (net', inl noChoice)
        | first :: _ =>
            let choice := choiceMessage first in
            (net', inr {| message := Messages.newChatMessage (messageRole choice)
                                       (messageContent choice)
                                       (Some (completion_tokens (usage response)));
                          Chat.usage :=
                            {| prompt := prompt_tokens (usage response);
                               completion := completion_tokens (usage response) |};
                          duration := now net' - start |})
        end
    end.

End Fetch.

End Completions.

(** * tasks.ts: the tasks made from [createJsonTask], [createSummarize] *)
Module Extractors.
Import Run Chat Tasks Completions.

(** [{ temperature: 0.1 }]. *)
Definition lowTemperature : ChatCompletionOptions :=
  {| temperature := Some (1 # 10)%Q; max_tokens := None; top_p := None;
     frequency_penalty := None; presence_penalty := None; stop := None;
     logprobs := None |}.

Definition summarizeInstruction : string :=
  "For each of the user's messages, summarize in one sentence what the message is about.".

Definition keywordsInstruction : string :=
  "For each of the user's messages, extract up to 5 keywords that describe what the message is about. Return a valid JSON array of strings. Consider the entire message when extracting keywords.".

Definition entitiesInstruction : string :=
  "For each of the user's messages, extract any people, places, or organizations that are mentioned. Return a valid JSON array of objects with a `category` (either `person`, `location`, or `organization`), `entity` (name) field, optional `title` string, and `aliases` array. Consider the entire message when extracting entities.".

(** The response that an attempt pushed on the conversation, if any. *)
Definition responseOf (r : AttemptResult) : list ChatMessage :=
  match r with
  | PortFailed _ => []
  | ParseFailed response => [response]
  | SchemaFailed response _ _ => [response]
  | Accepted response _ _ => [response]
  end.

(** The error that a failed attempt threw. *)
Definition errorOf (r : AttemptResult) : option JsError :=
  match r with
  | PortFailed error => Some error
  | ParseFailed _ => Some (newError "Message is not valid JSON")
  | SchemaFailed _ _ error => Some error
  | Accepted _ _ _ => None
  end.

(** The conversation after a failed attempt: what it was sent, its
    response if there was one, and the user turn that quotes its error. *)
Definition followUp (a : Attempt) : option Context :=
  (λ error, push (feedback error) (Messages.pushAll (responseOf (result a)) (sent a)))
    <$> errorOf (result a).

(** The value that an attempt accepted is what [JSON.parse] made of the
    response, and the validator took it. *)
Definition sound (JSON_parse : string → option Json) (validateJson : Json → Validation)
    (a : Attempt) : Prop :=
  match result a with
  | Accepted response json _ =>
      JSON_parse (content response) = Some json ∧ validateJson json = Valid
  | _ => True
  end.

Section Extractors.
Context {Port : Type}.
Variables (JSON_parse : string → option Json)
  (chatCompletion : ChatCompletion Port ChatCompletionOptions).

(** [validateEntities], the function that Ajv compiled from [entitySchema]. *)
Variable validateEntities : Json → Validation.

(** [createSummarize(chatCompletion)]. *)
Definition createSummarize : Task (World Port) JsError :=
  λ w,
    let innerContext :=
      push (UserChatMessage (content (subject w)))
        (push (SystemChatMessage summarizeInstruction) newContext) in
    (w, Suspend (λ w,
       let (service', answer) := chatCompletion innerContext (Some lowTemperature) (service w) in
       let record r m :=
         {| subject := m; shared := shared w; service := service';
            attempts := attempts w ++ [{| sent := innerContext; result := r |}] |} in
       match answer with
       | inl error => (record (PortFailed error) (subject w), Settle (Rejected error))
       | inr c =>
           let response := message c in
           let summary := JString (content response) in
           (record (Accepted response summary (completion (Chat.usage c)))
              (setData "summary" summary (Some (completion (Chat.usage c))) (subject w)),
            Settle Fulfilled)
       end)).

(** [createExtractKeywords(chatCompletion, maxTries)]; [maxTries] is 3 when
    it is left out. *)
Definition createExtractKeywords (maxTries : option nat) : Task (World Port) JsError :=
  createJsonTask JSON_parse "keywords" chatCompletion validateKeywords
    keywordsInstruction (default 3 maxTries) (Some lowTemperature).

(** [createExtractEntities(chatCompletion, maxTries)]. *)
Definition createExtractEntities (maxTries : option nat) : Task (World Port) JsError :=
  createJsonTask JSON_parse "entities" chatCompletion validateEntities
    entitiesInstruction (default 3 maxTries) (Some lowTemperature).

(** The [run] of test.ts: the pipe of the three tasks. *)
Definition runTasks : Task (World Port) JsError :=
  Pipe.pipe [createSummarize; createExtractKeywords None; createExtractEntities None].

(** The conversation that the summary task sends for the message of [w]. *)
Definition summaryContext (w : World Port) : Context :=
  push (UserChatMessage (content (subject w)))
    (push (SystemChatMessage summarizeInstruction) newContext).

(** What a task of this module may do to the world: add to the record of
    the port calls, and write annotations of the message under [keys]. *)
Definition annotatesOnly (keys : list string) (w w' : World Port) : Prop :=
  shared w' = shared w ∧
  role (subject w') = role (subject w) ∧
  content (subject w') = content (subject w) ∧
  size (subject w') = size (subject w) ∧
  (∀ k, k ∉ keys → data (subject w') !! k = data (subject w) !! k) ∧
  attempts w `prefix_of` attempts w'.

End Extractors.

End Extractors.

(** * The earlier application: its context, its validators, its tasks *)
Module LegacyApp.
Import Run Chat Legacy.

(** The double nearest to the integer [z], a tie going to the even
    mantissa; [None] where it is an infinity.  An integer below 2^53 in
    magnitude is a double. *)
Definition toDouble (z : Z) : option Z :=
  let a := Z.abs z in
  let bits := (Z.log2 a + 1)%Z in
  if (bits <=? 53)%Z then Some z
  else
    let shift := (bits - 53)%Z in
    let mantissa := Z.shiftr a shift in
    let rest := Z.land a (Z.ones shift) in
    let half := Z.shiftl 1 (shift - 1) in
    let up := (half <? rest)%Z || ((rest =? half)%Z && Z.odd mantissa) in
    let rounded := Z.shiftl (if up then mantissa + 1 else mantissa)%Z shift in
    if (2 ^ 1024 <=? rounded)%Z then None else Some (Z.sgn z * rounded)%Z.

(** [sum + (size ?? 0)] on numbers that hold integers; [None] is a sum
    that is not finite, which no further size makes finite. *)
Definition addSize (sum : option Z) (m : ChatMessage) : option Z :=
  sum ≫= λ s, toDouble (s + default 0 (size m))%Z.

(** [get size()] of the earlier [Context]:
    [this.#messages.reduce((sum, { size }) => sum + (size ?? 0), 0)]. *)
Definition contextSize (c : Context) : option Z :=
  foldl addSize (Some 0%Z) (messages c).

(** [typeof v] for a decoded JSON value. *)
Definition typeOf (v : Json) : string :=
  match v with
  | JNull => "object"
  | JBool _ => "boolean"
  | JNumber _ => "number"
  | JString _ => "string"
  | JArray _ => "object"
  | JObject _ => "object"
  end.

Definition isNull (v : Json) : bool :=
  match v with
  | JNull => true
  | _ => false
  end.

(** The [validate] argument of [extractKeywords]. *)
Definition validateKeywords (keywords : Json) : option JsError :=
  match keywords with
  | JArray items =>
      if bool_decide (length items = 0) then
        Some (newError "Keywords must not be empty")
      else if negb (forallb (λ keyword, bool_decide (typeOf keyword = "string")) items) then
        Some (newError ("Keywords must be an array of strings, got " +:+ typeOf keywords
                        +:+ " instead"))
      else None
  | _ => Some (newError ("Keywords must be an array, got " +:+ typeOf keywords +:+ " instead"))
  end.

(** The [validate] argument of [extractPeople]. *)
Definition validatePeople (people : Json) : option JsError :=
  match people with
  | JArray items =>
      if bool_decide (length items = 0) then
        Some (newError "People must not be empty")
      else if negb (forallb (λ person, bool_decide (typeOf person = "object")
                                        && negb (isNull person)) items) then
        Some (newError ("People must be an array of `Person` objects, got " +:+ typeOf people
                        +:+ " instead"))
      else None
  | _ => Some (newError ("People must be an array, got " +:+ typeOf people +:+ " instead"))
  end.

Definition keywordsPrompt : string :=
  "You are an expert editor, specializing in extracting keywords from text. Extract up to five keywords from the user's text, and return them as a valid JSON array.".

Section Tasks.
Context {Port : Type}.
Variables (JSON_parse : string → option Json) (trim : string → string).
Variable chatCompletion : @ChatCompletion Port.

(** [extractKeywords], made by [wrap] with the default of three tries. *)
Definition extractKeywords : Task (World Port) JsError :=
  wrap JSON_parse trim chatCompletion "keywords"
    (λ ctx, push (Messages.newChatMessage "system" keywordsPrompt None) ctx)
    validateKeywords 3.

End Tasks.

End LegacyApp.


(** * More sample inputs *)
Module Inputs.
Import Run Samples.

(** C, then B which depends on C, then A which depends on B. *)
Definition sortedLine : list (TaskDescriptor unit string) :=
  [mk "C" []; mk "B" ["C"]; mk "A" ["B"]].


(** A task on a counter: it counts once when it is called and once more
    after its [await]. *)
Definition tick : Task nat string := λ w, (S w, Suspend (λ w, (S w, Settle Fulfilled))).

(** A task on a counter that counts once and rejects. *)
Definition tickFail : Task nat string := λ w, (S w, Settle (Rejected "boom")).

(** Three tasks on the counter, without dependencies: A counts twice and
    fulfils, B counts once and rejects, C is as A. *)
Definition counterGraph : list (TaskDescriptor nat string) :=
  [{| name := "A"; dependencies := []; task := tick |};
   {| name := "B"; dependencies := []; task := tickFail |};
   {| name := "C"; dependencies := []; task := tick |}].

(** The run of [lineGraph] once every unit has settled. *)
Definition lineDone : ParState unit string :=
  {| world := ();
     units := [unitOf "C" noop [] (Settled Fulfilled);
               unitOf "B" noop [Some 0] (Settled Fulfilled);
               unitOf "A" noop [Some 1] (Settled Fulfilled)];
     settleOrder := [0; 1; 2];
     trace := [Invoked "C"; Completed "C" Fulfilled; Invoked "B"; Completed "B" Fulfilled;
               Invoked "A"; Completed "A" Fulfilled] |}.

(** The scripted port of [Samples], taking the options of
    chatCompletion.ts. *)
Definition scriptedPort
  : Tasks.ChatCompletion (list (Chat.JsError + string)) Completions.ChatCompletionOptions :=
  λ _ _ script,
    match script with
    | [] => ([], inl transportError)
    | inl e :: rest => (rest, inl e)
    | inr c :: rest => (rest, inr (answer c))
    end.

End Inputs.


(** * Properties of run.ts *)
Module RunSpec.
Import Run.

(** ** Insertion-ordered sets *)

Lemma JsSet_has_spec x s : JsSet.has x s = true ↔ x ∈ s.
Proof. unfold JsSet.has. by rewrite bool_decide_eq_true. Qed.

Lemma JsSet_add_fresh x s : x ∉ s → JsSet.add x s = s ++ [x].
Proof.
  intros Hx. unfold JsSet.add, JsSet.has. by rewrite bool_decide_eq_false_2.
Qed.

Lemma JsSet_delete_notin x s : x ∉ s → JsSet.delete x s = s.
Proof.
  unfold JsSet.delete. induction s as [|y s IH]; intros Hx; [done|].
  apply not_elem_of_cons in Hx as [Hne Hx].
  rewrite filter_cons_True by congruence. by rewrite IH.
Qed.

Lemma JsSet_delete_last x s : x ∉ s → JsSet.delete x (s ++ [x]) = s.
Proof.
  intros Hx. unfold JsSet.delete. rewrite filter_app.
  fold (JsSet.delete x s). rewrite JsSet_delete_notin by done.
  rewrite filter_cons_False by (intros H; by apply H).
  by rewrite filter_nil, app_nil_r.
Qed.

(** ** Iteration *)

Lemma forEach_app {E S A} (f : A → S → Result E S) xs ys s s' :
  forEach f (xs ++ ys) s = Normal s' →
  ∃ sm, forEach f xs s = Normal sm ∧ forEach f ys sm = Normal s'.
Proof.
  revert s. induction xs as [|x xs IH]; intros s; simpl.
  - eauto.
  - destruct (f x s) as [s1|e]; [apply IH | done].
Qed.

Section Graph.
Context {World Err : Type}.
Implicit Types (g : list (TaskDescriptor World Err)) (s : SortState).
Implicit Types (n m d t : string) (l : list string).

(** ** The task map *)

Lemma get_Some g n td : get n g = Some td → name td = n ∧ td ∈ g.
Proof.
  unfold get. induction g as [|t' g IH]; simpl; [done|].
  case_bool_decide as Hn.
  - intros [= <-]. split; [done | left].
  - intros H. destruct (IH H). split; [done | by right].
Qed.

Lemma get_None g n : get n g = None ↔ n ∉ keys g.
Proof.
  unfold get, keys. induction g as [|t' g IH]; simpl.
  - split; [intros _; apply not_elem_of_nil | done].
  - case_bool_decide as Hn.
    + split; [done | intros H; exfalso; apply H; subst; left].
    + rewrite IH, not_elem_of_cons. naive_solver.
Qed.

Lemma get_is_Some g n : is_Some (get n g) ↔ n ∈ keys g.
Proof.
  rewrite <- not_eq_None_Some, get_None.
  split; [apply dec_stable | auto].
Qed.

Lemma get_NoDup g td : NoDup (keys g) → td ∈ g → get (name td) g = Some td.
Proof.
  unfold get, keys. induction g as [|t' g IH]; simpl; intros Hnd Hin.
  - by apply elem_of_nil in Hin.
  - apply NoDup_cons in Hnd as [Hnotin Hnd].
    apply elem_of_cons in Hin as [->|Hin].
    + by rewrite bool_decide_eq_true_2.
    + rewrite bool_decide_eq_false_2; [by apply IH|].
      intros Heq. apply Hnotin. rewrite Heq. by apply list_elem_of_fmap_2.
Qed.

Lemma add_keys g (td : TaskDescriptor World Err) x :
  x ∈ keys (add td g) → x = name td ∨ x ∈ keys g.
Proof.
  unfold keys. induction g as [|t' g IH]; simpl.
  - intros ->%list_elem_of_singleton. by left.
  - case_bool_decide as Hn; simpl; rewrite !elem_of_cons; naive_solver.
Qed.

Lemma add_keys_NoDup g (td : TaskDescriptor World Err) :
  NoDup (keys g) → NoDup (keys (add td g)).
Proof.
  induction g as [|t' g IH]; simpl; intros Hnd.
  - apply NoDup_singleton.
  - apply NoDup_cons in Hnd as [Hnotin Hnd]. case_bool_decide as Hn; simpl.
    + apply NoDup_cons. by rewrite <- Hn.
    + apply NoDup_cons. split; [|by apply IH].
      intros [?|?]%add_keys; [congruence | done].
Qed.

Lemma delete_keys_NoDup g n : NoDup (keys g) → NoDup (keys (delete n g)).
Proof.
  unfold keys, delete. induction g as [|t' g IH]; simpl; intros Hnd; [done|].
  apply NoDup_cons in Hnd as [Hnotin Hnd].
  destruct (decide (name t' ≠ n)) as [Hn|Hn].
  - rewrite filter_cons_True by done. csimpl. apply NoDup_cons. split; [|by apply IH].
    intros (td & Htd & Hin%list_elem_of_filter)%list_elem_of_fmap. apply Hnotin.
    apply list_elem_of_fmap. exists td. split; [done | apply Hin].
  - rewrite filter_cons_False by done. by apply IH.
Qed.

Lemma get_add g (td : TaskDescriptor World Err) : get (name td) (add td g) = Some td.
Proof.
  unfold get. induction g as [|t' g IH]; simpl.
  - by rewrite bool_decide_eq_true_2.
  - case_bool_decide as Hn; simpl.
    + by rewrite bool_decide_eq_true_2.
    + by rewrite bool_decide_eq_false_2.
Qed.

(** ** Positions in a list *)

Lemma indexOf_is_Some x l : is_Some (indexOf x l) ↔ x ∈ l.
Proof.
  induction l as [|y l IH]; simpl.
  - split; [by intros [? ?] | by intros ?%elem_of_nil].
  - case_bool_decide as Hy.
    + subst. split; [left | eauto].
    + rewrite elem_of_cons, <- IH, fmap_is_Some. naive_solver.
Qed.

Lemma indexOf_None x l : indexOf x l = None ↔ x ∉ l.
Proof. rewrite <- indexOf_is_Some, eq_None_not_Some. done. Qed.

Lemma indexOf_lt x l i : indexOf x l = Some i → i < length l.
Proof.
  revert i. induction l as [|y l IH]; simpl; intros i; [done|].
  case_bool_decide.
  - intros [= <-]. lia.
  - destruct (indexOf x l) as [j|]; simpl; [|done].
    intros [= <-]. specialize (IH j eq_refl). lia.
Qed.

Lemma indexOf_app_l x l1 l2 : x ∈ l1 → indexOf x (l1 ++ l2) = indexOf x l1.
Proof.
  induction l1 as [|y l1 IH]; simpl; intros Hx.
  - by apply elem_of_nil in Hx.
  - case_bool_decide as Hy; [done|].
    apply elem_of_cons in Hx as [->|Hx]; [done|]. by rewrite IH.
Qed.

Lemma indexOf_app_r x l1 l2 :
  x ∉ l1 → indexOf x (l1 ++ l2) = (λ i, length l1 + i) <$> indexOf x l2.
Proof.
  induction l1 as [|y l1 IH]; simpl; intros Hx.
  - by destruct (indexOf x l2).
  - apply not_elem_of_cons in Hx as [Hne Hx].
    rewrite bool_decide_eq_false_2 by done. rewrite IH by done.
    by destruct (indexOf x l2).
Qed.

Lemma before_app l1 l2 a b : a ∈ l1 → b ∉ l1 → b ∈ l2 → before (l1 ++ l2) a b.
Proof.
  intros Ha Hb Hb2. unfold before.
  rewrite indexOf_app_l, indexOf_app_r by done.
  apply indexOf_is_Some in Ha as [i Hi]. apply indexOf_is_Some in Hb2 as [j Hj].
  rewrite Hi, Hj. simpl. apply indexOf_lt in Hi. lia.
Qed.

Lemma before_trans l a b c : before l a b → before l b c → before l a c.
Proof.
  unfold before.
  destruct (indexOf a l), (indexOf b l), (indexOf c l); try done. lia.
Qed.

Lemma before_irrefl l a : ¬ before l a a.
Proof. unfold before. destruct (indexOf a l); [lia | tauto]. Qed.

Lemma before_elem l a b : before l a b → a ∈ l ∧ b ∈ l.
Proof.
  unfold before. rewrite <- !indexOf_is_Some.
  destruct (indexOf a l), (indexOf b l); naive_solver.
Qed.

Lemma before_prefix l1 l2 a b : before l1 a b → before (l1 ++ l2) a b.
Proof.
  intros H. destruct (before_elem _ _ _ H) as [Ha Hb].
  unfold before in *. by rewrite !indexOf_app_l.
Qed.

(** ** The traversal: successful runs *)

Lemma closed_nil g : closed g [].
Proof. intros l1 x l2 H. by destruct l1. Qed.

Lemma closed_snoc g l n td :
  closed g l → get n g = Some td → (∀ d, d ∈ dependencies td → d ∈ l) →
  closed g (l ++ [n]).
Proof.
  intros Hc Hget Hdeps l1 x l2 Heq.
  destruct l2 as [|y l2 _] using rev_ind.
  - apply app_inj_tail in Heq as [-> ->]. eauto.
  - rewrite app_comm_cons, app_assoc in Heq.
    apply app_inj_tail in Heq as [-> _]. by eapply Hc.
Qed.

Lemma closed_registered g l x : closed g l → x ∈ l → x ∈ keys g.
Proof.
  intros Hc (l1 & l2 & ->)%list_elem_of_split.
  destruct (Hc l1 x l2 eq_refl) as (td & Hget & _).
  apply get_is_Some. eauto.
Qed.

Lemma SortInv_init g : SortInv g sortInit.
Proof.
  split; simpl.
  - intros x. set_solver.
  - apply NoDup_nil_2.
  - apply closed_nil.
Qed.

Lemma SortPost_nil g s : SortInv g s → SortPost g [] s s.
Proof.
  intros HI. split; [done | | | done].
  - exists []. rewrite app_nil_r. split; [done|]. by intros x ?%elem_of_nil.
  - by intros r ?%elem_of_nil.
Qed.

Lemma SortPost_cons g r roots s s1 s2 :
  SortPost g [r] s s1 → SortPost g roots s1 s2 → SortPost g (r :: roots) s s2.
Proof.
  intros [Hv1 (new1 & Hs1 & Hn1) Hr1 _] [Hv2 (new2 & Hs2 & Hn2) Hr2 HI].
  split; [congruence | | | done].
  - exists (new1 ++ new2). split; [by rewrite Hs2, Hs1, app_assoc|].
    intros x [Hx|Hx]%elem_of_app.
    + destruct (Hn1 x Hx) as [(r' & ->%list_elem_of_singleton & Hr') Hnv].
      split; [exists r; split; [left | done] | done].
    + destruct (Hn2 x Hx) as [(r' & Hin' & Hr') Hnv].
      split; [exists r'; split; [by right | done] | congruence].
  - intros r' [->|Hin]%elem_of_cons; [|by apply Hr2].
    rewrite Hs2. apply elem_of_app. left. apply Hr1. left.
Qed.

Lemma forEach_visit_post g depth :
  (∀ n s s', SortInv g s → visit g depth n s = Normal s' → SortPost g [n] s s') →
  ∀ ds s s', SortInv g s → forEach (visit g depth) ds s = Normal s' →
    SortPost g ds s s'.
Proof.
  intros IH ds. induction ds as [|d ds IHds]; intros s s' HI; simpl.
  - intros [= <-]. by apply SortPost_nil.
  - destruct (visit g depth d s) as [s1|e] eqn:Hv; [|done].
    intros Hfe. pose proof (IH _ _ _ HI Hv) as H1.
    eapply SortPost_cons; [done|]. apply IHds; [apply H1 | done].
Qed.

Lemma visit_post g depth n s s' :
  SortInv g s → visit g depth n s = Normal s' → SortPost g [n] s s'.
Proof.
  revert n s s'. induction depth as [|depth IH]; intros n s s' HI; simpl; [done|].
  case_bool_decide as Hvis.
  { intros [= <-]. split; [done | | | done].
    - exists []. rewrite app_nil_r. split; [done|]. by intros x ?%elem_of_nil.
    - intros r ->%list_elem_of_singleton. by apply HI. }
  destruct (JsSet.has n (visiting s)) eqn:Hhas; [done|].
  assert (n ∉ visiting s) as Hnv.
  { rewrite <- JsSet_has_spec. by rewrite Hhas. }
  destruct (get n g) as [td|] eqn:Hget; [|done].
  rewrite JsSet_add_fresh by done.
  match goal with |- context [forEach _ _ ?st] => set (s1 := st) end.
  destruct (forEach (visit g depth) (dependencies td) s1) as [s2|e] eqn:Hfe; [|done].
  intros [= <-].
  assert (SortInv g s1) as HI1 by (destruct HI; by split).
  destruct (forEach_visit_post g depth IH _ _ _ HI1 Hfe)
    as [Hv2 (new & Hs2 & Hnew) Hr2 HI2].
  simpl in Hv2, Hs2, Hnew.
  assert (n ∉ sorted s2) as Hn2.
  { rewrite Hs2. intros [Hin|Hin]%elem_of_app.
    - apply Hvis. by apply HI.
    - destruct (Hnew n Hin) as [_ Hn]. apply Hn. apply elem_of_app. right. left. }
  split; simpl.
  - rewrite Hv2. by apply JsSet_delete_last.
  - exists (new ++ [n]). split; [by rewrite Hs2, app_assoc|].
    intros x [Hx | ->%list_elem_of_singleton]%elem_of_app.
    + destruct (Hnew x Hx) as [(d & Hd & Hreach) Hnx]. split.
      * exists n. split; [left|]. eapply rtc_l; [|done]. by exists td.
      * intros Hin. apply Hnx. apply elem_of_app. by left.
    + split; [|done]. exists n. split; [left | done].
  - intros r ->%list_elem_of_singleton. apply elem_of_app. right. left.
  - destruct HI2 as [Hvs Hnd Hcl]. split; simpl.
    + intros x. rewrite elem_of_union, elem_of_singleton, elem_of_app,
        list_elem_of_singleton, Hvs. tauto.
    + apply NoDup_app. split; [done|]. split; [|apply NoDup_singleton].
      by intros x Hx ->%list_elem_of_singleton.
    + by eapply closed_snoc.
Qed.

Lemma topologicalSort_post g plan :
  topologicalSort g = Normal plan →
  ∃ s, forEach (visit g (S (length g))) (keys g) sortInit = Normal s ∧
       sorted s = plan ∧ SortPost g (keys g) sortInit s.
Proof.
  unfold topologicalSort.
  destruct (forEach _ _ _) as [s|e] eqn:Hfe; [|done]. intros [= <-].
  exists s. split; [done|]. split; [done|].
  eapply forEach_visit_post; [|apply SortInv_init|done].
  intros n s0 s0'. apply visit_post.
Qed.

Lemma topologicalSort_NoDup g plan : topologicalSort g = Normal plan → NoDup plan.
Proof. intros (s & _ & <- & Hpost)%topologicalSort_post. apply Hpost. Qed.

Lemma topologicalSort_closed g plan : topologicalSort g = Normal plan → closed g plan.
Proof. intros (s & _ & <- & Hpost)%topologicalSort_post. apply Hpost. Qed.

Lemma topologicalSort_elem g plan n :
  topologicalSort g = Normal plan → n ∈ plan ↔ n ∈ keys g.
Proof.
  intros (s & _ & <- & Hpost)%topologicalSort_post. split.
  - apply closed_registered, Hpost.
  - apply Hpost.
Qed.

Lemma closed_before g plan t d :
  closed g plan → NoDup plan → t ∈ plan → depends g t d → before plan d t.
Proof.
  intros Hc Hnd (l1 & l2 & ->)%list_elem_of_split (td & Hget & Hd).
  destruct (Hc l1 t l2 eq_refl) as (td' & Hget' & Hdeps).
  assert (td' = td) as -> by congruence.
  apply NoDup_app in Hnd as (_ & Hdisj & _).
  apply before_app; [by apply Hdeps | | left].
  intros Hin. apply (Hdisj t Hin). left.
Qed.

Lemma closed_before_tc g plan t d :
  closed g plan → NoDup plan → t ∈ plan → dependsT g t d → before plan d t.
Proof.
  intros Hc Hnd Ht Htc. induction Htc as [t d Hdep | t x d Hdep _ IH].
  - by eapply closed_before.
  - assert (before plan x t) as Hxt by by eapply closed_before.
    eapply before_trans; [|done]. apply IH. by apply before_elem in Hxt as [? _].
Qed.

Lemma before_split l a b :
  NoDup l → before l a b →
  ∃ l1 l2, l = l1 ++ l2 ∧ a ∈ l1 ∧ b ∈ l2 ∧ ∀ w, w ∈ l1 → w = a ∨ before l w a.
Proof.
  induction l as [|y l IH]; intros Hnd; [done|].
  apply NoDup_cons in Hnd as [Hy Hnd]. unfold before. simpl.
  case_bool_decide as Hya; case_bool_decide as Hyb.
  - simpl. lia.
  - destruct (indexOf b l) as [j|] eqn:Hb; simpl; [intros _ | done].
    exists [y], l. subst y. split; [done|]. split; [left|].
    split; [apply indexOf_is_Some; eauto|].
    intros w ->%list_elem_of_singleton. by left.
  - destruct (indexOf a l); simpl; [lia | done].
  - destruct (indexOf a l) as [i|] eqn:Ha; simpl; [|done].
    destruct (indexOf b l) as [j|] eqn:Hb; simpl; [|done]. intros Hij.
    destruct IH as (l1 & l2 & Hl & Ha1 & Hb2 & Hw); [done | |].
    { unfold before. rewrite Ha, Hb. lia. }
    exists (y :: l1), l2. split; [by rewrite Hl|]. split; [by right|]. split; [done|].
    intros w [->|Hin]%elem_of_cons.
    + right. rewrite bool_decide_eq_true_2 by done. simpl. lia.
    + destruct (Hw w Hin) as [->|Hbef]; [by left | right].
      assert (y ≠ w) as Hne.
      { intros ->. apply Hy. rewrite Hl. apply elem_of_app. by left. }
      rewrite bool_decide_eq_false_2 by done.
      unfold before in Hbef. rewrite Ha in Hbef.
      destruct (indexOf w l); simpl; [lia | done].
Qed.

(** A task placed ahead of an earlier-registered one was reached from a
    task registered no later than that one. *)
Lemma topologicalSort_insertion_order g plan u v :
  NoDup (keys g) → topologicalSort g = Normal plan →
  before (keys g) u v →
  (∀ w, w = u ∨ before (keys g) w u → ¬ dependsT g w v) →
  before plan u v.
Proof.
  intros Hnd (s & Hfe & <- & _)%topologicalSort_post Hbef Hfree.
  destruct (before_split _ _ _ Hnd Hbef) as (l1 & l2 & Hk & Hu & Hv & Hw).
  rewrite Hk in Hfe. apply forEach_app in Hfe as (sm & Hfe1 & Hfe2).
  assert (∀ n s0 s0', SortInv g s0 → visit g (S (length g)) n s0 = Normal s0' →
            SortPost g [n] s0 s0') as Hvisit by (intros; by eapply visit_post).
  pose proof (forEach_visit_post g _ Hvisit _ _ _ (SortInv_init g) Hfe1) as H1.
  pose proof (forEach_visit_post g _ Hvisit _ _ _ (post_inv _ _ _ _ H1) Hfe2) as H2.
  destruct H1 as [_ (new1 & Hs1 & Hn1) Hr1 _]. simpl in Hs1.
  destruct H2 as [_ (new2 & Hs2 & _) Hr2 _].
  assert (v ∉ sorted sm) as Hvm.
  { rewrite Hs1. intros Hin. destruct (Hn1 v Hin) as [(r & Hr & Hreach) _].
    apply rtc_tc in Hreach as [->|Htc].
    - rewrite Hk in Hnd. apply NoDup_app in Hnd as (_ & Hdisj & _).
      by apply (Hdisj v).
    - by apply (Hfree r (Hw r Hr)). }
  rewrite Hs2. apply before_app; [by apply Hr1 | done |].
  specialize (Hr2 v Hv). rewrite Hs2 in Hr2.
  by apply elem_of_app in Hr2 as [?|?].
Qed.

(** ** The traversal: failing runs *)

Lemma forEach_Thrown {E S A} (f : A → S → Result E S) xs (s : S) e :
  forEach f xs s = Thrown e →
  ∃ xs1 x xs2 sm, xs = xs1 ++ x :: xs2 ∧ forEach f xs1 s = Normal sm ∧
                  f x sm = Thrown e.
Proof.
  revert s. induction xs as [|x xs IH]; intros s; simpl; [done|].
  destruct (f x s) as [s1|e1] eqn:Hf.
  - intros (xs1 & y & xs2 & sm & -> & H1 & H2)%IH.
    exists (x :: xs1), y, xs2, sm. simpl. by rewrite Hf.
  - intros [= ->]. by exists [], x, xs, s.
Qed.

Lemma chain_snoc g l x y :
  chain g (l ++ [x]) → depends g x y → chain g ((l ++ [x]) ++ [y]).
Proof.
  intros Hc Hd. induction l as [|a l IH]; simpl in *; [done|].
  destruct l as [|b l]; simpl in *; [by destruct Hc|].
  destruct Hc as [Hab Hc]. split; [done | by apply IH].
Qed.

Lemma chain_app_r g l1 l2 : chain g (l1 ++ l2) → chain g l2.
Proof.
  induction l1 as [|a l1 IH]; simpl; [done|].
  destruct (l1 ++ l2) eqn:Heq.
  - apply app_eq_nil in Heq as [_ ->]. done.
  - intros [_ H]. by apply IH.
Qed.

Lemma chain_tc g x l y : chain g (x :: l ++ [y]) → dependsT g x y.
Proof.
  revert x. induction l as [|a l IH]; intros x; simpl.
  - intros [H _]. by apply tc_once.
  - intros [H Hc]. eapply tc_l; [done | by apply IH].
Qed.

Lemma visit_thrown g depth n s e :
  SortInv g s → NoDup (visiting s) → chain g (visiting s ++ [n]) →
  (∀ x, x ∈ visiting s → x ∈ keys g) →
  length (keys g) < depth + length (visiting s) →
  visit g depth n s = Thrown e → ThrownSpec g n s e.
Proof.
  revert n s e. induction depth as [|depth IH]; intros n s e HI Hnd Hch Hreg Hlen; simpl.
  { intros _. exfalso.
    assert (visiting s ⊆+ keys g) as Hsub by by apply NoDup_submseteq.
    apply submseteq_length in Hsub. lia. }
  case_bool_decide as Hvis; [done|].
  destruct (JsSet.has n (visiting s)) eqn:Hhas.
  { intros [= <-]. apply JsSet_has_spec in Hhas.
    exists [], n. rewrite app_nil_r. repeat split; try done.
    by intros x ?%elem_of_nil. }
  assert (n ∉ visiting s) as Hnv.
  { rewrite <- JsSet_has_spec. by rewrite Hhas. }
  destruct (get n g) as [td|] eqn:Hget.
  2:{ intros [= <-]. split; [by apply get_None | done]. }
  rewrite JsSet_add_fresh by done.
  match goal with |- context [forEach _ _ ?st] => set (s1 := st) end.
  destruct (forEach (visit g depth) (dependencies td) s1) as [s2|e'] eqn:Hfe; [done|].
  intros [= ->].
  apply forEach_Thrown in Hfe as (ds1 & d & ds2 & sm & Hds & Hfe1 & Hv).
  assert (SortInv g s1) as HI1 by (destruct HI; by split).
  assert (SortPost g ds1 s1 sm) as Hpost.
  { eapply forEach_visit_post; [|done|done]. intros ???. apply visit_post. }
  destruct Hpost as [Hvm _ _ HIm]. simpl in Hvm.
  assert (n ∈ keys g) as Hn by (apply get_is_Some; eauto).
  assert (depends g n d) as Hdep.
  { exists td. split; [done|]. rewrite Hds. apply elem_of_app. right. left. }
  apply IH in Hv; [|done|rewrite Hvm..].
  - destruct e as [path|m|]; simpl in *; [| |done].
    2:{ destruct Hv as [? ?]. split; [done | by eapply rtc_l]. }
    destruct Hv as (ext & m & -> & Hm & Hnd' & Hch' & Hext).
    rewrite Hvm in *. exists (n :: ext), m.
    rewrite <- !app_assoc in *. simpl in *. repeat split; try done.
    intros x [->|?]%elem_of_cons; [done | by apply Hext].
  - apply NoDup_app. split; [done|]. split; [|apply NoDup_singleton].
    by intros x Hx ->%list_elem_of_singleton.
  - by apply chain_snoc.
  - intros x [? | ->%list_elem_of_singleton]%elem_of_app; [by apply Hreg | done].
  - rewrite length_app. simpl. lia.
Qed.

Lemma topologicalSort_thrown g e :
  topologicalSort g = Thrown e →
  match e with
  | DepthExceeded => False
  | TaskNotFound m => (m ∉ keys g) ∧ ∃ k, k ∈ keys g ∧ reaches g k m
  | CyclicDependencyError path =>
      ∃ stack m, path = stack ++ [m] ∧ m ∈ stack ∧ NoDup stack ∧
                 chain g path ∧ ∀ x, x ∈ stack → x ∈ keys g
  end.
Proof.
  unfold topologicalSort.
  destruct (forEach _ _ _) as [s|e'] eqn:Hfe; [done|]. intros [= ->].
  apply forEach_Thrown in Hfe as (ks1 & k & ks2 & sm & Hk & Hfe1 & Hv).
  assert (SortPost g ks1 sortInit sm) as [Hvm _ _ HIm].
  { eapply forEach_visit_post; [|apply SortInv_init|done]. intros ???. apply visit_post. }
  simpl in Hvm.
  apply visit_thrown in Hv; rewrite ?Hvm; try done.
  - destruct e as [path|m|]; simpl in *; [| |done].
    + rewrite Hvm in Hv. simpl in Hv. destruct Hv as (ext & m & ? & ? & ? & ? & ?).
      by exists ext, m.
    + destruct Hv as [? ?]. split; [done|]. exists k. split; [|done].
      rewrite Hk. apply elem_of_app. right. left.
  - apply NoDup_nil_2.
  - by intros x ?%elem_of_nil.
  - unfold keys. rewrite length_fmap. simpl. lia.
Qed.

(** ** Failed plans *)

Lemma cyclePath_cycle g path : cyclePath g path → ∃ m, dependsT g m m.
Proof. intros (pre & m & mid & _ & _ & Hc). exists m. by eapply chain_tc. Qed.

Lemma topologicalSort_failure g e : topologicalSort g = Thrown e → planFailure g e.
Proof.
  intros H%topologicalSort_thrown. destruct e as [path|d|]; simpl; [| |done].
  - destruct H as (stack & m & -> & Hm & Hnd & Hch & _).
    apply list_elem_of_split in Hm as (pre & mid & ->).
    exists pre, m, mid. rewrite <- app_assoc. split; [done|]. split; [done|].
    rewrite <- app_assoc in Hch. by apply chain_app_r in Hch.
  - destruct H as (Hd & k & Hk & Hreach). split; [|done].
    apply rtc_inv_r in Hreach as [->|(t & _ & Hdep)]; [done | by exists t].
Qed.

Lemma depends_registered g t d : depends g t d → t ∈ keys g.
Proof. intros (td & Hget & _). apply get_is_Some. eauto. Qed.

Lemma dependsT_registered g t d : dependsT g t d → t ∈ keys g.
Proof. intros H. destruct H; by eapply depends_registered. Qed.

Lemma cycle_fails g n : dependsT g n n → ∃ e, topologicalSort g = Thrown e.
Proof.
  intros Hc. destruct (topologicalSort g) as [plan|e] eqn:Hs; [|eauto].
  exfalso. apply (before_irrefl plan n).
  eapply closed_before_tc; [by apply topologicalSort_closed |
    by eapply topologicalSort_NoDup | | done].
  apply (topologicalSort_elem g plan n Hs). by eapply dependsT_registered.
Qed.

Lemma missing_fails g d : missing g d → ∃ e, topologicalSort g = Thrown e.
Proof.
  intros [[t Hdep] Hd]. destruct (topologicalSort g) as [plan|e] eqn:Hs; [|eauto].
  exfalso. apply Hd. apply (topologicalSort_elem g plan d Hs).
  assert (before plan d t) as [? _]%before_elem; [|done].
  eapply closed_before; [by apply topologicalSort_closed |
    by eapply topologicalSort_NoDup | | done].
  apply (topologicalSort_elem g plan t Hs). by eapply depends_registered.
Qed.

(** Plan computation succeeds exactly on the graphs without cycle and
    without missing dependency. *)
Lemma topologicalSort_succeeds g :
  (∃ plan, topologicalSort g = Normal plan) ↔ acyclic g ∧ ∀ d, ¬ missing g d.
Proof.
  split.
  - intros [plan Hs]. split.
    + intros n [e He]%cycle_fails. congruence.
    + intros d [e He]%missing_fails. congruence.
  - intros [Hac Hmiss]. destruct (topologicalSort g) as [plan|e] eqn:Hs; [eauto|].
    apply topologicalSort_failure in Hs. destruct e as [path|d|]; simpl in Hs.
    + apply cyclePath_cycle in Hs as [m Hm]. by destruct (Hac m).
    + by destruct (Hmiss d).
    + done.
Qed.

(** A failed plan ends both entry points before any action has run. *)
Lemma execute_plan_error g (w : World) e :
  topologicalSort g = Thrown e → execute g w = (w, [], Thrown (PlanError e)).
Proof. unfold execute. by intros ->. Qed.

Lemma executeParallel_plan_error g (w : World) e res :
  topologicalSort g = Thrown e → executeParallel g w res →
  res = (w, [], Thrown (PlanError e)).
Proof. intros Hs Hp. destruct Hp; congruence. Qed.




(** ** Sequential execution *)

Lemma executeLoop_app g pre post (w : World) tr w1 tr1 :
  executeLoop g pre w tr = (w1, tr1, Normal ()) →
  executeLoop g (pre ++ post) w tr = executeLoop g post w1 tr1.
Proof.
  revert w tr. induction pre as [|n pre IH]; intros w tr; simpl.
  - by intros [= -> ->].
  - destruct (get n g) as [td|]; [|done].
    destruct (awaitCall (task td) w) as [w2 [|e]]; [apply IH | done].
Qed.

Lemma executeLoop_ok g names (w : World) tr w1 tr1 :
  executeLoop g names w tr = (w1, tr1, Normal ()) → tr1 = tr ++ ranInOrder names.
Proof.
  revert w tr. induction names as [|n names IH]; intros w tr; simpl.
  - intros [= _ <-]. by rewrite app_nil_r.
  - destruct (get n g) as [td|]; [|done].
    destruct (awaitCall (task td) w) as [w2 [|e]]; [|done].
    intros ->%IH. by rewrite <- app_assoc.
Qed.

Lemma ranInOrder_Invoked names n : Invoked n ∈ ranInOrder (Err:=Err) names → n ∈ names.
Proof.
  induction names as [|x names IH]; simpl; [by intros ?%elem_of_nil|].
  rewrite !elem_of_cons. intros [[= ->]|[?|?]]; [by left | done | right; auto].
Qed.

End Graph.

(** ** Concurrent execution: one job *)

Section Parallel.
Context {World Err : Type}.
Implicit Types (g : list (TaskDescriptor World Err)).
Implicit Types (ps : ParState World Err) (u : Unit World Err).
Implicit Types (us : list (Unit World Err)) (deps : list (option nat)).

Lemma omap_ext_in {A B} (f1 f2 : A → option B) (l : list A) :
  (∀ x, x ∈ l → f1 x = f2 x) → omap f1 l = omap f2 l.
Proof.
  induction l as [|x l IH]; intros Hf; [done|]. csimpl.
  rewrite (Hf x) by left. rewrite IH; [done|]. intros y Hy. apply Hf. by right.
Qed.

Lemma promiseState_Some us j r :
  promiseState us (Some j) = Some r ↔ ∃ u, us !! j = Some u ∧ unitState u = Settled r.
Proof.
  unfold promiseState. destruct (us !! j) as [u|]; simpl.
  - destruct (unitState u) as [|a|r'] eqn:Hst;
      (split; [intros [= <-]; eauto | intros (u' & [= <-] & ?); congruence]).
  - split; [done | by intros (u' & ? & _)].
Qed.

Lemma rejection_Some us j e :
  rejection us j = Some e ↔ ∃ u, us !! j = Some u ∧ unitState u = Settled (Rejected e).
Proof.
  unfold rejection. rewrite <- promiseState_Some.
  destruct (promiseState us (Some j)) as [[|e']|]; split; congruence.
Qed.

Lemma firstRejection_Some ps deps e :
  firstRejection ps deps = Some e →
  ∃ j, j ∈ settleOrder ps ∧ Some j ∈ deps ∧ rejection (units ps) j = Some e.
Proof.
  unfold firstRejection. intros H%head_Some_elem_of.
  apply list_elem_of_omap in H as (j & Hj & Hf).
  case_bool_decide; [|done]. eauto.
Qed.

Lemma firstRejection_None ps deps j e :
  firstRejection ps deps = None → j ∈ settleOrder ps → Some j ∈ deps →
  rejection (units ps) j = Some e → False.
Proof.
  unfold firstRejection. intros Hnone Hj Hdep Hrej.
  apply head_None in Hnone.
  assert (e ∈ omap (λ i, if bool_decide (Some i ∈ deps)
                          then rejection (units ps) i else None) (settleOrder ps)) as Hin.
  { apply list_elem_of_omap. exists j. by rewrite bool_decide_eq_true_2. }
  rewrite Hnone in Hin. by apply elem_of_nil in Hin.
Qed.

Lemma promiseAll_Rejected ps deps e :
  promiseAll ps deps = Some (Rejected e) ↔ firstRejection ps deps = Some e.
Proof.
  unfold promiseAll. destruct (firstRejection ps deps).
  - naive_solver.
  - destruct (forallb _ _); naive_solver.
Qed.

Lemma promiseAll_Fulfilled ps deps :
  promiseAll ps deps = Some Fulfilled ↔
  firstRejection ps deps = None ∧ ∀ p, p ∈ deps → isFulfilled (units ps) p = true.
Proof.
  unfold promiseAll. destruct (firstRejection ps deps).
  - naive_solver.
  - destruct (forallb _ _) eqn:Hall.
    + rewrite forallb_forall in Hall. split; [|done]. intros _. split; [done|].
      intros p Hp. apply Hall. by apply list_elem_of_In.
    + split; [done|]. intros [_ H]. exfalso.
      assert (forallb (isFulfilled (units ps)) deps = true) as Htrue; [|congruence].
      apply forallb_forall. intros p Hp. apply H. by apply list_elem_of_In.
Qed.

Lemma isFulfilled_Some us j :
  isFulfilled us (Some j) = true ↔ ∃ u, us !! j = Some u ∧ unitState u = Settled Fulfilled.
Proof.
  unfold isFulfilled. rewrite <- promiseState_Some.
  destruct (promiseState us (Some j)) as [[|e']|]; split; congruence.
Qed.

Section Update.
Context ps i u st' ps' (Hup : Update ps i u st' ps') (HI : ParInv ps).

Lemma up_lt : i < length (units ps).
Proof. eapply lookup_lt_Some, Hup. Qed.

Lemma up_lookup_eq : units ps' !! i = Some (setState u st').
Proof. rewrite (up_units _ _ _ _ _ Hup). apply list_lookup_insert_eq, up_lt. Qed.

Lemma up_lookup_ne j : j ≠ i → units ps' !! j = units ps !! j.
Proof. intros Hj. rewrite (up_units _ _ _ _ _ Hup). by apply list_lookup_insert_ne. Qed.

Lemma up_not_settled r : ¬ settledAs ps i r.
Proof.
  intros (u' & Hl & Hst). rewrite (up_lookup _ _ _ _ _ Hup) in Hl.
  injection Hl as <-. pose proof (up_pending _ _ _ _ _ Hup) as Hp.
  by rewrite Hst in Hp.
Qed.

Lemma up_fresh : i ∉ settleOrder ps.
Proof. intros [r Hr]%(pi_order _ HI). by apply up_not_settled in Hr. Qed.

Lemma up_names : unitName <$> units ps' = unitName <$> units ps.
Proof.
  rewrite (up_units _ _ _ _ _ Hup), list_fmap_insert. simpl.
  apply list_insert_id. rewrite list_lookup_fmap, (up_lookup _ _ _ _ _ Hup). done.
Qed.

Lemma up_frame : frame <$> units ps' = frame <$> units ps.
Proof.
  rewrite (up_units _ _ _ _ _ Hup), list_fmap_insert.
  apply list_insert_id. rewrite list_lookup_fmap, (up_lookup _ _ _ _ _ Hup). done.
Qed.

Lemma up_name_ne j uj : j ≠ i → units ps !! j = Some uj → unitName uj ≠ unitName u.
Proof.
  intros Hj Hl Heq. apply Hj.
  eapply (NoDup_lookup _ _ _ _ (pi_names _ HI)).
  - rewrite list_lookup_fmap, Hl. done.
  - rewrite list_lookup_fmap, (up_lookup _ _ _ _ _ Hup). simpl. by rewrite Heq.
Qed.

Lemma up_settled_old j r : settledAs ps j r → settledAs ps' j r.
Proof.
  intros Hs. assert (j ≠ i) as Hj by (intros ->; by apply up_not_settled in Hs).
  destruct Hs as (uj & Hl & Hst). exists uj. by rewrite up_lookup_ne.
Qed.

Lemma up_rejection_old j : j ∈ settleOrder ps → rejection (units ps') j = rejection (units ps) j.
Proof.
  intros Hj. assert (j ≠ i) as Hne by (intros ->; by apply up_fresh).
  unfold rejection, promiseState. by rewrite up_lookup_ne.
Qed.

Lemma up_order_app : ∃ new, settleOrder ps' = settleOrder ps ++ new ∧ ∀ j, j ∈ new → j = i.
Proof.
  rewrite (up_order _ _ _ _ _ Hup). destruct (isSettled st').
  - exists [i]. split; [done|]. by intros j ->%list_elem_of_singleton.
  - exists []. rewrite app_nil_r. split; [done|]. by intros j ?%elem_of_nil.
Qed.

Lemma up_firstRejection deps e :
  firstRejection ps deps = Some e → firstRejection ps' deps = Some e.
Proof.
  unfold firstRejection. destruct up_order_app as (new & -> & _).
  rewrite omap_app. intros H.
  rewrite (omap_ext_in _ (λ i0, if bool_decide (Some i0 ∈ deps)
                                 then rejection (units ps) i0 else None) (settleOrder ps)).
  - destruct (omap _ (settleOrder ps)); [done | by simpl in *].
  - intros j Hj. by rewrite up_rejection_old.
Qed.

Lemma up_fulfilled_old p : isFulfilled (units ps) p = true → isFulfilled (units ps') p = true.
Proof.
  destruct p as [j|]; [|done]. rewrite !isFulfilled_Some.
  intros (uj & Hl & Hst). by apply (up_settled_old j Fulfilled); exists uj.
Qed.

Lemma up_promiseAll deps :
  promiseAll ps deps = Some Fulfilled → promiseAll ps' deps = Some Fulfilled.
Proof.
  rewrite !promiseAll_Fulfilled. intros [Hnone Hall]. split.
  - unfold firstRejection in *. destruct up_order_app as (new & -> & Hnew).
    rewrite omap_app.
    rewrite (omap_ext_in _ (λ i0, if bool_decide (Some i0 ∈ deps)
                                   then rejection (units ps) i0 else None) (settleOrder ps))
      by (intros j Hj; by rewrite up_rejection_old).
    apply head_None in Hnone. rewrite Hnone. simpl.
    apply head_None. destruct (omap _ new) as [|e l] eqn:Hom; [done|]. exfalso.
    assert (e ∈ e :: l) as Hin by left. rewrite <- Hom in Hin.
    apply list_elem_of_omap in Hin as (j & ->%Hnew & Hf).
    case_bool_decide as Hdep; [|done].
    apply Hall, isFulfilled_Some in Hdep. by apply up_not_settled in Hdep.
  - intros p Hp. by apply up_fulfilled_old, Hall.
Qed.

Lemma up_trace_old ev : ev ∈ trace ps → ev ∈ trace ps'.
Proof.
  destruct (up_trace _ _ _ _ _ Hup) as (evs & -> & _). intros ?.
  apply elem_of_app. by left.
Qed.

Lemma up_trace_new ev :
  ev ∈ trace ps' →
  ev ∈ trace ps ∨ ev = Invoked (unitName u) ∨
  ∃ r, ev = Completed (unitName u) r ∧ st' = Settled r.
Proof.
  destruct (up_trace _ _ _ _ _ Hup) as (evs & -> & Hevs).
  intros [?|?%Hevs]%elem_of_app; [by left | by right].
Qed.

Lemma up_unitInv_other j uj :
  j ≠ i → units ps !! j = Some uj → unitInv ps uj → unitInv ps' uj.
Proof.
  intros Hj Hl. pose proof (up_name_ne j uj Hj Hl) as Hne.
  assert (Invoked (unitName uj) ∉ trace ps → Invoked (unitName uj) ∉ trace ps') as Hinv.
  { intros Hold [?|[[= ?]|(r & [=] & _)]]%up_trace_new; done. }
  unfold unitInv. destruct (unitState uj) as [|a|r].
  - done.
  - intros (H1 & H2 & H3 & H4). split; [by apply up_trace_old|].
    split; [|split; [by apply up_promiseAll | done]].
    intros r [?|[[=]|(r' & [= ? _] & _)]]%up_trace_new; [by eapply H2 | done].
  - intros [(H1 & H2 & H3 & H4)|(H1 & e & -> & H2)]; [left | right].
    + split; [by apply up_trace_old|]. split; [by apply up_trace_old|].
      split; [by apply up_promiseAll | done].
    + split; [by apply Hinv|]. exists e. split; [done | by apply up_firstRejection].
Qed.

Lemma up_ParInv : unitInv ps' (setState u st') → ParInv ps'.
Proof.
  intros Hu. split.
  - rewrite up_names. apply HI.
  - intros j uj k Hl Hk. destruct (decide (j = i)) as [->|Hj].
    + rewrite up_lookup_eq in Hl. injection Hl as <-. simpl in Hk.
      eapply (pi_back _ HI); [apply Hup | done].
    + rewrite up_lookup_ne in Hl by done. by eapply (pi_back _ HI).
  - rewrite (up_order _ _ _ _ _ Hup). destruct (isSettled st'); [|apply HI].
    apply NoDup_app. split; [apply HI|]. split; [|apply NoDup_singleton].
    intros j Hj ->%list_elem_of_singleton. by apply up_fresh.
  - intros j. rewrite (up_order _ _ _ _ _ Hup). split.
    + destruct (isSettled st') eqn:Hst.
      * intros [Hj | ->%list_elem_of_singleton]%elem_of_app.
        -- apply (pi_order _ HI) in Hj as [r Hr]. exists r. by apply up_settled_old.
        -- pose proof up_lookup_eq as Hleq.
           destruct st' as [| |r]; try done. by exists r, (setState u (Settled r)).
      * intros Hj. apply (pi_order _ HI) in Hj as [r Hr]. exists r. by apply up_settled_old.
    + intros (r & uj & Hl & Hst). destruct (decide (j = i)) as [->|Hj].
      * rewrite up_lookup_eq in Hl. injection Hl as <-. simpl in Hst. rewrite Hst. simpl.
        apply elem_of_app. right. left.
      * rewrite up_lookup_ne in Hl by done.
        assert (j ∈ settleOrder ps) by (apply (pi_order _ HI); by exists r, uj).
        destruct (isSettled st'); [apply elem_of_app; by left | done].
  - intros j uj Hl. destruct (decide (j = i)) as [->|Hj].
    + rewrite up_lookup_eq in Hl. by injection Hl as <-.
    + rewrite up_lookup_ne in Hl by done.
      apply up_unitInv_other with j; [done..|]. by eapply (pi_units _ HI).
  - pose proof up_lookup_eq as Hleq.
    intros n r [Hold|[[=]|(r' & [= -> ->] & ->)]]%up_trace_new.
    + apply (pi_completed _ HI) in Hold as (j & uj & Hl & Hn & Hst).
      assert (j ≠ i) by (intros ->; apply (up_not_settled r); by exists uj).
      exists j, uj. by rewrite up_lookup_ne.
    + by exists i, (setState u (Settled r')).
  - intros n Hn. rewrite up_names.
    apply up_trace_new in Hn as [Hold|[[= ->]|(r' & [=] & _)]].
    + by apply (pi_invoked _ HI).
    + apply list_elem_of_fmap. exists u. split; [done|].
      eapply list_elem_of_lookup_2, Hup.
Qed.

End Update.

Lemma residual_resume (a : Async World Err) k w :
  Residual a (Suspend k) → Residual a (k w).2.
Proof.
  intros H. remember (Suspend k) as b eqn:Hb. induction H as [a|k' w' a' H IH].
  - subst a. apply (residual_step k w), residual_refl.
  - apply (residual_step k' w'). by apply IH.
Qed.

(** Every job is an [Update] that keeps the invariant. *)
Lemma fire_update i ps ps' :
  fire i ps = Some ps' →
  ∃ u st', Update ps i u st' ps' ∧ (ParInv ps → unitInv ps' (setState u st')).
Proof.
  unfold fire. destruct (units ps !! i) as [u|] eqn:Hl; [|done].
  destruct (unitState u) as [|[r|k]|r] eqn:Hst; [| | |done].
  - destruct (promiseAll ps (dependencyPromises u)) as [[|e]|] eqn:Hall; [| |done].
    + destruct (unitTask u (world ps)) as [w' a] eqn:Ht. intros [= <-].
      exists u, (AwaitingTask a).
      assert (Update ps i u (AwaitingTask a)
                {| world := w'; units := <[i:=setState u (AwaitingTask a)]> (units ps);
                   settleOrder := settleOrder ps;
                   trace := trace ps ++ [Invoked (unitName u)] |}) as Hup.
      { split; simpl; [done | by rewrite Hst | done | done |].
        exists [Invoked (unitName u)]. split; [done|].
        intros ev ->%list_elem_of_singleton. by left. }
      split; [done|]. intros HI. unfold unitInv. simpl.
      split; [apply elem_of_app; right; left|]. split; [|split].
      * intros r [Hin|Hin]%elem_of_app.
        -- apply (pi_completed _ HI) in Hin as (j & uj & Hlj & Hn & Hstj).
           assert (j = i) as ->.
           { eapply (NoDup_lookup _ _ _ _ (pi_names _ HI));
               rewrite list_lookup_fmap; [by rewrite Hlj | by rewrite Hl, Hn]. }
           congruence.
        -- by apply list_elem_of_singleton in Hin.
      * by apply (up_promiseAll _ _ _ _ _ Hup HI).
      * exists (world ps). rewrite Ht. apply residual_refl.
    + intros [= <-]. exists u, (Settled (Rejected e)).
      assert (Update ps i u (Settled (Rejected e))
                {| world := world ps;
                   units := <[i:=setState u (Settled (Rejected e))]> (units ps);
                   settleOrder := settleOrder ps ++ [i]; trace := trace ps |}) as Hup.
      { split; simpl; [done | by rewrite Hst | done | done |].
        exists []. split; [by rewrite app_nil_r|]. by intros ev ?%elem_of_nil. }
      split; [done|]. intros HI. unfold unitInv. simpl. right.
      pose proof (pi_units _ HI i u Hl) as Hu. unfold unitInv in Hu. rewrite Hst in Hu.
      split; [done|]. exists e. split; [done|].
      apply (up_firstRejection _ _ _ _ _ Hup HI). by apply promiseAll_Rejected.
  - intros [= <-]. exists u, (Settled r).
    assert (Update ps i u (Settled r)
              {| world := world ps; units := <[i:=setState u (Settled r)]> (units ps);
                 settleOrder := settleOrder ps ++ [i];
                 trace := trace ps ++ [Completed (unitName u) r] |}) as Hup.
    { split; simpl; [done | by rewrite Hst | done | done |].
      exists [Completed (unitName u) r]. split; [done|].
      intros ev ->%list_elem_of_singleton. right. by exists r. }
    split; [done|]. intros HI. unfold unitInv. simpl. left.
    pose proof (pi_units _ HI i u Hl) as Hu. unfold unitInv in Hu. rewrite Hst in Hu.
    destruct Hu as (H1 & H2 & H3 & H4).
    split; [apply elem_of_app; by left|]. split; [apply elem_of_app; right; left|].
    split; [by apply (up_promiseAll _ _ _ _ _ Hup HI) | done].
  - destruct (k (world ps)) as [w' a'] eqn:Hk. intros [= <-].
    exists u, (AwaitingTask a').
    assert (Update ps i u (AwaitingTask a')
              {| world := w'; units := <[i:=setState u (AwaitingTask a')]> (units ps);
                 settleOrder := settleOrder ps; trace := trace ps |}) as Hup.
    { split; simpl; [done | by rewrite Hst | done | done |].
      exists []. split; [by rewrite app_nil_r|]. by intros ev ?%elem_of_nil. }
    split; [done|]. intros HI. unfold unitInv. simpl.
    pose proof (pi_units _ HI i u Hl) as Hu. unfold unitInv in Hu. rewrite Hst in Hu.
    destruct Hu as (H1 & H2 & H3 & w0 & H4).
    split; [done|]. split; [done|].
    split; [by apply (up_promiseAll _ _ _ _ _ Hup HI)|].
    exists w0. apply (residual_resume _ _ (world ps)) in H4. by rewrite Hk in H4.
Qed.

Lemma fire_inv i ps ps' : ParInv ps → fire i ps = Some ps' → ParInv ps'.
Proof.
  intros HI (u & st' & Hup & Hu)%fire_update. eapply up_ParInv; eauto.
Qed.

Lemma fire_frame i ps ps' : fire i ps = Some ps' → frame <$> units ps' = frame <$> units ps.
Proof. intros (u & st' & Hup & _)%fire_update. by eapply up_frame. Qed.

Lemma fire_settled i ps ps' j r : fire i ps = Some ps' → settledAs ps j r → settledAs ps' j r.
Proof. intros (u & st' & Hup & _)%fire_update. by eapply up_settled_old. Qed.

Lemma fire_trace i ps ps' ev : fire i ps = Some ps' → ev ∈ trace ps → ev ∈ trace ps'.
Proof. intros (u & st' & Hup & _)%fire_update. by eapply up_trace_old. Qed.

(** ** Concurrent execution: the units *)

Lemma JsMap_set_fresh {V} k (v : V) m : k ∉ fst <$> m → JsMap.set k v m = m ++ [(k, v)].
Proof.
  induction m as [|[k' v'] m IH]; csimpl; [done|].
  rewrite not_elem_of_cons. intros [Hne Hk].
  rewrite bool_decide_eq_false_2 by done. by rewrite IH.
Qed.

Lemma JsMap_get_snoc {V} d k (v : V) m :
  JsMap.get d (m ++ [(k, v)]) =
  match JsMap.get d m with
  | Some x => Some x
  | None => if bool_decide (k = d) then Some v else None
  end.
Proof.
  unfold JsMap.get. induction m as [|[k' v'] m IH]; simpl.
  - by case_bool_decide.
  - destruct (bool_decide (k' = d)); simpl; [done | apply IH].
Qed.

Lemma indexOf_snoc d l n :
  indexOf d (l ++ [n]) =
  match indexOf d l with
  | Some x => Some x
  | None => if bool_decide (n = d) then Some (length l) else None
  end.
Proof.
  destruct (indexOf d l) as [x|] eqn:Hd.
  - rewrite indexOf_app_l, Hd; [done|]. apply indexOf_is_Some. eauto.
  - rewrite indexOf_app_r by by apply indexOf_None. simpl.
    case_bool_decide; simpl; [f_equal; lia | done].
Qed.

Lemma Spawned_nil g : Spawned g [] [] [].
Proof.
  split; try done.
  - by intros u ?%elem_of_nil.
Qed.

Lemma spawn_spec g rest : ∀ pre us tp us' tp',
  NoDup (pre ++ rest) → Spawned g pre us tp →
  spawn g rest us tp = Normal (us', tp') →
  Spawned g (pre ++ rest) us' tp'.
Proof.
  induction rest as [|n rest IH]; intros pre us tp us' tp' Hnd Hsp; simpl.
  - intros [= <- <-]. by rewrite app_nil_r.
  - destruct (get n g) as [td|] eqn:Hget; [|done]. intros Hspawn.
    replace (pre ++ n :: rest) with ((pre ++ [n]) ++ rest) in * by by rewrite <- app_assoc.
    eapply IH; [done| |done].
    assert (n ∉ pre) as Hn.
    { apply NoDup_app in Hnd as [Hnd _]. apply NoDup_app in Hnd as (_ & Hd & _).
      intros Hin. apply (Hd n Hin). left. }
    assert (length us = length pre) as Hlen.
    { rewrite <- (sp_names _ _ _ _ Hsp). by rewrite length_fmap. }
    destruct Hsp as [Hnames Hfresh Hunits Hkeys Hgets Hvals]. split.
    + rewrite fmap_app. simpl. by rewrite Hnames.
    + intros u [Hu | ->%list_elem_of_singleton]%elem_of_app; [by apply Hfresh | done].
    + intros i u Hl. destruct (decide (i < length us)) as [Hi|Hi].
      * rewrite lookup_app_l in Hl by done.
        destruct (Hunits i u Hl) as (td' & ? & ? & ->). exists td'.
        split; [done|]. split; [done|]. rewrite take_app_le by lia. done.
      * assert (i = length us) as ->.
        { apply lookup_lt_Some in Hl. rewrite length_app in Hl. simpl in Hl. lia. }
        rewrite lookup_app_r, Nat.sub_diag in Hl by lia. injection Hl as <-. simpl.
        exists td. split; [done|]. split; [done|].
        rewrite Hlen, take_app_length. apply list_fmap_ext. intros _ d _. apply Hgets.
    + rewrite JsMap_set_fresh by by rewrite Hkeys.
      rewrite fmap_app. simpl. by rewrite Hkeys.
    + intros d. rewrite JsMap_set_fresh by by rewrite Hkeys.
      rewrite JsMap_get_snoc, indexOf_snoc, Hgets, Hlen. done.
    + rewrite JsMap_set_fresh by by rewrite Hkeys.
      unfold JsMap.values in *. rewrite fmap_app, Hvals, length_app. simpl.
      rewrite Nat.add_1_r, seq_S. simpl. by rewrite Hlen.
Qed.

Lemma spawn_total g rest us tp :
  (∀ n, n ∈ rest → n ∈ keys g) → ∃ us' tp', spawn g rest us tp = Normal (us', tp').
Proof.
  revert us tp. induction rest as [|n rest IH]; intros us tp Hreg; simpl; [eauto|].
  destruct (get n g) as [td|] eqn:Hget.
  - apply IH. intros m Hm. apply Hreg. by right.
  - apply get_None in Hget. destruct Hget. apply Hreg. left.
Qed.

(** The units of a successful plan, and the state they start in. *)
Lemma topologicalSort_spawn g plan :
  topologicalSort g = Normal plan →
  ∃ us tp, spawn g plan [] [] = Normal (us, tp) ∧ Spawned g plan us tp.
Proof.
  intros Hs. destruct (spawn_total g plan [] []) as (us & tp & Hsp).
  { intros n. by apply topologicalSort_elem. }
  exists us, tp. split; [done|].
  apply (spawn_spec g plan [] [] [] us tp); [|apply Spawned_nil|done].
  by eapply topologicalSort_NoDup.
Qed.

Lemma ParInv_init g plan us tp w :
  NoDup plan → Spawned g plan us tp → ParInv (parInit w us).
Proof.
  intros Hnd Hsp. split; simpl.
  - by rewrite (sp_names _ _ _ _ Hsp).
  - intros i u j Hl Hj. destruct (sp_units _ _ _ _ Hsp i u Hl) as (td & _ & _ & Hdeps).
    rewrite Hdeps in Hj. apply list_elem_of_fmap in Hj as (d & Hd & _).
    symmetry in Hd. apply indexOf_lt in Hd. rewrite length_take in Hd. lia.
  - apply NoDup_nil_2.
  - intros i. split; [by intros ?%elem_of_nil|].
    intros (r & u & Hl & Hst). apply list_elem_of_lookup_2 in Hl.
    rewrite (sp_fresh _ _ _ _ Hsp u Hl) in Hst. done.
  - intros i u Hl. apply list_elem_of_lookup_2 in Hl. unfold unitInv.
    rewrite (sp_fresh _ _ _ _ Hsp u Hl). simpl. apply not_elem_of_nil.
  - by intros n r ?%elem_of_nil.
  - by intros n ?%elem_of_nil.
Qed.

Lemma Spawned_frame g plan us tp : Spawned g plan us tp → frame <$> us = us.
Proof.
  intros Hsp. rewrite <- (list_fmap_id us) at 2. apply list_fmap_ext.
  intros i u Hl. apply list_elem_of_lookup_2 in Hl.
  pose proof (sp_fresh _ _ _ _ Hsp u Hl) as Hst. destruct u. simpl in *. by subst.
Qed.

(** ** Concurrent execution: schedules *)

Lemma run_app s1 s2 ps : run (s1 ++ s2) ps = run s1 ps ≫= run s2.
Proof.
  revert ps. induction s1 as [|i s1 IH]; intros ps; simpl; [done|].
  destruct (fire i ps); [apply IH | done].
Qed.

Lemma run_inv schedule ps ps' : ParInv ps → run schedule ps = Some ps' → ParInv ps'.
Proof.
  revert ps. induction schedule as [|i sch IH]; intros ps HI; simpl.
  - by intros [= <-].
  - destruct (fire i ps) as [ps1|] eqn:Hf; [|done]. apply IH. by eapply fire_inv.
Qed.

Lemma run_frame schedule ps ps' :
  run schedule ps = Some ps' → frame <$> units ps' = frame <$> units ps.
Proof.
  revert ps. induction schedule as [|i sch IH]; intros ps; simpl.
  - by intros [= <-].
  - destruct (fire i ps) as [ps1|] eqn:Hf; [|done]. intros ->%IH. by eapply fire_frame.
Qed.

Lemma run_settled schedule ps ps' j r :
  run schedule ps = Some ps' → settledAs ps j r → settledAs ps' j r.
Proof.
  revert ps. induction schedule as [|i sch IH]; intros ps; simpl.
  - by intros [= <-].
  - destruct (fire i ps) as [ps1|] eqn:Hf; [|done]. intros Hr Hs.
    eapply IH; [done|]. by eapply fire_settled.
Qed.

Lemma Async_resume_ind (P : Async World Err → Prop) :
  (∀ r, P (Settle r)) →
  (∀ k, (∀ w, P (k w).2) → P (Suspend k)) →
  ∀ a, P a.
Proof.
  intros HS HK. fix IH 1. intros [r|k]; [apply HS | apply HK; intros w; apply IH].
Qed.

Lemma indexOf_lookup l d j : indexOf d l = Some j → l !! j = Some d.
Proof.
  revert j. induction l as [|y l IH]; intros j; simpl; [done|].
  case_bool_decide as Hy.
  - intros [= <-]. by subst.
  - destruct (indexOf d l) as [j'|]; simpl; [|done]. intros [= <-]. by apply IH.
Qed.

Lemma Reachable_Running g w ps :
  Reachable g w ps → ∃ plan, topologicalSort g = Normal plan ∧ Running g plan ps.
Proof.
  intros (plan & us & tp & sch & Hs & Hsp & Hrun). exists plan. split; [done|].
  destruct (topologicalSort_spawn g plan Hs) as (us' & tp' & Hsp' & Hspawned).
  assert (us' = us ∧ tp' = tp) as [-> ->] by (split; congruence).
  pose proof (topologicalSort_NoDup g plan Hs) as Hnd.
  pose proof (run_frame _ _ _ Hrun) as Hfr. simpl in Hfr.
  rewrite (Spawned_frame _ _ _ _ Hspawned) in Hfr.
  split.
  - eapply run_inv; [|done]. by eapply ParInv_init.
  - done.
  - by apply topologicalSort_closed.
  - intros n. by apply topologicalSort_elem.
  - rewrite <- (sp_names _ _ _ _ Hspawned), <- Hfr, <- list_fmap_compose. done.
  - intros i u Hl.
    assert (us !! i = Some (frame u)) as Hl0.
    { rewrite <- Hfr, list_lookup_fmap, Hl. done. }
    by destruct (sp_units _ _ _ _ Hspawned i _ Hl0) as (td & ? & ? & ?); exists td.
Qed.

Section Running.
Context g plan ps (HR : Running g plan ps).

Lemma rn_lookup i n :
  plan !! i = Some n ↔ ∃ u, units ps !! i = Some u ∧ unitName u = n.
Proof.
  rewrite <- (rn_names _ _ _ HR), list_lookup_fmap.
  destruct (units ps !! i) as [u|]; simpl; naive_solver.
Qed.

Lemma rn_unique i j u u' :
  units ps !! i = Some u → units ps !! j = Some u' → unitName u = unitName u' → i = j.
Proof.
  intros Hi Hj Hn.
  eapply (NoDup_lookup _ _ _ _ (pi_names _ (rn_inv _ _ _ HR)));
    rewrite list_lookup_fmap; [by rewrite Hi | by rewrite Hj, Hn].
Qed.

(** The promise held for a declared dependency is that of its unit. *)
Lemma rn_dependency i u d :
  units ps !! i = Some u → depends g (unitName u) d →
  ∃ j uj, Some j ∈ dependencyPromises u ∧ units ps !! j = Some uj ∧ unitName uj = d.
Proof.
  intros Hl (td & Hget & Hd).
  destruct (rn_units _ _ _ HR i u Hl) as (td' & Hget' & _ & Hdeps).
  assert (td' = td) as -> by congruence.
  assert (plan !! i = Some (unitName u)) as Hp by (apply rn_lookup; eauto).
  apply list_elem_of_split_length in Hp as (l1 & l2 & Hplan & Hlen).
  destruct (rn_closed _ _ _ HR l1 (unitName u) l2 Hplan) as (td' & Hget'' & Hbefore).
  assert (td' = td) as -> by congruence.
  assert (take i plan = l1) as Htake by (rewrite Hplan, Hlen; apply take_app_length).
  destruct (proj2 (indexOf_is_Some d l1) (Hbefore d Hd)) as [j Hj].
  assert (plan !! j = Some d) as Hpj.
  { rewrite Hplan. apply lookup_app_l_Some. by apply indexOf_lookup. }
  apply rn_lookup in Hpj as (uj & Hlj & Hnj). exists j, uj. split; [|done].
  rewrite Hdeps, Htake. apply list_elem_of_fmap. by exists d.
Qed.

Lemma rn_dependency_inv i u j :
  units ps !! i = Some u → Some j ∈ dependencyPromises u →
  ∃ uj, units ps !! j = Some uj ∧ depends g (unitName u) (unitName uj).
Proof.
  intros Hl Hj. destruct (rn_units _ _ _ HR i u Hl) as (td & Hget & _ & Hdeps).
  rewrite Hdeps in Hj. apply list_elem_of_fmap in Hj as (d & Hd & Hin).
  symmetry in Hd. apply indexOf_lookup in Hd. apply lookup_take_Some in Hd as [Hd _].
  apply rn_lookup in Hd as (uj & Hlj & <-). exists uj. split; [done|]. by exists td.
Qed.

(** Once a dependency of [t] has rejected, the wait of [t] has rejected
    too, with the reason of the first dependency to reject, and the action
    of [t] has not been and will not be called. *)
Lemma rn_blocked t d e :
  depends g t d → unitSettled ps d (Rejected e) →
  ∃ i u e', units ps !! i = Some u ∧ unitName u = t ∧
    promiseAll ps (dependencyPromises u) = Some (Rejected e') ∧
    (unitState u = AwaitingDeps ∨ unitState u = Settled (Rejected e')) ∧
    (Invoked t ∉ trace ps) ∧
    ∃ d', depends g t d' ∧ unitSettled ps d' (Rejected e').
Proof.
  intros Hdep (j & uj & Hlj & Hnj & Hstj).
  pose proof (rn_inv _ _ _ HR) as HI.
  assert (t ∈ plan) as Ht by (eapply rn_complete, depends_registered; done).
  apply list_elem_of_lookup in Ht as [i Hi].
  apply rn_lookup in Hi as (u & Hl & Hn). subst t.
  destruct (rn_dependency i u d Hl Hdep) as (j' & uj' & Hj' & Hlj' & Hnj').
  assert (j' = j) as -> by (eapply rn_unique; [done..|congruence]).
  assert (j ∈ settleOrder ps) as Hjo.
  { apply (pi_order _ HI). by exists (Rejected e), uj. }
  assert (rejection (units ps) j = Some e) as Hrej.
  { apply rejection_Some. by exists uj. }
  destruct (firstRejection ps (dependencyPromises u)) as [e'|] eqn:Hfirst.
  2:{ exfalso. by eapply firstRejection_None. }
  exists i, u, e'. split; [done|]. split; [done|].
  split; [by apply promiseAll_Rejected|].
  assert (promiseAll ps (dependencyPromises u) ≠ Some Fulfilled) as Hnf.
  { rewrite promiseAll_Fulfilled. intros [? _]. congruence. }
  pose proof (pi_units _ HI i u Hl) as Hu. unfold unitInv in Hu.
  assert ((unitState u = AwaitingDeps ∨ unitState u = Settled (Rejected e')) ∧
          Invoked (unitName u) ∉ trace ps) as [? ?].
  { destruct (unitState u) as [|a|r].
    - split; [by left | done].
    - by destruct Hu as (_ & _ & ? & _).
    - destruct Hu as [(_ & _ & ? & _)|(? & e'' & -> & ?)]; [done|].
      split; [right; congruence | done]. }
  split; [done|]. split; [done|].
  apply firstRejection_Some in Hfirst as (k & _ & Hk & Hrk).
  destruct (rn_dependency_inv i u k Hl Hk) as (uk & Hlk & Hdk).
  exists (unitName uk). split; [done|].
  apply rejection_Some in Hrk as (uk' & Hlk' & Hstk).
  assert (uk' = uk) as -> by congruence. by exists k, uk.
Qed.

(** A unit whose dependencies have all settled can be run until it
    settles. *)
Lemma run_finish (a : Async World Err) : ∀ ps0 i u,
  units ps0 !! i = Some u → unitState u = AwaitingTask a →
  ∃ sch ps1 r, run sch ps0 = Some ps1 ∧ settledAs ps1 i r.
Proof.
  induction a as [r|k IH] using Async_resume_ind; intros ps0 i u Hl Hst.
  - eexists [i], _, r. simpl. unfold fire. rewrite Hl, Hst. split; [done|].
    exists (setState u (Settled r)). simpl. split; [|done].
    by apply list_lookup_insert_eq, (lookup_lt_Some _ _ _ Hl).
  - destruct (k (world ps0)) as [w' a'] eqn:Hk.
    specialize (IH (world ps0)). rewrite Hk in IH. simpl in IH.
    edestruct (IH {| world := w'; units := <[i:=setState u (AwaitingTask a')]> (units ps0);
                     settleOrder := settleOrder ps0; trace := trace ps0 |} i)
      as (sch & ps1 & r & Hrun & Hs).
    { simpl. by apply list_lookup_insert_eq, (lookup_lt_Some _ _ _ Hl). }
    { done. }
    exists (i :: sch), ps1, r. simpl. unfold fire. rewrite Hl, Hst, Hk. done.
Qed.

End Running.

Lemma run_length schedule ps ps' :
  run schedule ps = Some ps' → length (units ps') = length (units ps).
Proof.
  intros H%run_frame. apply (f_equal length) in H. by rewrite !length_fmap in H.
Qed.

Lemma run_settle_unit ps i u :
  ParInv ps → units ps !! i = Some u →
  (∀ j, Some j ∈ dependencyPromises u → ∃ r, settledAs ps j r) →
  ∃ sch ps1 r, run sch ps = Some ps1 ∧ settledAs ps1 i r.
Proof.
  intros HI Hl Hdeps. destruct (unitState u) as [|a|r] eqn:Hst.
  - destruct (promiseAll ps (dependencyPromises u)) as [[|e]|] eqn:Hall.
    + destruct (unitTask u (world ps)) as [w' a] eqn:Ht.
      edestruct (run_finish a
                   {| world := w'; units := <[i:=setState u (AwaitingTask a)]> (units ps);
                      settleOrder := settleOrder ps;
                      trace := trace ps ++ [Invoked (unitName u)] |} i)
        as (sch & ps1 & r & Hrun & Hs).
      { simpl. by apply list_lookup_insert_eq, (lookup_lt_Some _ _ _ Hl). }
      { done. }
      exists (i :: sch), ps1, r. simpl. unfold fire. by rewrite Hl, Hst, Hall, Ht.
    + eexists [i], _, (Rejected e). simpl. unfold fire. rewrite Hl, Hst, Hall.
      split; [done|]. exists (setState u (Settled (Rejected e))). simpl.
      split; [|done]. by apply list_lookup_insert_eq, (lookup_lt_Some _ _ _ Hl).
    + exfalso. unfold promiseAll in Hall.
      destruct (firstRejection ps (dependencyPromises u)) eqn:Hfirst; [done|].
      destruct (forallb _ _) eqn:Hfa; [done|].
      assert (forallb (isFulfilled (units ps)) (dependencyPromises u) = true) as Htrue;
        [|congruence].
      apply forallb_forall. intros [j|] Hp%list_elem_of_In; [|done].
      destruct (Hdeps j Hp) as [[|e] Hr].
      * by apply isFulfilled_Some.
      * exfalso. eapply (firstRejection_None _ _ j e Hfirst); [|done|].
        -- apply (pi_order _ HI). eauto.
        -- by apply rejection_Some.
  - by apply (run_finish a ps i u).
  - exists [], ps, r. split; [done|]. by exists u.
Qed.

Lemma run_drain ps (k : nat) :
  ParInv ps → k ≤ length (units ps) →
  ∃ sch ps1, run sch ps = Some ps1 ∧ ∀ j, j < k → ∃ r, settledAs ps1 j r.
Proof.
  intros HI. induction k as [|k IH]; intros Hk.
  - exists [], ps. split; [done|]. lia.
  - destruct IH as (sch & ps1 & Hrun & Hall); [lia|].
    pose proof (run_inv _ _ _ HI Hrun) as HI1.
    destruct (lookup_lt_is_Some_2 (units ps1) k) as [u Hl].
    { rewrite (run_length _ _ _ Hrun). lia. }
    destruct (run_settle_unit ps1 k u HI1 Hl) as (sch2 & ps2 & r & Hrun2 & Hs).
    { intros j Hj. apply Hall. by eapply (pi_back _ HI1). }
    exists (sch ++ sch2), ps2. split.
    + rewrite run_app, Hrun. done.
    + intros j Hj. destruct (decide (j = k)) as [->|Hne]; [eauto|].
      destruct (Hall j) as [r' Hr']; [lia|]. exists r'. by eapply run_settled.
Qed.

(** Whenever the plan can be computed, the call has a completed run. *)
Lemma executeParallel_exists g (w : World) plan :
  topologicalSort g = Normal plan → ∃ res, executeParallel g w res.
Proof.
  intros Hs. destruct (topologicalSort_spawn g plan Hs) as (us & tp & Hsp & Hspawned).
  assert (ParInv (parInit w us)) as HI.
  { eapply ParInv_init; [|done]. by eapply topologicalSort_NoDup. }
  destruct (run_drain (parInit w us) (length us) HI) as (sch & ps & Hrun & Hall); [done|].
  assert (is_Some (allSettled ps (JsMap.values tp))) as [settled Hsettled].
  { apply mapM_is_Some, Forall_forall. intros i Hi.
    rewrite (sp_values _ _ _ _ Hspawned) in Hi. apply elem_of_seq in Hi.
    destruct (Hall i) as [r Hr].
    - rewrite <- (sp_names _ _ _ _ Hspawned), length_fmap in Hi. lia.
    - exists r. by apply promiseState_Some. }
  eexists. by eapply par_settled.
Qed.

(** The completed runs: every unit has settled, and the completion of the
    call is computed from their settlements in plan order. *)
Lemma executeParallel_final g (w : World) plan w' tr c :
  topologicalSort g = Normal plan → executeParallel g w (w', tr, c) →
  ∃ ps settled,
    Reachable g w ps ∧ Running g plan ps ∧ world ps = w' ∧ trace ps = tr ∧
    c = parOutcome settled ∧ length settled = length plan ∧
    ∀ i r, settled !! i = Some r → settledAs ps i r.
Proof.
  intros Hs Hp. inversion Hp as [e He|order e Ho Hsp|order us tp sch ps settled Ho Hsp Hrun Hset];
    subst; [congruence| |].
  - destruct (topologicalSort_spawn g order Ho) as (us & tp & Hsp' & _). congruence.
  - assert (order = plan) as -> by congruence.
    assert (Reachable g w ps) as HR by by exists plan, us, tp, sch.
    exists ps, settled. split; [done|].
    destruct (Reachable_Running g w ps HR) as (plan' & Hs' & Hrunning).
    assert (plan' = plan) as -> by congruence.
    split; [done|]. split; [done|]. split; [done|]. split; [done|].
    destruct (topologicalSort_spawn g plan Hs) as (us' & tp' & Hsp' & Hspawned).
    assert (tp' = tp) as -> by congruence.
    apply mapM_Some in Hset. rewrite (sp_values _ _ _ _ Hspawned) in Hset.
    split.
    + apply Forall2_length in Hset. by rewrite length_seq in Hset.
    + intros i r Hi. destruct (Forall2_lookup_r _ _ _ _ _ Hset Hi) as (j & Hj & Hps).
      apply lookup_seq in Hj as [-> _]. simpl in Hps. by apply promiseState_Some.
Qed.

(** ** Concurrent execution: settled units *)

Lemma rn_settled_cases g plan ps i u r :
  Running g plan ps → units ps !! i = Some u → unitState u = Settled r →
  (Invoked (unitName u) ∈ trace ps ∧ Completed (unitName u) r ∈ trace ps ∧
   maySettle (unitTask u) r ∧
   ∀ d, depends g (unitName u) d → unitSettled ps d Fulfilled) ∨
  ((Invoked (unitName u) ∉ trace ps) ∧
   ∃ d e, depends g (unitName u) d ∧ unitSettled ps d (Rejected e) ∧ r = Rejected e).
Proof.
  intros HR Hl Hst. pose proof (pi_units _ (rn_inv _ _ _ HR) i u Hl) as Hu.
  unfold unitInv in Hu. rewrite Hst in Hu.
  destruct Hu as [(H1 & H2 & H3 & H4)|(H1 & e & -> & H2)]; [left | right].
  - split; [done|]. split; [done|]. split; [done|]. intros d Hd.
    destruct (rn_dependency _ _ _ HR i u d Hl Hd) as (j & uj & Hj & Hlj & Hnj).
    apply promiseAll_Fulfilled in H3 as [_ H3]. apply H3, isFulfilled_Some in Hj.
    destruct Hj as (uj' & Hlj' & Hstj). assert (uj' = uj) as -> by congruence.
    by exists j, uj.
  - split; [done|]. apply firstRejection_Some in H2 as (j & _ & Hj & Hrej).
    destruct (rn_dependency_inv _ _ _ HR i u j Hl Hj) as (uj & Hlj & Hdj).
    exists (unitName uj), e. split; [done|]. split; [|done].
    apply rejection_Some in Hrej as (uj' & Hlj' & Hstj).
    assert (uj' = uj) as -> by congruence. by exists j, uj.
Qed.




Lemma maySettle_const (r0 r : Settlement Err) :
  maySettle (λ w : World, (w, Settle r0)) r → r = r0.
Proof. intros [w H]. simpl in H. by inversion H. Qed.

(** A task without dependencies whose action can only reject with [e]:
    once its unit has settled, the action has run and rejected with [e]. *)
Lemma rn_root_failed g plan ps n td e r :
  Running g plan ps → get n g = Some td → dependencies td = [] →
  (∀ r', maySettle (task td) r' → r' = Rejected e) →
  unitSettled ps n r →
  r = Rejected e ∧ Completed n (Rejected e) ∈ trace ps.
Proof.
  intros HR Hget Hdeps Hfail (i & u & Hl & Hn & Hst).
  destruct (rn_units _ _ _ HR i u Hl) as (td' & Hget' & Htask & _).
  rewrite Hn in Hget'. assert (td' = td) as -> by congruence.
  destruct (rn_settled_cases g plan ps i u r HR Hl Hst)
    as [(_ & Hc & Hm & _)|(_ & d & _ & (td' & Hget'' & Hd) & _)].
  - rewrite Htask in Hm. apply Hfail in Hm as ->. by rewrite <- Hn.
  - rewrite Hn in Hget''. assert (td' = td) as -> by congruence.
    rewrite Hdeps in Hd. by apply elem_of_nil in Hd.
Qed.

End Parallel.

(** ** The claims on planning and sequential execution *)

Section Claims.
Context {World Err : Type}.
Implicit Types (g : list (TaskDescriptor World Err)) (w : World).

(** C1 (as amended).  When plan computation succeeds, the graph has no
    cycle and no missing dependency, and the plan that [execute] iterates
    and [executeParallel] spawns its units from holds every registered name
    exactly once, with every task after all its transitive dependencies.  Registration order is kept between [u] and a
    later-registered [v] whenever [v] is not a transitive dependency of [u]
    or of a task registered before [u]. *)
Theorem topologicalSort_plan g plan :
  NoDup (keys g) → topologicalSort g = Normal plan →
  (acyclic g ∧ ∀ d, ¬ missing g d) ∧
  plan ≡ₚ keys g ∧ NoDup plan ∧
  (∀ t d, dependsT g t d → before plan d t) ∧
  (∀ u v, before (keys g) u v →
          (∀ r, r = u ∨ before (keys g) r u → ¬ dependsT g r v) →
          before plan u v) ∧
  (∀ w, execute g w = executeLoop g plan w []) ∧
  (∃ us tp, spawn g plan [] [] = Normal (us, tp) ∧ unitName <$> us = plan).
Proof.
  intros Hnd Hs. pose proof (topologicalSort_NoDup g plan Hs) as Hndp.
  split; [|split; [|split; [done|split; [|split; [|split]]]]].
  - apply topologicalSort_succeeds. eauto.
  - apply NoDup_Permutation; [done..|]. intros x. by apply topologicalSort_elem.
  - intros t d Htd. eapply closed_before_tc; [by apply topologicalSort_closed|done| |done].
    apply (topologicalSort_elem g plan t Hs). by eapply dependsT_registered.
  - intros u v. by apply topologicalSort_insertion_order.
  - intros w. unfold execute. by rewrite Hs.
  - destruct (topologicalSort_spawn g plan Hs) as (us & tp & Hsp & Hspawned).
    exists us, tp. split; [done | apply Hspawned].
Qed.

(** C2 (as amended).  A graph with a dependency cycle makes plan
    computation fail, so that [execute] and [executeParallel] throw before
    any action runs.  The error is a cycle error unless the traversal
    reaches a missing dependency first, and it is a cycle error whenever no
    dependency is missing.  The path of a cycle error ends at the repeated
    name, holds it exactly once before, and from that occurrence on each
    name directly depends on the next. *)
Theorem cycle_rejected g w n :
  dependsT g n n →
  ∃ e, topologicalSort g = Thrown e ∧
       match e with
       | CyclicDependencyError path => cyclePath g path
       | TaskNotFound d => missing g d
       | DepthExceeded => False
       end ∧
       ((∀ d, ¬ missing g d) → ∃ path, e = CyclicDependencyError path) ∧
       execute g w = (w, [], Thrown (PlanError e)) ∧
       (∀ res, executeParallel g w res ↔ res = (w, [], Thrown (PlanError e))).
Proof.
  intros [e He]%cycle_fails. exists e. split; [done|].
  pose proof (topologicalSort_failure g e He) as Hf. split; [by destruct e|].
  split; [|split].
  - intros Hmiss. destruct e as [path|d|]; [eauto | by destruct (Hmiss d) | done].
  - by apply execute_plan_error.
  - intros res. split; [by apply executeParallel_plan_error|].
    intros ->. by apply par_plan_error.
Qed.

(** C8 (as amended).  A dependency name that no registered task carries
    makes plan computation fail, so that [execute] and [executeParallel]
    throw before any action runs: a missing dependency is never taken as
    satisfied.  The error is a task-not-found error naming a missing
    dependency unless the traversal reaches a cycle first; without cycles it
    always is one, and it names exactly [d] when [d] is the only missing
    name. *)
Theorem missing_dependency_rejected g w d :
  missing g d →
  ∃ e, topologicalSort g = Thrown e ∧
       match e with
       | CyclicDependencyError path => cyclePath g path
       | TaskNotFound d' => missing g d'
       | DepthExceeded => False
       end ∧
       (acyclic g → ∃ d', e = TaskNotFound d') ∧
       (acyclic g → (∀ d', missing g d' → d' = d) → e = TaskNotFound d) ∧
       execute g w = (w, [], Thrown (PlanError e)) ∧
       (∀ res, executeParallel g w res ↔ res = (w, [], Thrown (PlanError e))).
Proof.
  intros [e He]%missing_fails. exists e. split; [done|].
  pose proof (topologicalSort_failure g e He) as Hf. split; [by destruct e|].
  assert (acyclic g → ∃ d', e = TaskNotFound d') as Hac.
  { intros Hac. destruct e as [path|d'|]; [|eauto|done].
    apply cyclePath_cycle in Hf as [m Hm]. by destruct (Hac m). }
  split; [done|]. split; [|split].
  - intros [d' ->]%Hac Honly. f_equal. by apply Honly.
  - by apply execute_plan_error.
  - intros res. split; [by apply executeParallel_plan_error|].
    intros ->. by apply par_plan_error.
Qed.

(** C3 (as amended).  In [executeParallel], once the unit of a declared
    dependency [d] of [t] has rejected, the wait of [t] on its dependencies
    is rejected too, with the reason [e'] of the first of its dependencies
    to reject; the unit of [t] is still at that wait or has settled as
    rejected with [e']; and the action of [t] has not been invoked. *)
Theorem dependent_short_circuited g w ps t d e :
  Reachable g w ps → depends g t d → unitSettled ps d (Rejected e) →
  ∃ i u e',
    units ps !! i = Some u ∧ unitName u = t ∧
    promiseAll ps (dependencyPromises u) = Some (Rejected e') ∧
    (unitState u = AwaitingDeps ∨ unitState u = Settled (Rejected e')) ∧
    (Invoked t ∉ trace ps) ∧
    ∃ d', depends g t d' ∧ unitSettled ps d' (Rejected e').
Proof.
  intros (plan & _ & HR)%Reachable_Running. by apply (rn_blocked g plan).
Qed.



(** The loop of [execute] over tasks that fulfil in turn. *)
Lemma executeLoop_fulfilInTurn g names w w' :
  fulfilInTurn g names w w' →
  ∀ tr, executeLoop g names w tr = (w', tr ++ ranInOrder names, Normal ()).
Proof.
  induction 1 as [w|n td names w w1 w' Hget Hcall _ IH]; intros tr.
  - cbn. by rewrite app_nil_r.
  - cbn [executeLoop]. rewrite Hget, Hcall, IH. cbn. by rewrite <- app_assoc.
Qed.

(** C4.  [execute] runs the plan one task at a time and stops at the first
    task [b] whose action rejects.  If the actions of the tasks before [b],
    called in plan order, each on the state left by the one before, all
    fulfil, and the action of [b], called on the state they leave, rejects
    with [e], then the call ends in the state that [b] left; the tasks
    before [b] have each been invoked and have completed, in plan order;
    no task after [b] is invoked; and the call throws an aggregate error
    whose message names [b] and whose only cause is [e]. *)
Theorem execute_fails_fast g w pre b post td w1 w2 e :
  topologicalSort g = Normal (pre ++ b :: post) →
  fulfilInTurn g pre w w1 →
  get b g = Some td →
  awaitCall (task td) w1 = (w2, Rejected e) →
  let tr := ranInOrder pre ++ [Invoked b; Completed b (Rejected e)] in
  execute g w = (w2, tr, Thrown (AggregateError [e] (taskFailed b))) ∧
  (∀ n, n ∈ post → Invoked n ∉ tr).
Proof.
  intros Hs Hpre Hget Hb tr.
  pose proof (executeLoop_fulfilInTurn _ _ _ _ Hpre []) as Hloop. split.
  - unfold execute. rewrite Hs. rewrite (executeLoop_app _ _ _ _ _ _ _ Hloop).
    cbn [executeLoop]. by rewrite Hget, Hb.
  - intros n Hn. apply topologicalSort_NoDup in Hs.
    apply NoDup_app in Hs as (_ & Hdisj & [Hb' _]%NoDup_cons).
    subst tr. intros [Hin|Hin]%elem_of_app.
    + apply ranInOrder_Invoked in Hin. apply (Hdisj n Hin). by right.
    + apply elem_of_cons in Hin as [[= ->]|Hin]; [done|].
      by apply list_elem_of_singleton in Hin.
Qed.

End Claims.
(** ** The claims at sample inputs *)

Import Samples.

Ltac decide_true := apply (bool_decide_unpack _); vm_compute; exact I.

Ltac sample_depends td := exists td; split; [reflexivity | decide_true].

(** The dependencies of a registered sample task, spelled out. *)
Ltac sample_deps H :=
  let td := fresh "td" in
  let Hget := fresh "Hget" in
  destruct H as (td & Hget & H); vm_compute in Hget;
  first [ discriminate Hget | injection Hget as <-; simpl in H ].

Lemma dependsT_step {World Err} (g : list (TaskDescriptor World Err)) t d :
  dependsT g t d → ∃ x, depends g t x ∧ (x = d ∨ dependsT g x d).
Proof. intros H. destruct H as [t d H|t x d H Hx]; eauto. Qed.

Lemma topologicalSort_plan_witness :
  NoDup (keys lineGraph) ∧ topologicalSort lineGraph = Normal ["C"; "B"; "A"] ∧
  ["C"; "B"; "A"] ≡ₚ keys lineGraph ∧ before ["C"; "B"; "A"] "C" "A".
Proof.
  assert (NoDup (keys lineGraph)) as H1 by decide_true.
  assert (topologicalSort lineGraph = Normal ["C"; "B"; "A"]) as H2 by reflexivity.
  destruct (topologicalSort_plan lineGraph ["C"; "B"; "A"] H1 H2) as (_ & Hp & _ & Hd & _).
  repeat split; [done..|].
  apply Hd, tc_l with "B"; [sample_depends (mk "A" ["B"])|].
  apply tc_once. sample_depends (mk "B" ["C"]).
Defined.

(** The failure of C1 as stated: B was registered before C and neither
    depends on the other, yet the plan has C before B. *)
Lemma topologicalSort_ties_counterexample :
  NoDup (keys tieGraph) ∧ topologicalSort tieGraph = Normal ["C"; "A"; "B"] ∧
  before (keys tieGraph) "B" "C" ∧
  ¬ dependsT tieGraph "B" "C" ∧ ¬ dependsT tieGraph "C" "B" ∧
  ¬ before ["C"; "A"; "B"] "B" "C".
Proof.
  split; [decide_true|]. split; [reflexivity|]. split; [vm_compute; lia|].
  split; [|split].
  - intros (x & H & _)%dependsT_step. sample_deps H. by apply elem_of_nil in H.
  - intros (x & H & _)%dependsT_step. sample_deps H. by apply elem_of_nil in H.
  - vm_compute. lia.
Qed.

Lemma cycle_rejected_witness :
  dependsT twoCycle "A" "A" ∧
  topologicalSort twoCycle = Thrown (CyclicDependencyError ["A"; "B"; "A"]) ∧
  cyclePath twoCycle ["A"; "B"; "A"] ∧
  execute twoCycle () = ((), [], Thrown (PlanError (CyclicDependencyError ["A"; "B"; "A"]))).
Proof.
  assert (dependsT twoCycle "A" "A") as H.
  { apply tc_l with "B"; [sample_depends (mk "A" ["B"])|].
    apply tc_once. sample_depends (mk "B" ["A"]). }
  split; [done|].
  destruct (cycle_rejected twoCycle () "A" H) as (e & He & Hf & _ & Hex & _).
  assert (e = CyclicDependencyError ["A"; "B"; "A"]) as ->.
  { assert (topologicalSort twoCycle = Thrown (CyclicDependencyError ["A"; "B"; "A"]))
      by reflexivity. congruence. }
  done.
Defined.

(** The failure of C2 as stated: the graph has the cycle B -> C -> B, but
    the traversal reaches the unregistered X first and plan computation
    fails with a task-not-found error. *)
Lemma cycle_behind_missing_counterexample :
  dependsT missingThenCycle "B" "B" ∧
  topologicalSort missingThenCycle = Thrown (TaskNotFound "X").
Proof.
  split; [|reflexivity].
  apply tc_l with "C"; [sample_depends (mk "B" ["C"])|].
  apply tc_once. sample_depends (mk "C" ["B"]).
Qed.

(** A cycle entered from outside: the reported path starts at the root of
    the traversal, A, which is not on the cycle B -> C -> B. *)
Lemma cycle_lead_in :
  topologicalSort leadInCycle = Thrown (CyclicDependencyError ["A"; "B"; "C"; "B"]) ∧
  sortErrorMessage (CyclicDependencyError ["A"; "B"; "C"; "B"]) =
    "Cycle detected: A -> B -> C -> B" ∧
  ¬ dependsT leadInCycle "A" "A".
Proof.
  split; [reflexivity|]. split; [reflexivity|].
  assert (∀ x y, dependsT leadInCycle x y → y ≠ "A") as Hno.
  { intros x y H. induction H as [x y H|x y z H _ IH]; [|done].
    destruct H as (td & [_ Hin]%get_Some & Hd).
    repeat (apply elem_of_cons in Hin as [->|Hin]);
      [..|by apply elem_of_nil in Hin]; simpl in Hd; set_solver. }
  intros H. by apply Hno in H.
Qed.

Lemma missing_dependency_rejected_witness :
  missing oneMissing "X" ∧
  topologicalSort oneMissing = Thrown (TaskNotFound "X") ∧
  execute oneMissing () = ((), [], Thrown (PlanError (TaskNotFound "X"))).
Proof.
  assert (missing oneMissing "X") as H.
  { split; [exists "B"; sample_depends (mk "B" ["A"; "X"]) | decide_true]. }
  split; [done|].
  destruct (missing_dependency_rejected oneMissing () "X" H) as (e & He & _ & _ & _ & Hex & _).
  assert (e = TaskNotFound "X") as ->.
  { assert (topologicalSort oneMissing = Thrown (TaskNotFound "X")) by reflexivity.
    congruence. }
  done.
Defined.

(** The failure of C8 as stated: Y is missing but the error names X, the
    missing name reached first; and X is missing but the error is the cycle
    error of the self-dependency reached before it. *)
Lemma missing_dependency_counterexample :
  (missing twoMissing "Y" ∧ topologicalSort twoMissing = Thrown (TaskNotFound "X")) ∧
  (missing selfThenMissing "X" ∧
   topologicalSort selfThenMissing = Thrown (CyclicDependencyError ["A"; "A"])).
Proof.
  split; (split; [|reflexivity]).
  - split; [exists "A"; sample_depends (mk "A" ["X"; "Y"]) | decide_true].
  - split; [exists "A"; sample_depends (mk "A" ["A"; "X"]) | decide_true].
Qed.

Lemma execute_fails_fast_witness :
  topologicalSort Inputs.counterGraph = Normal (["A"] ++ "B" :: ["C"]) ∧
  fulfilInTurn Inputs.counterGraph ["A"] 0 2 ∧
  awaitCall Inputs.tickFail 2 = (3, Rejected "boom") ∧
  execute Inputs.counterGraph 0 =
    (3, [Invoked "A"; Completed "A" Fulfilled; Invoked "B"; Completed "B" (Rejected "boom")],
     Thrown (AggregateError ["boom"] ("Task " +:+ dquote +:+ "B" +:+ dquote +:+ " failed"))) ∧
  Invoked "C" ∉ [Invoked "A"; Completed "A" Fulfilled; Invoked "B";
                 Completed "B" (Rejected (Err:=string) "boom")].
Proof.
  assert (topologicalSort Inputs.counterGraph = Normal (["A"] ++ "B" :: ["C"])) as H1
    by reflexivity.
  assert (fulfilInTurn Inputs.counterGraph ["A"] 0 2) as H2.
  { apply (fulfil_cons _ "A" {| name := "A"; dependencies := []; task := Inputs.tick |}
             [] 0 2 2); [reflexivity|reflexivity|apply fulfil_nil]. }
  assert (awaitCall Inputs.tickFail 2 = (3, Rejected "boom")) as H3 by reflexivity.
  destruct (execute_fails_fast Inputs.counterGraph 0 ["A"] "B" ["C"]
              {| name := "B"; dependencies := []; task := Inputs.tickFail |}
              2 3 "boom" H1 H2 eq_refl H3) as [H4 H5].
  split; [done|]. split; [done|]. split; [done|]. split; [exact H4|]. apply H5. left.
Defined.

Lemma dependent_short_circuited_witness :
  Reachable depFail () depFailAfterD ∧ depends depFail "T" "D" ∧
  unitSettled depFailAfterD "D" (Rejected "boom") ∧
  Invoked "T" ∉ trace depFailAfterD.
Proof.
  assert (Reachable depFail () depFailAfterD) as H1.
  { exists ["D"; "T"], [unitOf "D" (failing "boom") [] AwaitingDeps;
                        unitOf "T" noop [Some 0] AwaitingDeps],
      [("D", 0); ("T", 1)], [0; 0]. repeat split; reflexivity. }
  assert (depends depFail "T" "D") as H2 by sample_depends (mk "T" ["D"]).
  assert (unitSettled depFailAfterD "D" (Rejected "boom")) as H3.
  { exists 0, (unitOf "D" (failing "boom") [] (Settled (Rejected "boom"))).
    repeat split; reflexivity. }
  destruct (dependent_short_circuited depFail () depFailAfterD "T" "D" "boom" H1 H2 H3)
    as (i & u & e' & _ & _ & _ & _ & Hninv & _).
  done.
Defined.

(** The failure of C3 as stated: T declares the dependency D, the action
    of D rejects in every completed run, and the action of T is invoked in
    none. *)
Lemma dependent_action_counterexample :
  depends depFail "T" "D" ∧
  (∃ res, executeParallel depFail () res) ∧
  ∀ w' tr c, executeParallel depFail () (w', tr, c) →
    Completed "D" (Rejected "boom") ∈ tr ∧ Invoked "T" ∉ tr.
Proof.
  assert (depends depFail "T" "D") as Hdep by sample_depends (mk "T" ["D"]).
  assert (topologicalSort depFail = Normal ["D"; "T"]) as Hs by reflexivity.
  split; [done|]. split; [by eapply executeParallel_exists|].
  intros w' tr c Hp.
  destruct (executeParallel_final depFail () _ w' tr c Hs Hp)
    as (ps & settled & _ & HR & _ & <- & _ & Hlen & Hset).
  destruct (lookup_lt_is_Some_2 settled 0) as [r Hr]; [rewrite Hlen; simpl; lia|].
  destruct (Hset 0 r Hr) as (u & Hl & Hst).
  assert (unitSettled ps "D" r) as Hd.
  { exists 0, u. split; [done|]. split; [|done].
    assert (["D"; "T"] !! 0 = Some "D") as Hp0 by done.
    apply (rn_lookup _ _ _ HR) in Hp0 as (u' & ? & ?). congruence. }
  destruct (rn_root_failed depFail _ ps "D" (mkFailing "D" [] "boom") "boom" r HR)
    as [-> Hc]; [done | done | | done |].
  { intros r'. apply maySettle_const. }
  split; [done|].
  by destruct (rn_blocked depFail _ ps HR "T" "D" "boom" Hdep Hd)
    as (_ & _ & _ & _ & _ & _ & _ & ? & _).
Qed.




End RunSpec.

(** * Properties of tasks.ts *)
Module TasksSpec.
Import Run Chat Tasks.

Section JsonTask.
Context {Port Options : Type}.
Variable JSON_parse : string → option Json.
Variables (key : string) (chatCompletion : ChatCompletion Port Options)
  (validateJson : Json → Validation) (systemMessageContent : string)
  (maxTries : nat) (options : option Options).

Abbreviation complete' := (complete JSON_parse key chatCompletion validateJson options).
Abbreviation retry' := (retry JSON_parse key chatCompletion validateJson maxTries options).
Abbreviation task' :=
  (createJsonTask JSON_parse key chatCompletion validateJson systemMessageContent
     maxTries options).
Abbreviation Played' := (Played JSON_parse chatCompletion validateJson options).

(** What one call of [complete()] does. *)
Lemma complete_spec inner (w : World Port) w' inner' thrown :
  complete' inner w = (w', inner', thrown) →
  shared w' = shared w ∧
  (∃ more, messages inner' = messages inner ++ more) ∧
  ∃ res, attempts w' = attempts w ++ [{| sent := inner; result := res |}] ∧
    match thrown with
    | None => ∃ resp j sz, res = Accepted resp j sz ∧
                           subject w' = setData key j (Some sz) (subject w)
    | Some e => accepted {| sent := inner; result := res |} = false ∧
                subject w' = subject w
    end.
Proof.
  unfold complete.
  destruct (chatCompletion inner options (service w)) as [service' [error|c]].
  { intros [= <- <- <-]. simpl. split; [done|]. split; [exists []; by rewrite app_nil_r|].
    by eexists. }
  destruct (JSON_parse (content (message c))) as [json|].
  2:{ intros [= <- <- <-]. simpl. split; [done|]. split; [by eexists|]. by eexists. }
  destruct (validateJson json) as [|errors]; intros [= <- <- <-]; simpl.
  - split; [done|]. split; [by eexists|]. eexists. split; [done|]. by eexists _, _, _.
  - split; [done|]. split; [by eexists|]. by eexists.
Qed.

Lemma finish_retry_S n inner (w : World Port) :
  finish (retry' (S n) inner) w =
  match complete' inner w with
  | (w', _, None) => (w', Fulfilled)
  | (w', inner', Some e) => finish (retry' n (push (feedback e) inner')) w'
  end.
Proof. simpl. by destruct (complete' inner w) as [[w' inner'] [e|]]. Qed.

(** What the loop does with [n] iterations left. *)
Lemma retry_spec n : ∀ inner (w : World Port) w' r,
  finish (retry' n inner) w = (w', r) →
  shared w' = shared w ∧
  ∃ new, attempts w' = attempts w ++ new ∧
    (∀ a, a ∈ new → ∃ more, messages (sent a) = messages inner ++ more) ∧
    match r with
    | Fulfilled =>
        ∃ init last resp j sz,
          new = init ++ [last] ∧ length new ≤ n ∧
          (∀ a, a ∈ init → accepted a = false) ∧
          result last = Accepted resp j sz ∧
          subject w' = setData key j (Some sz) (subject w)
    | Rejected e =>
        length new = n ∧ (∀ a, a ∈ new → accepted a = false) ∧
        e = triesExhausted maxTries ∧ subject w' = subject w
    end.
Proof.
  induction n as [|n IH]; intros inner w w' r.
  - simpl. intros [= <- <-]. split; [done|]. exists []. rewrite app_nil_r.
    split; [done|]. split; [by intros a ?%elem_of_nil|].
    split; [done|]. split; [by intros a ?%elem_of_nil | done].
  - rewrite finish_retry_S.
    destruct (complete' inner w) as [[w1 inner1] thrown] eqn:Hc.
    apply complete_spec in Hc as (Hsh & [more Hmore] & res & Hatt & Hres).
    destruct thrown as [e|].
    + destruct Hres as [Hacc Hsub]. intros (Hsh' & new & Hatt' & Hsent & Hr)%IH.
      split; [congruence|]. exists ({| sent := inner; result := res |} :: new).
      split; [by rewrite Hatt', Hatt, <- app_assoc|]. split.
      { intros a [->|Ha]%elem_of_cons; [exists []; by rewrite app_nil_r|].
        destruct (Hsent a Ha) as [more' ->]. simpl. rewrite Hmore, <- !app_assoc. eauto. }
      destruct r as [|e'].
      * destruct Hr as (init & last & resp & j & sz & -> & Hlen & Hinit & Hlast & Hsub').
        exists ({| sent := inner; result := res |} :: init), last, resp, j, sz.
        split; [done|]. split; [simpl; lia|]. split; [|split; [done | congruence]].
        intros a [->|Ha]%elem_of_cons; [done | by apply Hinit].
      * destruct Hr as (Hlen & Hnew & -> & Hsub'). split; [simpl; lia|].
        split; [|split; [done | congruence]].
        intros a [->|Ha]%elem_of_cons; [done | by apply Hnew].
    + destruct Hres as (resp & j & sz & -> & Hsub). intros [= <- <-].
      split; [done|]. exists [{| sent := inner; result := Accepted resp j sz |}].
      split; [done|]. split.
      { intros a ->%list_elem_of_singleton. exists []. by rewrite app_nil_r. }
      exists [], {| sent := inner; result := Accepted resp j sz |}, resp, j, sz.
      split; [done|]. split; [simpl; lia|].
      split; [by intros a ?%elem_of_nil | done].
Qed.

(** Each resumption leaves the shared context alone and writes at most the
    annotation [key]. *)
Lemma retry_annotates n : ∀ inner, stepsWithin (annotates (Port:=Port) key) (retry' n inner).
Proof.
  induction n as [|n IH]; intros inner; simpl; [done|]. intros w.
  destruct (complete' inner w) as [[w1 inner1] thrown] eqn:Hc.
  apply complete_spec in Hc as (Hsh & _ & res & _ & Hres).
  destruct thrown as [e|]; simpl.
  - destruct Hres as [_ Hsub]. split; [split; [done | by left] | apply IH].
  - destruct Hres as (resp & j & sz & _ & Hsub). split; [|done].
    split; [done | right; eauto].
Qed.

(** The loop neither reads nor writes the shared context. *)
Lemma complete_withShared c inner (w : World Port) :
  complete' inner (withShared c w) =
  let '(w', inner', thrown) := complete' inner w in (withShared c w', inner', thrown).
Proof.
  unfold complete. simpl.
  destruct (chatCompletion inner options (service w)) as [service' [error|cpl]]; [done|].
  destruct (JSON_parse (content (message cpl))) as [json|]; [|done].
  by destruct (validateJson json).
Qed.

Lemma retry_withShared c n : ∀ inner (w : World Port),
  finish (retry' n inner) (withShared c w) =
  let (w', r) := finish (retry' n inner) w in (withShared c w', r).
Proof.
  induction n as [|n IH]; intros inner w; [done|].
  rewrite !finish_retry_S, complete_withShared.
  destruct (complete' inner w) as [[w1 inner1] [e|]]; [apply IH | done].
Qed.

(** A rejection of the port is caught like any other failure of
    [complete()]: it uses up one iteration, is fed back as a user turn, and
    the port is called again. *)
Lemma port_failure_retried n inner (w : World Port) service' error :
  chatCompletion inner options (service w) = (service', inl error) →
  finish (retry' (S n) inner) w =
  finish (retry' n (push (feedback error) inner))
    {| subject := subject w; shared := shared w; service := service';
       attempts := attempts w ++ [{| sent := inner; result := PortFailed error |}] |}.
Proof. intros Hc. rewrite finish_retry_S. unfold complete. by rewrite Hc. Qed.

(** The attempts of the loop are calls that the port and the answers
    account for, one after the other. *)
Lemma retry_played n : ∀ inner (w : World Port) w' r,
  finish (retry' n inner) w = (w', r) →
  ∃ new, attempts w' = attempts w ++ new ∧
         Played' inner (service w) new (service w').
Proof.
  induction n as [|n IH]; intros inner w w' r.
  - cbn. intros [= <- <-]. exists []. rewrite app_nil_r. split; [done|]. constructor.
  - rewrite finish_retry_S. unfold complete.
    destruct (chatCompletion inner options (service w)) as [service' [error|c]] eqn:Hc.
    { intros (new & Hatt & Hp)%IH. cbn in Hatt, Hp. eexists. split.
      - rewrite Hatt, <- app_assoc. done.
      - by eapply played_port_failed. }
    destruct (JSON_parse (content (message c))) as [json|] eqn:Hj.
    2:{ intros (new & Hatt & Hp)%IH. cbn in Hatt, Hp. eexists. split.
        - rewrite Hatt, <- app_assoc. done.
        - by eapply played_parse_failed. }
    destruct (validateJson json) as [|errors] eqn:Hv.
    + intros [= <- <-]. cbn. eexists. split; [done|]. by eapply played_accepted.
    + intros (new & Hatt & Hp)%IH. cbn in Hatt, Hp. eexists. split.
      * rewrite Hatt, <- app_assoc. done.
      * by eapply played_schema_failed.
Qed.

(** In calls that the port and the answers account for, an accepted
    attempt holds what [JSON.parse] made of the response, and the validator
    took it. *)
Lemma Played_accepted inner s log s' a resp j sz :
  Played' inner s log s' → a ∈ log → result a = Accepted resp j sz →
  JSON_parse (content resp) = Some j ∧ validateJson j = Valid.
Proof.
  induction 1 as [| ? ? ? c json Hc Hj Hv | | |]; intros Ha Hr.
  - by apply elem_of_nil in Ha.
  - apply list_elem_of_singleton in Ha as ->. cbn in Hr. by injection Hr as <- <- <-.
  - apply elem_of_cons in Ha as [->|Ha]; [done|auto].
  - apply elem_of_cons in Ha as [->|Ha]; [done|auto].
  - apply elem_of_cons in Ha as [->|Ha]; [done|auto].
Qed.

(** C7 (as amended).  [createJsonTask] calls the port at most [maxTries]
    times, each call being sent the conversation that the outcomes of the
    calls before it determine.  An attempt whose answer parses and
    validates is the last one: the task fulfils and the message holds the
    decoded value under [key].  If no attempt does, the task has made
    exactly [maxTries] calls, leaves the message as it was, and rejects
    with an error whose message gives the number of tries, and nothing
    else. *)
Theorem createJsonTask_bounded_retries (w : World Port) :
  let (w', r) := awaitCall task' w in
  ∃ new, attempts w' = attempts w ++ new ∧ length new ≤ maxTries ∧
    Played' (firstContext systemMessageContent (subject w)) (service w) new (service w') ∧
    (∀ k a, new !! k = Some a → accepted a = true →
       length new = S k ∧ r = Fulfilled ∧
       ∃ resp j sz, result a = Accepted resp j sz ∧
                    JSON_parse (content resp) = Some j ∧ validateJson j = Valid ∧
                    subject w' = setData key j (Some sz) (subject w)) ∧
    ((∀ a, a ∈ new → accepted a = false) →
       length new = maxTries ∧ subject w' = subject w ∧
       r = Rejected (newError ("Unable to parse response after "
                               +:+ showNat maxTries +:+ " tries"))).
Proof.
  unfold awaitCall, createJsonTask.
  destruct (finish _ w) as [w' r] eqn:Hf.
  pose proof Hf as (new' & Hatt' & Hplayed)%retry_played.
  apply retry_spec in Hf as (_ & new & Hatt & _ & Hr).
  assert (new' = new) as ->.
  { apply (app_inv_head (attempts w)). by rewrite <- Hatt, <- Hatt'. }
  exists new. split; [done|].
  destruct r as [|e].
  - destruct Hr as (init & last & resp & j & sz & -> & Hlen & Hinit & Hlast & Hsub).
    split; [done|]. split; [done|]. split.
    + intros k a Hk Ha. destruct (decide (k < length init)) as [Hlt|Hge].
      * rewrite lookup_app_l in Hk by done. apply list_elem_of_lookup_2, Hinit in Hk.
        congruence.
      * rewrite lookup_app_r in Hk by lia. apply list_lookup_singleton_Some in Hk as [Hk <-].
        split; [rewrite length_app; simpl; lia|]. split; [done|].
        exists resp, j, sz. split; [done|].
        destruct (Played_accepted _ _ _ _ last resp j sz Hplayed) as [Hj Hv];
          [set_solver|done|]. done.
    + intros Hnone. specialize (Hnone last). unfold accepted in Hnone.
      rewrite Hlast in Hnone. discriminate Hnone. apply elem_of_app. right. left.
  - destruct Hr as (Hlen & Hnew & -> & Hsub). split; [lia|]. split; [done|]. split.
    + intros k a Hk Ha. apply list_elem_of_lookup_2, Hnew in Hk. congruence.
    + done.
Qed.

(** C9.  A call of the task, up to the point where it first waits, and
    each of its later steps leave the shared context as it is and write at
    most the annotation [key] of the message.  Run to its end, the task
    has left the shared context unchanged, has written exactly that
    annotation if it fulfilled and nothing if it rejected; every
    conversation it sent to the port starts with its own system and user
    turns; and the run is the same whatever the shared context holds. *)
Theorem createJsonTask_private_conversation (w : World Port) :
  annotates key w (task' w).1 ∧
  stepsWithin (annotates key) (task' w).2 ∧
  let (w', r) := awaitCall task' w in
  shared w' = shared w ∧
  (r = Fulfilled → ∃ j sz, subject w' = setData key j sz (subject w)) ∧
  (∀ e, r = Rejected e → subject w' = subject w) ∧
  (∃ new, attempts w' = attempts w ++ new ∧
     ∀ a, a ∈ new →
       ∃ more, messages (sent a) =
               SystemChatMessage systemMessageContent ::
               UserChatMessage (content (subject w)) :: more) ∧
  ∀ c, awaitCall task' (withShared c w) = (withShared c w', r).
Proof.
  split; [split; [done|by left]|]. split; [apply retry_annotates|].
  unfold awaitCall, createJsonTask.
  destruct (finish _ w) as [w' r] eqn:Hf.
  pose proof Hf as (Hsh & new & Hatt & Hsent & Hr)%retry_spec.
  split; [done|]. split; [|split; [|split]].
  - intros ->. destruct Hr as (_ & _ & _ & j & sz & _ & _ & _ & _ & ?). eauto.
  - intros e ->. by destruct Hr as (_ & _ & _ & ?).
  - exists new. split; [done|]. intros a [more Hmore]%Hsent. by exists more.
  - intros c. simpl. by rewrite retry_withShared, Hf.
Qed.

End JsonTask.

(** ** The earlier wrapper *)

(** In [wrap] the port is awaited outside the [try]: its rejection ends the
    task at once with that error, after this one call. *)
Lemma wrap_port_failure_propagates {Port} JSON_parse trim
    (chatCompletion : Legacy.ChatCompletion) key validate maxTries
    left target ctx (w : Legacy.World Port) service' error :
  chatCompletion ctx (Legacy.service w) = (service', inl error) →
  finish (Legacy.wrappedFn JSON_parse trim chatCompletion key validate maxTries
            (S left) target ctx) w =
  ({| Legacy.subject := Legacy.subject w; Legacy.service := service';
      Legacy.calls := S (Legacy.calls w) |}, Rejected error).
Proof. intros Hc. simpl. by rewrite Hc. Qed.

(** ** The claims at sample inputs *)

Import Samples.

(** C6 fails on the code.  The port rejects on its first call and answers
    with valid JSON on the second: the task does not reject with the
    port's error but calls the port again, after feeding the failure back
    as a parse error, and fulfils. *)
Theorem port_failure_consumes_a_try :
  let (w', r) := awaitCall (extractKeywords 3) (sampleWorld [inl transportError; inr "[]"]) in
  r = Fulfilled ∧
  result <$> attempts w' =
    [PortFailed transportError;
     Accepted (message (answer "[]")) (JArray []) 7%Z] ∧
  (last ∘ messages ∘ sent <$> attempts w') !! 1 = Some (Some (feedback transportError)) ∧
  getData "keywords" (subject w') = Some (JArray []) ∧
  content (feedback transportError) =
    "Unable to parse response. Please fix the error and try again." +:+ newline
    +:+ newline +:+ "Error: Chat completion failed: Service Unavailable".
Proof. vm_compute. repeat split. Qed.

(** The earlier wrapper, on the same port, rejects with the port's error
    after one call. *)
Lemma wrap_port_failure_example :
  awaitCall (Legacy.wrap sampleParse id legacyScripted "keywords" id (λ _, None) 3)
    {| Legacy.subject := sampleMessage;
       Legacy.service := [inl transportError; inr "[]"]; Legacy.calls := 0 |} =
  ({| Legacy.subject := sampleMessage; Legacy.service := [inr "[]"];
      Legacy.calls := 1 |}, Rejected transportError).
Proof. reflexivity. Qed.

(** The failure of C7 as stated: two attempts, none valid, and the error
    thrown gives the number of tries but does not name the key. *)
Lemma retries_exhausted_counterexample :
  let (w', r) := awaitCall (extractKeywords 2) (sampleWorld [inr "nope"; inr "{}"; inr "[]"]) in
  length (attempts w') = 2 ∧
  r = Rejected (newError "Unable to parse response after 2 tries") ∧
  includes "2" "Unable to parse response after 2 tries" = true ∧
  includes "keywords" "Unable to parse response after 2 tries" = false.
Proof. vm_compute. repeat split. Qed.

Lemma createJsonTask_bounded_retries_witness :
  let w := sampleWorld [inr "nope"; inr "{}"; inr "[]"] in
  let (w', r) := awaitCall (extractKeywords 3) w in
  r = Fulfilled ∧
  ∃ new, attempts w' = attempts w ++ new ∧ length new = 3 ∧
    Played sampleParse scripted validateKeywords None
      (firstContext "Extract keywords." (subject w)) (service w) new (service w') ∧
    ∀ k a, new !! k = Some a → accepted a = true →
      length new = S k ∧
      ∃ resp j sz, result a = Accepted resp j sz ∧
                   sampleParse (content resp) = Some j ∧ validateKeywords j = Valid ∧
                   subject w' = setData "keywords" j (Some sz) (subject w).
Proof.
  intros w.
  pose proof (createJsonTask_bounded_retries sampleParse "keywords" scripted validateKeywords
                "Extract keywords." 3 None w) as H.
  change (awaitCall (createJsonTask _ _ _ _ _ _ _) w)
    with (awaitCall (extractKeywords 3) w) in H.
  destruct (awaitCall (extractKeywords 3) w) as [w' r] eqn:E.
  destruct H as (new & Hatt & _ & Hplayed & Hacc & _).
  assert (r = Fulfilled ∧ length (attempts w') = 3) as [-> Hlen].
  { vm_compute in E. by injection E as <- <-. }
  split; [done|]. exists new. split; [done|]. split.
  { rewrite Hatt, length_app in Hlen. cbn in Hlen. lia. }
  split; [done|]. intros k a Hk Ha. destruct (Hacc k a Hk Ha) as (? & _ & ?). done.
Defined.

(** The two runs of the specification: malformed twice, then valid, with
    three tries; and never valid, with two. *)
Lemma third_attempt_succeeds :
  let (w', r) := awaitCall (extractKeywords 3) (sampleWorld [inr "nope"; inr "{}"; inr "[]"]) in
  r = Fulfilled ∧ length (attempts w') = 3 ∧
  getData "keywords" (subject w') = Some (JArray []).
Proof. vm_compute. repeat split. Qed.

End TasksSpec.


(** * Properties of the registry, of planning and of the pipes *)
Module PipeSpec.
Import Run Pipe RunSpec.

Section Registry.
Context {World Err : Type}.
Implicit Types (g : list (TaskDescriptor World Err)) (td : TaskDescriptor World Err).
Implicit Types (n m d t : string).

Lemma has_keys g n : has n g = bool_decide (n ∈ keys g).
Proof.
  unfold has. destruct (get n g) eqn:E.
  - symmetry. apply bool_decide_eq_true. apply get_is_Some. by rewrite E.
  - symmetry. apply bool_decide_eq_false. by apply get_None.
Qed.

Lemma get_cons g td n :
  get n (td :: g) = if bool_decide (name td = n) then Some td else get n g.
Proof. unfold get. simpl. by destruct (bool_decide (name td = n)). Qed.

Lemma get_delete_ne g n m : m ≠ n → get m (delete n g) = get m g.
Proof.
  intros Hne. induction g as [|t g IH]; [done|].
  unfold delete in *. rewrite filter_cons. destruct (decide (name t ≠ n)) as [Ht|Ht].
  - rewrite !get_cons, IH. done.
  - apply dec_stable in Ht. rewrite get_cons, IH.
    rewrite bool_decide_eq_false_2; [done|congruence].
Qed.

Lemma keys_delete g n : keys (delete n g) = filter (λ m, m ≠ n) (keys g).
Proof.
  unfold keys, delete. induction g as [|t g IH]; [done|].
  rewrite fmap_cons, !filter_cons. destruct (decide (name t ≠ n)); csimpl; by rewrite IH.
Qed.

(** X1: [add] under a new name appends the task to the iteration order;
    under a name already registered it replaces the descriptor where it
    stands.  Either way the name then resolves to the new descriptor and
    every other name resolves as before. *)
Theorem add_in_place g td :
  keys (add td g) = (if has (name td) g then keys g else keys g ++ [name td]) ∧
  get (name td) (add td g) = Some td ∧
  ∀ n, n ≠ name td → get n (add td g) = get n g.
Proof.
  split; [|split].
  - induction g as [|t g IH]; [done|].
    simpl. unfold has in *. rewrite get_cons.
    destruct (bool_decide (name t = name td)) eqn:E.
    + apply bool_decide_eq_true in E. unfold keys. csimpl. by rewrite E.
    + unfold keys in *. csimpl. rewrite IH. by destruct (get (name td) g).
  - apply get_add.
  - intros n Hn. induction g as [|t g IH].
    + cbn [add]. rewrite get_cons. rewrite bool_decide_eq_false_2; done.
    + cbn [add]. destruct (bool_decide (name t = name td)) eqn:E.
      * apply bool_decide_eq_true in E. rewrite !get_cons.
        rewrite !bool_decide_eq_false_2; congruence.
      * by rewrite !get_cons, IH.
Qed.

(** X2: [delete] removes the entry of the name and nothing else: the other
    names keep their descriptors and their relative order, the name is no
    longer registered, and a call that returns [false] changed nothing. *)
Theorem delete_only_that_name g n :
  keys (delete n g) = filter (λ m, m ≠ n) (keys g) ∧
  has n (delete n g) = false ∧
  (∀ m, m ≠ n → get m (delete n g) = get m g) ∧
  (deleted n g = false → delete n g = g).
Proof.
  split; [apply keys_delete|]. split; [|split].
  - rewrite has_keys, keys_delete. apply bool_decide_eq_false.
    rewrite list_elem_of_filter. tauto.
  - intros m Hm. by apply get_delete_ne.
  - unfold deleted. rewrite has_keys. intros Hn%bool_decide_eq_false.
    unfold delete. induction g as [|t g IH]; [done|].
    rewrite filter_cons. unfold keys in Hn. csimpl in Hn.
    apply not_elem_of_cons in Hn as [Hne Hn].
    destruct (decide (name t ≠ n)) as [|Heq]; [|by destruct Heq].
    f_equal. by apply IH.
Qed.

(** X3: whatever calls of [add] and [delete] built the graph, no name is
    registered twice. *)
Theorem build_NoDup (ops : list (GraphOp World Err)) : NoDup (keys (build ops)).
Proof.
  unfold build. induction ops as [|op ops IH] using rev_ind.
  - constructor.
  - rewrite foldl_app. simpl. destruct op as [td|n]; simpl.
    + by apply add_keys_NoDup.
    + by apply delete_keys_NoDup.
Qed.

End Registry.

Section Planning.
Context {World Err : Type}.
Implicit Types (g : list (TaskDescriptor World Err)) (w : World).
Implicit Types (n m d t : string) (l : list string).

Lemma before_cons_ne l a u v : u ≠ a → v ≠ a → before (a :: l) u v ↔ before l u v.
Proof.
  intros Hu Hv. unfold before. cbn [indexOf].
  rewrite !bool_decide_eq_false_2 by congruence.
  destruct (indexOf u l), (indexOf v l); csimpl; try tauto. lia.
Qed.

Lemma before_head l a b : a ≠ b → b ∈ l → before (a :: l) a b.
Proof.
  intros Hne Hb. unfold before. cbn [indexOf].
  rewrite bool_decide_eq_true_2 by done. rewrite bool_decide_eq_false_2 by done.
  apply indexOf_is_Some in Hb as [j ->]. csimpl. lia.
Qed.

Lemma before_not_head l a b : ¬ before (b :: l) a b.
Proof.
  unfold before. cbn [indexOf]. rewrite (bool_decide_eq_true_2 (b = b)) by done.
  destruct (bool_decide (b = a)); [lia|]. destruct (indexOf a l); csimpl; [lia|tauto].
Qed.

(** Two duplicate-free lists with the same elements, of which the second
    keeps the order of the first, are equal. *)
Lemma before_same_order l1 : ∀ l2,
  NoDup l1 → l1 ≡ₚ l2 → (∀ u v, before l1 u v → before l2 u v) → l1 = l2.
Proof.
  induction l1 as [|a l1 IH]; intros l2 Hnd Hp Hb.
  - by apply Permutation_nil_l in Hp.
  - destruct l2 as [|b l2]; [by apply Permutation_nil_r in Hp|].
    apply NoDup_cons in Hnd as [Ha Hnd].
    assert (a = b) as <-.
    { destruct (decide (a = b)) as [|Hne]; [done|]. exfalso.
      assert (b ∈ l1) as Hin.
      { assert (b ∈ a :: l1) as Hin by (rewrite Hp; left).
        apply elem_of_cons in Hin as [|]; [congruence|done]. }
      eapply before_not_head, Hb. by apply before_head. }
    apply Permutation_cons_inv in Hp. f_equal. apply IH; [done|done|].
    intros u v Huv. destruct (before_elem _ _ _ Huv) as [Hu Hv].
    assert (u ≠ a) by (intros ->; done). assert (v ≠ a) by (intros ->; done).
    apply (before_cons_ne l2 a); [done|done|]. apply Hb. by apply before_cons_ne.
Qed.

Lemma dependenciesFirst_tc g t d : dependenciesFirst g → dependsT g t d → before (keys g) d t.
Proof.
  intros Hf Hd. induction Hd as [t d Hd|t x d Hd _ IH]; [by apply Hf|].
  eapply before_trans; [done|]. by apply Hf.
Qed.

(** X4: when every task was registered after all of its dependencies, the
    plan is the registration order itself. *)
Theorem topologicalSort_dependenciesFirst g :
  NoDup (keys g) → dependenciesFirst g → topologicalSort g = Normal (keys g).
Proof.
  intros Hnd Hf.
  assert (∃ plan, topologicalSort g = Normal plan) as [plan Hs].
  { apply topologicalSort_succeeds. split.
    - intros n Hn. eapply before_irrefl, dependenciesFirst_tc; done.
    - intros d [[t Hd] Hnot]. apply Hf, before_elem in Hd as [Hd _]. done. }
  rewrite Hs. f_equal. symmetry. apply before_same_order; [done| |].
  - apply NoDup_Permutation; [done|by eapply topologicalSort_NoDup|].
    intros x. symmetry. by apply topologicalSort_elem.
  - intros u v Huv. eapply topologicalSort_insertion_order; [done|done|done|].
    intros r Hr Hd. apply (dependenciesFirst_tc _ _ _ Hf) in Hd.
    destruct Hr as [->|Hr].
    + eapply before_irrefl, before_trans; done.
    + eapply before_irrefl, before_trans; [exact Hr|]. eapply before_trans; done.
Qed.

(** X5: [delete] does not look at who depends on the task: once a task
    that another one still names is deleted, planning fails, so that
    [execute] and [executeParallel] reject before running anything. *)
Theorem delete_breaks_dependents g w t d :
  depends g t d → t ≠ d →
  ∃ e, topologicalSort (delete d g) = Thrown e ∧ planFailure (delete d g) e ∧
       execute (delete d g) w = (w, [], Thrown (PlanError e)) ∧
       ∀ res, executeParallel (delete d g) w res → res = (w, [], Thrown (PlanError e)).
Proof.
  intros (td & Hget & Hd) Hne.
  assert (missing (delete d g) d) as Hm.
  { split.
    - exists t, td. split; [|done]. by rewrite get_delete_ne.
    - rewrite keys_delete, list_elem_of_filter. tauto. }
  destruct (missing_fails _ _ Hm) as [e He]. exists e.
  split; [done|]. split; [by apply topologicalSort_failure|].
  split; [by apply execute_plan_error|].
  intros res. by apply executeParallel_plan_error.
Qed.

End Planning.

Section Pipes.
Context {World Err : Type}.
Implicit Types (g : list (TaskDescriptor World Err)) (w : World).
Implicit Types (t : Task World Err) (ts : list (Task World Err)).
Implicit Types (p : Async World Err).

(** Past an [await], the function goes on if the promise fulfils and
    rejects with its reason otherwise. *)
Lemma finish_awaitThen p rest : ∀ w,
  finish (awaitThen p rest) w =
  match finish p w with
  | (w', Fulfilled) => let (w'', a) := rest w' in finish a w''
  | (w', Rejected e) => (w', Rejected e)
  end.
Proof.
  induction p as [r|k IH] using Async_resume_ind; intros w.
  - by destruct r.
  - cbn [awaitThen finish]. specialize (IH w). destruct (k w) as [w' p']. apply IH.
Qed.

Lemma awaitCall_pipe_nil w : awaitCall (pipe (Err:=Err) []) w = (w, Fulfilled).
Proof. done. Qed.

Lemma awaitCall_pipe_cons t ts w :
  awaitCall (pipe (t :: ts)) w =
  match awaitCall t w with
  | (w', Fulfilled) => awaitCall (pipe ts) w'
  | (w', Rejected e) => (w', Rejected e)
  end.
Proof.
  unfold awaitCall. cbn [pipe]. destruct (t w) as [w1 p].
  rewrite finish_awaitThen. by destruct (finish p w1) as [w' [|e]].
Qed.

Lemma awaitCall_pipe_app ts1 ts2 : ∀ w,
  awaitCall (pipe (ts1 ++ ts2)) w =
  match awaitCall (pipe ts1) w with
  | (w', Fulfilled) => awaitCall (pipe ts2) w'
  | (w', Rejected e) => (w', Rejected e)
  end.
Proof.
  induction ts1 as [|t ts1 IH]; intros w; [done|].
  rewrite <- app_comm_cons, !awaitCall_pipe_cons.
  destruct (awaitCall t w) as [w' [|e]]; [apply IH|done].
Qed.

(** X6: a pipe of pipes runs as the pipe of all their tasks: nesting does
    not change the final state nor the outcome. *)
Theorem pipe_flatten (tss : list (list (Task World Err))) w :
  awaitCall (pipe (pipe <$> tss)) w = awaitCall (pipe (concat tss)) w.
Proof.
  revert w. induction tss as [|ts tss IH]; intros w; [done|].
  rewrite fmap_cons, awaitCall_pipe_cons. cbn [concat]. rewrite awaitCall_pipe_app.
  destruct (awaitCall (pipe ts) w) as [w' [|e]]; [apply IH|done].
Qed.

(** X7: [pipe] stops at the first task that rejects: it rejects with that
    task's own reason, in the state that task left, whatever tasks come
    after it. *)
Theorem pipe_fails_fast pre t post w w1 w2 e :
  awaitCall (pipe pre) w = (w1, Fulfilled) →
  awaitCall t w1 = (w2, Rejected e) →
  awaitCall (pipe (pre ++ t :: post)) w = (w2, Rejected e).
Proof.
  intros Hpre Ht. rewrite awaitCall_pipe_app, Hpre, awaitCall_pipe_cons. by rewrite Ht.
Qed.

Lemma stepsWithin_awaitThen (R : relation World) p rest :
  Reflexive R → stepsWithin R p → keeps R rest → stepsWithin R (awaitThen p rest).
Proof.
  intros HR Hp Hrest. induction p as [r|k IH] using Async_resume_ind.
  - destruct r as [|e]; cbn [awaitThen stepsWithin]; [apply Hrest|].
    intros w. by split.
  - cbn [awaitThen stepsWithin] in *. intros w. specialize (Hp w). specialize (IH w).
    destruct (k w) as [w' p']. split; [apply Hp|]. apply IH, Hp.
Qed.

Lemma stepsWithin_finish (R : relation World) p :
  PreOrder R → stepsWithin R p → ∀ w, R w (finish p w).1.
Proof.
  intros HR. induction p as [r|k IH] using Async_resume_ind; intros Hp w; [done|].
  cbn [finish stepsWithin] in *. specialize (Hp w). specialize (IH w).
  destruct (k w) as [w' p']. etrans; [apply Hp|]. apply IH, Hp.
Qed.

Lemma keeps_awaitCall (R : relation World) t w :
  PreOrder R → keeps R t → R w (awaitCall t w).1.
Proof.
  intros HR Ht. unfold awaitCall. specialize (Ht w). destruct (t w) as [w1 p].
  etrans; [apply Ht|]. apply stepsWithin_finish; [done|apply Ht].
Qed.

Lemma keeps_pipe (R : relation World) ts :
  Reflexive R → Forall (keeps R) ts → keeps R (pipe ts).
Proof.
  intros HR Hts. induction Hts as [|t ts Ht _ IH]; intros w.
  - by split.
  - cbn [pipe]. specialize (Ht w). destruct (t w) as [w1 p].
    split; [apply Ht|]. apply stepsWithin_awaitThen; [done|apply Ht|done].
Qed.

(** X8: an invariant of the tasks is an invariant of their pipe: if every
    task keeps a preorder on states, in its synchronous part and in each
    of its resumptions, then so does the pipe, and the state the pipe ends
    in is related to the one it started from. *)
Theorem pipe_keeps (R : relation World) ts w :
  PreOrder R → Forall (keeps R) ts →
  keeps R (pipe ts) ∧ R w (awaitCall (pipe ts) w).1.
Proof.
  intros HR Hts. assert (keeps R (pipe ts)) by (apply keeps_pipe; [apply _|done]).
  split; [done|]. by apply keeps_awaitCall.
Qed.

(** The actions of the registered names among [names], in order. *)
Lemma executeLoop_pipe g names : ∀ w tr,
  (∀ n, n ∈ names → n ∈ keys g) →
  let '(w', _, c) := executeLoop g names w tr in
  let (w'', r) := awaitCall (pipe (omap (λ n, task <$> get n g) names)) w in
  w' = w'' ∧
  match r with
  | Fulfilled => c = Normal ()
  | Rejected e => ∃ n, n ∈ names ∧ c = Thrown (AggregateError [e] (taskFailed n))
  end.
Proof.
  induction names as [|n names IH]; intros w tr Hreg; [done|].
  cbn [executeLoop omap list_omap].
  destruct (proj2 (get_is_Some g n)) as [td Htd]; [apply Hreg; left|].
  rewrite Htd. cbn [fmap option_fmap option_map]. rewrite awaitCall_pipe_cons.
  destruct (awaitCall (task td) w) as [w2 [|e]].
  - specialize (IH w2 (tr ++ [Invoked n; Completed n Fulfilled])).
    destruct (executeLoop g names w2 _) as [[w' tr'] c].
    destruct (awaitCall _ w2) as [w'' r].
    destruct IH as [-> IH]; [intros m Hm; apply Hreg; by right|].
    split; [done|]. destruct r; [done|]. destruct IH as (m & Hm & ->).
    exists m. split; [by right|done].
  - split; [done|]. exists n. split; [left|done].
Qed.

(** X9: [execute] is the pipe of the actions in plan order, except that it
    wraps the reason of the failing task in an [AggregateError] that names
    the task. *)
Theorem execute_as_pipe g w plan :
  topologicalSort g = Normal plan →
  let '(w', _, c) := execute g w in
  let (w'', r) := awaitCall (pipe (omap (λ n, task <$> get n g) plan)) w in
  w' = w'' ∧
  match r with
  | Fulfilled => c = Normal ()
  | Rejected e => ∃ n, n ∈ plan ∧ c = Thrown (AggregateError [e] (taskFailed n))
  end.
Proof.
  intros Hs. unfold execute. rewrite Hs. apply executeLoop_pipe.
  intros n Hn. by apply (topologicalSort_elem g plan n Hs).
Qed.

End Pipes.

Section ParallelPipe.
Context {World Err : Type}.
Implicit Types (st : AllState World Err) (ps : list (Async World Err)).
Implicit Types (tasks : list (Task World Err)) (w : World).





















End ParallelPipe.

End PipeSpec.


(** * Further properties of executeParallel *)
Module SchedulerSpec.
Import Run Pipe RunSpec.

Section Scheduler.
Context {World Err : Type}.
Implicit Types (g : list (TaskDescriptor World Err)) (w : World).
Implicit Types (ps : ParState World Err) (u : Unit World Err).

(** The events that one job adds: none, the call of the action once the
    dependencies are fulfilled, or the completion of the action. *)
Lemma fire_events i ps ps' :
  fire i ps = Some ps' →
  ∃ u, units ps !! i = Some u ∧
    (trace ps' = trace ps ∨
     (trace ps' = trace ps ++ [Invoked (unitName u)] ∧ unitState u = AwaitingDeps ∧
      promiseAll ps (dependencyPromises u) = Some Fulfilled) ∨
     (∃ r, trace ps' = trace ps ++ [Completed (unitName u) r] ∧
           unitState u = AwaitingTask (Settle r))).
Proof.
  unfold fire. destruct (units ps !! i) as [u|] eqn:Hu; [|done].
  destruct (unitState u) as [|[r|k]|r] eqn:Hst.
  - destruct (promiseAll ps _) as [[|e]|] eqn:Hall; [| |done].
    + destruct (unitTask u (world ps)). intros [= <-]. exists u. split; [done|].
      right. by left.
    + intros [= <-]. exists u. split; [done|]. by left.
  - intros [= <-]. exists u. split; [done|]. right. right. by exists r.
  - destruct (k (world ps)). intros [= <-]. exists u. split; [done|]. by left.
  - done.
Qed.

(** Induction on the states of a run. *)
Lemma Reachable_ind g w (P : ParState World Err → Prop) :
  (∀ us, P (parInit w us)) →
  (∀ ps i ps', Reachable g w ps → P ps → fire i ps = Some ps' → P ps') →
  ∀ ps, Reachable g w ps → P ps.
Proof.
  intros Hinit Hstep ps (plan & us & tp & schedule & Hs & Hsp & Hrun).
  revert ps Hrun. induction schedule as [|i schedule IH] using rev_ind; intros ps Hrun.
  - injection Hrun as <-. apply Hinit.
  - rewrite run_app in Hrun. destruct (run schedule (parInit w us)) as [ps0|] eqn:E; [|done].
    cbn in Hrun. destruct (fire i ps0) as [ps1|] eqn:Ef; [|done]. injection Hrun as <-.
    eapply Hstep; [|by apply IH|done]. by exists plan, us, tp, schedule.
Qed.

Lemma snoc_split {A} (tr tr1 tr2 : list A) x y :
  tr ++ [x] = tr1 ++ y :: tr2 →
  (tr2 = [] ∧ tr = tr1 ∧ x = y) ∨ ∃ tr2', tr2 = tr2' ++ [x] ∧ tr = tr1 ++ y :: tr2'.
Proof.
  intros H. destruct tr2 as [|z tr2 _] using rev_ind.
  - left. apply app_inj_tail in H as [-> ->]. done.
  - right. exists tr2. rewrite app_comm_cons, app_assoc in H.
    by apply app_inj_tail in H as [-> ->].
Qed.

(** A unit that has fulfilled has completed its action. *)
Lemma fulfilled_completed ps j u :
  ParInv ps → units ps !! j = Some u → unitState u = Settled Fulfilled →
  Completed (unitName u) Fulfilled ∈ trace ps.
Proof.
  intros HI Hu Hst. pose proof (pi_units _ HI _ _ Hu) as Hinv.
  unfold unitInv in Hinv. rewrite Hst in Hinv.
  destruct Hinv as [(_ & Hc & _)|(_ & e & He & _)]; [done|discriminate He].
Qed.

Lemma wellOrdered_step g plan ps i ps' :
  Running g plan ps → wellOrdered g (trace ps) → fire i ps = Some ps' →
  wellOrdered g (trace ps').
Proof.
  intros HR [Hdeps Hinv] (u & Hu & Hev)%fire_events.
  pose proof (rn_inv _ _ _ HR) as HI. pose proof (pi_units _ HI _ _ Hu) as Hunit.
  unfold unitInv in Hunit.
  destruct Hev as [->|[(-> & Hst & Hall)|(r & -> & Hst)]]; [done| |]; rewrite Hst in Hunit.
  - split.
    + intros tr1 tr2 t d [(-> & <- & [= <-])|(tr2' & -> & Htr)]%snoc_split Hd.
      2:{ by eapply Hdeps. }
      destruct (rn_dependency g plan ps HR i u d Hu Hd) as (j & uj & Hj & Huj & <-).
      apply promiseAll_Fulfilled in Hall as [_ Hall].
      apply Hall, isFulfilled_Some in Hj as (u' & Hu' & Hst').
      assert (u' = uj) as -> by congruence. by eapply fulfilled_completed.
    + intros tr1 tr2 n r [(_ & _ & [=])|(tr2' & -> & Htr)]%snoc_split. by eapply Hinv.
  - split.
    + intros tr1 tr2 t d [(_ & _ & [=])|(tr2' & -> & Htr)]%snoc_split Hd. by eapply Hdeps.
    + intros tr1 tr2 n r' [(-> & <- & [= <- <-])|(tr2' & -> & Htr)]%snoc_split.
      * apply Hunit.
      * by eapply Hinv.
Qed.

Lemma wellOrdered_nil g : wellOrdered g [].
Proof. split; intros tr1 tr2 ? ? H; by destruct tr1. Qed.

(** X12: at every moment of a concurrent run, each action that has been
    called was called after all the dependencies of its task had
    completed and fulfilled, and each completion follows the call; so it is
    for the events of every completed call of [executeParallel]. *)
Theorem executeParallel_dependencies_first g w :
  (∀ ps, Reachable g w ps → wellOrdered g (trace ps)) ∧
  (∀ w' tr c, executeParallel g w (w', tr, c) → wellOrdered g tr).
Proof.
  assert (∀ ps, Reachable g w ps → wellOrdered g (trace ps)) as Hreach.
  { apply Reachable_ind.
    - intros us. apply wellOrdered_nil.
    - intros ps i ps' (plan & _ & HR)%Reachable_Running Hps Hf.
      by eapply wellOrdered_step. }
  split; [done|]. intros w' tr c Hp.
  inversion Hp as [e He|order e Ho Hsp|order us tp sch ps settled Ho Hsp Hrun Hset]; subst.
  - apply wellOrdered_nil.
  - apply wellOrdered_nil.
  - apply Hreach. by exists order, us, tp, sch.
Qed.

Lemma trace_NoDup_step g plan ps i ps' :
  Running g plan ps → NoDup (trace ps) → fire i ps = Some ps' → NoDup (trace ps').
Proof.
  intros HR Hnd (u & Hu & Hev)%fire_events.
  pose proof (rn_inv _ _ _ HR) as HI. pose proof (pi_units _ HI _ _ Hu) as Hunit.
  unfold unitInv in Hunit.
  destruct Hev as [->|[(-> & Hst & Hall)|(r & -> & Hst)]]; [done| |]; rewrite Hst in Hunit.
  - apply NoDup_app. split; [done|]. split; [|apply NoDup_singleton].
    by intros x Hx ->%list_elem_of_singleton.
  - apply NoDup_app. split; [done|]. split; [|apply NoDup_singleton].
    intros x Hx ->%list_elem_of_singleton. by apply (proj1 (proj2 Hunit) r).
Qed.

(** X13: [executeParallel] calls the action of a task at most once: no
    event occurs twice in the record of a run, and a task completes in
    one way only. *)
Theorem executeParallel_runs_once g w ps :
  Reachable g w ps →
  NoDup (trace ps) ∧
  ∀ n r r', Completed n r ∈ trace ps → Completed n r' ∈ trace ps → r = r'.
Proof.
  intros Hreach. split.
  - revert ps Hreach. apply Reachable_ind.
    + intros us. constructor.
    + intros ps i ps' (plan & _ & HR)%Reachable_Running Hps Hf.
      by eapply trace_NoDup_step.
  - destruct (Reachable_Running g w ps Hreach) as (plan & _ & HR).
    pose proof (rn_inv _ _ _ HR) as HI. intros n r r' Hr Hr'.
    apply (pi_completed _ HI) in Hr as (i & u & Hu & Hn & Hst).
    apply (pi_completed _ HI) in Hr' as (i' & u' & Hu' & Hn' & Hst').
    assert (i = i') as <- by (eapply (rn_unique g plan ps HR); [done|done|congruence]).
    congruence.
Qed.

Lemma fire_settled_None ps i :
  (∀ j u, units ps !! j = Some u → ∃ r, unitState u = Settled r) → fire i ps = None.
Proof.
  intros Hall. unfold fire. destruct (units ps !! i) as [u|] eqn:Hu; [|done].
  destruct (Hall i u Hu) as [r ->]. done.
Qed.

Lemma run_trace_prefix schedule : ∀ ps ps',
  run schedule ps = Some ps' → trace ps `prefix_of` trace ps'.
Proof.
  induction schedule as [|i schedule IH]; intros ps ps' Hrun.
  - by injection Hrun as <-.
  - cbn [run] in Hrun. destruct (fire i ps) as [ps1|] eqn:Ef; [|done].
    trans (trace ps1); [|by apply IH].
    apply fire_events in Ef as (u & _ & [->|[(-> & _)|(r & -> & _)]]);
      [done|by apply prefix_app_r|by apply prefix_app_r].
Qed.

(** X14: a concurrent run never gets stuck: whatever jobs have run so far,
    the units can be run on until all of them have settled; then no job is
    left and [executeParallel] settles, its record extending the events so
    far. *)
Theorem executeParallel_never_stuck g w ps :
  Reachable g w ps →
  ∃ schedule ps' settled,
    run schedule ps = Some ps' ∧
    (∀ i, fire i ps' = None) ∧
    trace ps `prefix_of` trace ps' ∧
    executeParallel g w (world ps', trace ps', parOutcome settled).
Proof.
  intros (plan & us & tp & sch0 & Hs & Hsp & Hrun0).
  destruct (topologicalSort_spawn g plan Hs) as (us' & tp' & Hsp' & Hspawned).
  assert (us' = us ∧ tp' = tp) as [-> ->] by (split; congruence).
  assert (ParInv ps) as HI.
  { eapply run_inv; [|done]. eapply ParInv_init; [|done]. by eapply topologicalSort_NoDup. }
  destruct (run_drain ps (length (units ps)) HI) as (sch & ps' & Hrun & Hall); [done|].
  assert (length (units ps') = length us) as Hlen.
  { rewrite (run_length _ _ _ Hrun), (run_length _ _ _ Hrun0). done. }
  assert (is_Some (allSettled ps' (JsMap.values tp))) as [settled Hsettled].
  { apply mapM_is_Some, Forall_forall. intros i Hi.
    rewrite (sp_values _ _ _ _ Hspawned) in Hi. apply elem_of_seq in Hi.
    destruct (Hall i) as [r Hr].
    - rewrite (run_length _ _ _ Hrun0). cbn.
      rewrite <- (sp_names _ _ _ _ Hspawned), length_fmap in Hi. lia.
    - exists r. by apply promiseState_Some. }
  exists sch, ps', settled. split; [done|]. split; [|split].
  - intros i. apply fire_settled_None. intros j u Hu.
    destruct (Hall j) as (r & u' & Hu' & Hst).
    + rewrite <- (run_length _ _ _ Hrun). by eapply lookup_lt_Some.
    + exists r. congruence.
  - by eapply run_trace_prefix.
  - eapply par_settled; [done|done| |done]. by rewrite run_app, Hrun0.
Qed.

(** The settlement of the unit at a position of the plan, by induction
    along the plan: either its action ran, or a unit before it, made for
    one of its dependencies, had rejected with the same reason. *)
Lemma settled_unit_cases g plan ps i u r :
  Running g plan ps → units ps !! i = Some u → unitState u = Settled r →
  (Invoked (unitName u) ∈ trace ps ∧ Completed (unitName u) r ∈ trace ps ∧
   maySettle (unitTask u) r) ∨
  (∃ j uj e, j < i ∧ units ps !! j = Some uj ∧ unitState uj = Settled (Rejected e) ∧
             r = Rejected e).
Proof.
  intros HR Hu Hst.
  destruct (rn_settled_cases g plan ps i u r HR Hu Hst)
    as [(Hi & Hc & Hm & _)|(_ & d & e & Hd & (j & uj & Huj & Hn & Hstj) & ->)]; [by left|].
  right. destruct (rn_dependency g plan ps HR i u d Hu Hd) as (j' & uj' & Hj' & Huj' & Hn').
  assert (j = j') as <-.
  { eapply (rn_unique g plan ps HR); [done|done|congruence]. }
  exists j, uj, e. split; [|done].
  eapply (pi_back _ (rn_inv _ _ _ HR)); done.
Qed.

(** X15: when no action can reject, every completed call of
    [executeParallel] resolves, having called and completed the action of
    every registered task. *)
Theorem executeParallel_all_fulfil g w plan w' tr c :
  topologicalSort g = Normal plan →
  (∀ td r, td ∈ g → maySettle (task td) r → r = Fulfilled) →
  executeParallel g w (w', tr, c) →
  c = Normal () ∧
  ∀ n, n ∈ keys g → Invoked n ∈ tr ∧ Completed n Fulfilled ∈ tr.
Proof.
  intros Hs Hok Hp.
  destruct (executeParallel_final g w plan w' tr c Hs Hp)
    as (ps & settled & Hreach & HR & <- & <- & -> & Hlen & Hset).
  assert (∀ i u r, units ps !! i = Some u → unitState u = Settled r →
            r = Fulfilled ∧ Invoked (unitName u) ∈ trace ps ∧
            Completed (unitName u) r ∈ trace ps) as Hall.
  { intros i. induction i as [i IH] using lt_wf_ind. intros u r Hu Hst.
    destruct (settled_unit_cases g plan ps i u r HR Hu Hst)
      as [(Hi & Hc & Hm)|(j & uj & e & Hj & Huj & Hstj & ->)].
    - split; [|done]. destruct (rn_units _ _ _ HR i u Hu) as (td & Htd & Htask & _).
      rewrite Htask in Hm. eapply Hok; [|done]. by apply get_Some in Htd as [_ ?].
    - destruct (IH j Hj uj _ Huj Hstj) as [[=] _]. }
  split.
  - unfold parOutcome. assert (omap reason settled = []) as ->; [|done].
    apply elem_of_nil_inv. intros e (r & (i & Hi)%list_elem_of_lookup_1 & Hr)%list_elem_of_omap.
    destruct (Hset i r Hi) as (u & Hu & Hst). destruct (Hall i u r Hu Hst) as [-> _]. done.
  - intros n Hn. apply (topologicalSort_elem g plan n Hs) in Hn.
    apply list_elem_of_lookup_1 in Hn as [i Hi].
    apply (rn_lookup g plan ps HR) in Hi as Hu. destruct Hu as (u & Hu & <-).
    destruct (lookup_lt_is_Some_2 settled i) as [r Hr].
    { rewrite Hlen. by eapply lookup_lt_Some. }
    destruct (Hset i r Hr) as (u' & Hu' & Hst). assert (u' = u) as -> by congruence.
    destruct (Hall i u r Hu Hst) as (-> & ? & ?). done.
Qed.

(** X16: every error that [executeParallel] reports is the reason with
    which the action of a registered task did reject; the error of a task
    that was skipped is the one of a failed dependency.  The message
    counts the errors. *)
Theorem executeParallel_errors_are_real g w plan w' tr errors message :
  topologicalSort g = Normal plan →
  executeParallel g w (w', tr, Thrown (AggregateError errors message)) →
  errors ≠ [] ∧
  message = showNat (length errors) +:+ " tasks failed" ∧
  ∀ e, e ∈ errors → ∃ n, n ∈ keys g ∧ Completed n (Rejected e) ∈ tr.
Proof.
  intros Hs Hp.
  destruct (executeParallel_final g w plan w' tr _ Hs Hp)
    as (ps & settled & Hreach & HR & <- & <- & Hc & Hlen & Hset).
  unfold parOutcome, aggregate in Hc.
  destruct (omap reason settled) as [|e0 reasons] eqn:Er; [done|].
  cbn [length] in Hc. injection Hc as -> ->. split; [done|]. split; [done|].
  assert (∀ i u e, units ps !! i = Some u → unitState u = Settled (Rejected e) →
            ∃ n, Completed n (Rejected e) ∈ trace ps) as Hall.
  { intros i. induction i as [i IH] using lt_wf_ind. intros u e Hu Hst.
    destruct (settled_unit_cases g plan ps i u _ HR Hu Hst)
      as [(Hi & Hc & Hm)|(j & uj & e' & Hj & Huj & Hstj & [= ->])].
    - by exists (unitName u).
    - by eapply IH. }
  intros e He. rewrite <- Er in He.
  apply list_elem_of_omap in He as (r & (i & Hi)%list_elem_of_lookup_1 & Hr).
  destruct r as [|e']; [done|]. injection Hr as ->.
  destruct (Hset i _ Hi) as (u & Hu & Hst).
  destruct (Hall i u e Hu Hst) as [n Hn]. exists n. split; [|done].
  apply (pi_completed _ (rn_inv _ _ _ HR)) in Hn as (j & uj & Huj & <- & _).
  apply (topologicalSort_elem g plan _ Hs).
  eapply list_elem_of_lookup_2, (rn_lookup g plan ps HR). by exists uj.
Qed.

End Scheduler.

End SchedulerSpec.


(** * Properties of the messages, the contexts and the completion port *)
Module MessagesSpec.
Import Chat Messages Completions.

(** X17: the size of a message can be set once: after a successful
    assignment the getter returns the value, the rest of the message is as
    before, and any further assignment throws. *)
Theorem size_set_once m a m' :
  setSize a m = Normal m' →
  size m = None ∧ getSize m' = a ∧
  role m' = role m ∧ content m' = content m ∧ data m' = data m ∧
  ∀ b, setSize b m' = Thrown (newError "Cannot set size twice").
Proof.
  unfold setSize. destruct (size m) eqn:E; [done|]. intros [= <-]. done.
Qed.

(** X18: the annotations of a message and of a context are maps in which
    the last write under a key wins and the other keys are left alone;
    [ChatMessage.get] returns the content written, [Context.get] the whole
    item with its size.  Writing an annotation changes neither the size of
    the message nor the messages of the context. *)
Theorem annotations_last_write_wins m ctx k v sz :
  getData k (setData k v sz m) = Some v ∧
  getContextData k (setContextData k v sz ctx) =
    Some {| itemContent := v; itemSize := sz |} ∧
  (∀ k', k' ≠ k →
     getData k' (setData k v sz m) = getData k' m ∧
     getContextData k' (setContextData k v sz ctx) = getContextData k' ctx) ∧
  (∀ v' sz', setData k v' sz' (setData k v sz m) = setData k v' sz' m ∧
             setContextData k v' sz' (setContextData k v sz ctx) =
               setContextData k v' sz' ctx) ∧
  getSize (setData k v sz m) = getSize m ∧
  messages (setContextData k v sz ctx) = messages ctx.
Proof.
  unfold getData, setData, getContextData, setContextData. cbn.
  split; [by rewrite lookup_insert_eq|]. split; [by rewrite lookup_insert_eq|].
  split; [|split; [|done]].
  - intros k' Hk. by rewrite !lookup_insert_ne.
  - intros v' sz'. by rewrite !insert_insert_eq.
Qed.

Lemma messages_applyContextOp ctx op :
  messages (applyContextOp ctx op) = messages ctx ++ given op.
Proof. destruct op; cbn; [done|done|by rewrite app_nil_r]. Qed.

(** X19: a context only grows at its end: after any calls of [push],
    [create] and [set] it holds the messages it held, followed by the
    messages those calls were given, in the order of the calls; [create]
    returns the message it appended. *)
Theorem context_append_only ops ctx :
  messages (foldl applyContextOp ctx ops) = messages ctx ++ concat (given <$> ops) ∧
  messages ctx `prefix_of` messages (foldl applyContextOp ctx ops) ∧
  ∀ r c sz, last (messages (create r c sz ctx).2) = Some (create r c sz ctx).1.
Proof.
  assert (∀ ctx, messages (foldl applyContextOp ctx ops)
                 = messages ctx ++ concat (given <$> ops)) as H.
  { clear ctx. induction ops as [|op ops IH]; intros ctx.
    - cbn. by rewrite app_nil_r.
    - cbn [foldl]. rewrite IH, messages_applyContextOp, fmap_cons. cbn [concat].
      by rewrite app_assoc. }
  split; [apply H|]. split.
  - rewrite H. by apply prefix_app_r.
  - intros r c sz. cbn. apply last_snoc.
Qed.

Section Fetch.
Context {Net : Type}.
Variables (fetch : Request → Net → Net * Reply) (now : Net → Z).

(** X20: the request of a completion is a POST.  The [headers] object
    that [fetch] is given has the JSON content type under the key
    [Content-Type]; beside it, it has the fields of a configured record,
    each under its name as written (also a name that differs from
    [Content-Type] in letter case only), nothing of a configured [Headers]
    instance, and of a configured array its indices, not its names.  Of
    each message the body carries the role and the content only, so that
    contexts whose messages differ in sizes or annotations alone give the
    same request. *)
Theorem chatCompletion_request url headers context options :
  let request := requestOf url headers context options in
  requestMethod request = "POST" ∧
  requestHeaders request !! "Content-Type" = Some jsonContentType ∧
  (∀ fields, headers = Some (HeadersRecord fields) →
     ∀ k, k ≠ "Content-Type" → requestHeaders request !! k = Text <$> fields !! k) ∧
  (∀ entries, headers = Some (HeadersObject entries) ∨ headers = None →
     requestHeaders request = {["Content-Type" := jsonContentType]}) ∧
  (∀ pairs, headers = Some (HeadersArray pairs) →
     ∀ k v, k ≠ "Content-Type" → requestHeaders request !! k = Some v →
       ∃ i pair, k = showNat i ∧ pairs !! i = Some pair ∧ v = Items pair) ∧
  length (bodyMessages request) = length (messages context) ∧
  ∀ context',
    Forall2 (λ m m', role m = role m' ∧ content m = content m')
      (messages context) (messages context') →
    requestOf url headers context' options = request.
Proof.
  cbn. split; [done|]. split; [apply lookup_insert_eq|]. split; [|split; [|split]].
  - intros fields -> k Hk. rewrite lookup_insert_ne by done. cbn. apply lookup_fmap.
  - intros entries [->| ->]; cbn; apply insert_empty.
  - intros pairs -> k v Hk. rewrite lookup_insert_ne by done. cbn.
    intros Hin%elem_of_list_to_map_2. apply elem_of_lookup_imap in Hin as (i & pair & [= -> ->] & Hi).
    by exists i, pair.
  - split; [by rewrite length_fmap|].
    intros context' H. unfold requestOf. f_equal.
    induction H as [|m m' l l' [Hr Hc] _ IH]; [done|].
    rewrite !fmap_cons, IH. unfold toMessage. by rewrite Hr, Hc.
Qed.

Lemma chatCompletion_resolves url headers context options net net' c :
  createChatCompletion fetch now url headers context options net = (net', inr c) →
  ∃ statusText response first rest,
    fetch (requestOf url headers context options) net
      = (net', Response true statusText (inr response)) ∧
    choices response = first :: rest ∧
    toMessage (message c) = choiceMessage first ∧
    data (message c) = ∅ ∧
    size (message c) = Some (completion (Chat.usage c)) ∧
    completion (Chat.usage c) = completion_tokens (usage response) ∧
    prompt (Chat.usage c) = prompt_tokens (usage response) ∧
    duration c = (now net' - now net)%Z ∧
    ∀ b, setSize b (message c) = Thrown (newError "Cannot set size twice").
Proof.
  unfold createChatCompletion.
  destruct (fetch _ net) as [net1 [error|[|] statusText [error|response]]]; try done.
  destruct (choices response) as [|first rest] eqn:E; [done|].
  intros [= <- <-]. exists statusText, response, first, rest. cbn.
  split; [done|]. split; [done|]. split; [by destruct first as [[]]|]. done.
Qed.

Lemma chatCompletion_rejects url headers context options net net' e :
  createChatCompletion fetch now url headers context options net = (net', inl e) →
  ∃ reply, fetch (requestOf url headers context options) net = (net', reply) ∧
    match reply with
    | FetchFailed error => e = error
    | Response false statusText _ => e = newError ("Chat completion failed: " +:+ statusText)
    | Response true _ (inl error) => e = error
    | Response true _ (inr response) => choices response = [] ∧ errorName e = "TypeError"
    end.
Proof.
  unfold createChatCompletion.
  destruct (fetch _ net) as [net1 reply] eqn:Ef. intros H. exists reply.
  destruct reply as [error|[|] statusText [error|response]];
    try (injection H as <- <-; done).
  destruct (choices response) as [|first rest] eqn:E; [|done].
  injection H as <- <-. done.
Qed.

(** X21: the outcome of a completion.  It resolves only from a response
    with an ok status, a body that parses and at least one choice; the
    message is then the first choice, without annotations, and its size is
    the number of completion tokens that [usage.completion] reports, so
    that it cannot be set again.  It rejects with the error of [fetch] or
    of the body parser as it is, on a status that is not ok with an error
    that quotes the status text, whatever the body, and with a [TypeError]
    when the response has no choice. *)
Theorem chatCompletion_outcome url headers context options net :
  let (net', result) := createChatCompletion fetch now url headers context options net in
  ∃ reply, fetch (requestOf url headers context options) net = (net', reply) ∧
    match result with
    | inr c =>
        ∃ statusText response first rest,
          reply = Response true statusText (inr response) ∧
          choices response = first :: rest ∧
          toMessage (message c) = choiceMessage first ∧
          data (message c) = ∅ ∧
          size (message c) = Some (completion (Chat.usage c)) ∧
          completion (Chat.usage c) = completion_tokens (usage response) ∧
          prompt (Chat.usage c) = prompt_tokens (usage response) ∧
          duration c = (now net' - now net)%Z ∧
          ∀ b, setSize b (message c) = Thrown (newError "Cannot set size twice")
    | inl e =>
        match reply with
        | FetchFailed error => e = error
        | Response false statusText _ =>
            e = newError ("Chat completion failed: " +:+ statusText)
        | Response true _ (inl error) => e = error
        | Response true _ (inr response) =>
            choices response = [] ∧ errorName e = "TypeError"
        end
    end.
Proof.
  destruct (createChatCompletion _ _ _ _ _ _ net) as [net' [e|c]] eqn:H.
  - by apply chatCompletion_rejects.
  - apply chatCompletion_resolves in H
      as (statusText & response & first & rest & Hf & H).
    exists (Response true statusText (inr response)). split; [done|].
    by exists statusText, response, first, rest.
Qed.

End Fetch.

End MessagesSpec.

(** * Properties of the tasks of tasks.ts *)
Module ExtractorsSpec.
Import Run Chat Tasks Pipe Messages Completions Extractors RunSpec TasksSpec PipeSpec.

Section JsonTask.
Context {Port Options : Type}.
Variable JSON_parse : string → option Json.
Variables (key : string) (chatCompletion : ChatCompletion Port Options)
  (validateJson : Json → Validation) (systemMessageContent : string)
  (maxTries : nat) (options : option Options).

Abbreviation complete' := (complete JSON_parse key chatCompletion validateJson options).
Abbreviation retry' := (retry JSON_parse key chatCompletion validateJson maxTries options).
Abbreviation task' :=
  (createJsonTask JSON_parse key chatCompletion validateJson systemMessageContent
     maxTries options).

Abbreviation sound' := (sound JSON_parse validateJson).

Lemma pushAll_nil c : pushAll [] c = c.
Proof. destruct c. unfold pushAll. cbn. by rewrite app_nil_r. Qed.

(** One call of [complete()], told by the attempt it records. *)
Lemma complete_cases inner (w : World Port) :
  let '(w', inner', thrown) := complete' inner w in
  ∃ res, attempts w' = attempts w ++ [{| sent := inner; result := res |}] ∧
    sound' {| sent := inner; result := res |} ∧
    shared w' = shared w ∧
    inner' = pushAll (responseOf res) inner ∧
    thrown = errorOf res ∧
    match res with
    | Accepted resp j sz => subject w' = setData key j (Some sz) (subject w)
    | _ => subject w' = subject w
    end.
Proof.
  unfold complete. destruct (chatCompletion inner options (service w)) as [service' [e|c]].
  - exists (PortFailed e). by rewrite pushAll_nil.
  - destruct (JSON_parse (content (message c))) as [j|] eqn:Ej.
    + destruct (validateJson j) as [|errors] eqn:Ev.
      * by exists (Accepted (message c) j (completion (Chat.usage c))).
      * by exists (SchemaFailed (message c) j (validationError errors)).
    + by exists (ParseFailed (message c)).
Qed.

(** The attempts of the loop: what each was sent, and how it went on. *)
Lemma retry_transcript n : ∀ inner (w : World Port) w' r,
  finish (retry' n inner) w = (w', r) →
  ∃ new, attempts w' = attempts w ++ new ∧
    (∀ a, head new = Some a → sent a = inner) ∧
    (∀ k a b, new !! k = Some a → new !! S k = Some b → followUp a = Some (sent b)) ∧
    (∀ a, a ∈ new → sound' a) ∧
    (r = Fulfilled →
       ∃ a resp j sz, last new = Some a ∧ result a = Accepted resp j sz ∧
                      subject w' = setData key j (Some sz) (subject w)).
Proof.
  induction n as [|n IH]; intros inner w w' r.
  - cbn. intros [= <- <-]. exists []. rewrite app_nil_r. repeat split; try done.
    intros a ?%elem_of_nil. done.
  - rewrite finish_retry_S. pose proof (complete_cases inner w) as Hc.
    destruct (complete' inner w) as [[w1 inner1] thrown].
    destruct Hc as (res & Hatt & Hsound & Hsh & -> & -> & Hsubj).
    set (a := {| sent := inner; result := res |}) in *.
    destruct (errorOf res) as [e|] eqn:Ee.
    + intros Hfin. destruct (IH _ _ _ _ Hfin) as (new & Hnew & Hhead & Hnext & Hall & Hlast).
      exists (a :: new). split; [rewrite Hnew, Hatt; by rewrite <- app_assoc|].
      split; [by intros ? [= <-]|]. split; [|split].
      * intros [|k] x y Hx Hy.
        -- injection Hx as <-. unfold followUp. cbn [result sent a]. rewrite Ee. cbn.
           f_equal. symmetry. apply Hhead. by destruct new.
        -- by eapply Hnext.
      * intros x [->|Hx]%elem_of_cons; [done|by apply Hall].
      * intros Hr. destruct (Hlast Hr) as (x & resp & j & sz & Hx & Hres & Hs).
        exists x, resp, j, sz. split; [|split; [done|]].
        -- destruct new; [done|]. done.
        -- rewrite Hs. f_equal. by destruct res.
    + intros [= <- <-]. exists [a]. split; [done|]. split; [by intros ? [= <-]|].
      split; [by intros [|[|k]] x y|]. split.
      * by intros x ->%list_elem_of_singleton.
      * intros _. destruct res as [| | |resp j sz]; try done. by exists a, resp, j, sz.
Qed.

(** X22: when a task made by [createJsonTask] fulfils, the annotation it
    wrote under its key is the value that [JSON.parse] returned for the
    content of the last response and that the validator accepted. *)
Theorem createJsonTask_stores_valid_json (w w' : World Port) :
  awaitCall task' w = (w', Fulfilled) →
  ∃ a resp j sz,
    last (attempts w') = Some a ∧ result a = Accepted resp j sz ∧
    JSON_parse (content resp) = Some j ∧ validateJson j = Valid ∧
    subject w' = setData key j (Some sz) (subject w) ∧
    getData key (subject w') = Some j.
Proof.
  unfold awaitCall, createJsonTask. intros Hfin.
  destruct (retry_transcript _ _ _ _ _ Hfin) as (new & Hnew & _ & _ & Hall & Hlast).
  destruct (Hlast eq_refl) as (a & resp & j & sz & Ha & Hres & Hs).
  exists a, resp, j, sz. split; [rewrite Hnew, last_app; by rewrite Ha|]. split; [done|].
  assert (sound' a) as Hsound.
  { apply Hall. apply last_Some in Ha as [l' ->]. set_solver. }
  unfold sound in Hsound. rewrite Hres in Hsound. destruct Hsound as [Hj Hv].
  split; [done|]. split; [done|]. split; [done|]. rewrite Hs.
  unfold getData, setData. cbn. by rewrite lookup_insert_eq.
Qed.

(** X23: the conversation of a task made by [createJsonTask]: the first
    attempt is sent the system message and the content of the message;
    each later one is sent what the attempt before it was sent, followed
    by the response of that attempt, if the port gave one, and by a user
    message that quotes its error. *)
Theorem createJsonTask_conversation (w : World Port) :
  let (w', r) := awaitCall task' w in
  ∃ new, attempts w' = attempts w ++ new ∧
    (∀ a, head new = Some a →
          messages (sent a) = [SystemChatMessage systemMessageContent;
                               UserChatMessage (content (subject w))]) ∧
    (∀ k a b, new !! k = Some a → new !! S k = Some b → followUp a = Some (sent b)).
Proof.
  unfold awaitCall, createJsonTask.
  destruct (finish _ w) as [w' r] eqn:Hfin.
  destruct (retry_transcript _ _ _ _ _ Hfin) as (new & Hnew & Hhead & Hnext & _).
  exists new. split; [done|]. split; [|done]. intros a Ha. by rewrite (Hhead a Ha).
Qed.

End JsonTask.

Section Extractors.
Context {Port : Type}.
Variables (JSON_parse : string → option Json)
  (chatCompletion : ChatCompletion Port ChatCompletionOptions).

Abbreviation summarize' := (createSummarize chatCompletion).
Abbreviation keywords' := (createExtractKeywords JSON_parse chatCompletion).

Implicit Types (w : World Port).

Lemma annotatesOnly_refl keys w : annotatesOnly keys w w.
Proof. by repeat split. Qed.

Lemma annotatesOnly_trans keys w1 w2 w3 :
  annotatesOnly keys w1 w2 → annotatesOnly keys w2 w3 → annotatesOnly keys w1 w3.
Proof.
  intros (Hs & Hr & Hc & Hz & Hd & Ha) (Hs' & Hr' & Hc' & Hz' & Hd' & Ha').
  split; [congruence|]. split; [congruence|]. split; [congruence|]. split; [congruence|].
  split; [|by etrans]. intros k Hk. rewrite Hd' by done. by apply Hd.
Qed.

Lemma annotatesOnly_mono keys keys' w w' :
  keys ⊆ keys' → annotatesOnly keys w w' → annotatesOnly keys' w w'.
Proof.
  intros Hsub (Hs & Hr & Hc & Hz & Hd & Ha). repeat split; try done.
  intros k Hk. apply Hd. intros ?. by apply Hk, Hsub.
Qed.

Lemma annotatesOnly_setData key j sz w w' :
  shared w' = shared w → attempts w `prefix_of` attempts w' →
  subject w' = setData key j sz (subject w) → annotatesOnly [key] w w'.
Proof.
  intros Hs Ha Hsub. unfold annotatesOnly. rewrite Hsub. repeat split; try done.
  intros k Hk. cbn. apply lookup_insert_ne. set_solver.
Qed.

Lemma annotatesOnly_same keys w w' :
  shared w' = shared w → attempts w `prefix_of` attempts w' →
  subject w' = subject w → annotatesOnly keys w w'.
Proof. intros Hs Ha Hsub. unfold annotatesOnly. rewrite Hsub. by repeat split. Qed.

(** A task made by [createJsonTask], seen from its caller. *)
Lemma jsonTask_cases key validateJson instruction n w :
  let (w', r) :=
    awaitCall (createJsonTask JSON_parse key chatCompletion validateJson instruction n
                 (Some lowTemperature)) w in
  annotatesOnly [key] w w' ∧
  length (attempts w') ≤ length (attempts w) + n ∧
  (r = Fulfilled →
     ∃ j, validateJson j = Valid ∧ getData key (subject w') = Some j).
Proof.
  unfold awaitCall, createJsonTask. destruct (finish _ w) as [w' r] eqn:Hfin.
  pose proof Hfin as (Hsh & new & Hnew & _ & Hr)%retry_spec.
  pose proof Hfin as (new' & Hnew' & _ & _ & Hall & Hlast)%retry_transcript.
  assert (new' = new) as ->.
  { apply (app_inv_head (attempts w)). by rewrite <- Hnew, <- Hnew'. }
  assert (attempts w `prefix_of` attempts w') as Hpre by (rewrite Hnew; by apply prefix_app_r).
  destruct r as [|e].
  - destruct Hr as (init & lst & resp & j & sz & -> & Hlen & _ & Hres & Hsub).
    split; [by eapply annotatesOnly_setData|]. split.
    + rewrite Hnew, length_app. lia.
    + intros _. exists j. split.
      * assert (sound JSON_parse validateJson lst) as Hs by (apply Hall; set_solver).
        unfold sound in Hs. rewrite Hres in Hs. apply Hs.
      * rewrite Hsub. unfold getData, setData. cbn. by rewrite lookup_insert_eq.
  - destruct Hr as (Hlen & _ & _ & Hsub).
    split; [by apply annotatesOnly_same|]. split; [|done].
    rewrite Hnew, length_app. lia.
Qed.

Lemma validateKeywords_Valid j :
  Tasks.validateKeywords j = Valid →
  ∃ items, j = JArray items ∧ Forall (λ i, ∃ s, i = JString s) items.
Proof.
  destruct j as [| | | |items|]; try done. cbn.
  destruct (forallb isJString items) eqn:E; [|done]. intros _. exists items. split; [done|].
  apply Forall_forall. intros i Hi%list_elem_of_In. rewrite forallb_forall in E.
  apply E in Hi. destruct i; try done. by eexists.
Qed.

(** X24: when the keyword task fulfils, the message holds under
    [keywords] a JSON array of strings; the task has called the port at
    most [maxTries] times, three if the argument was left out. *)
Theorem createExtractKeywords_result maxTries w w' :
  awaitCall (keywords' maxTries) w = (w', Fulfilled) →
  (∃ items, getData "keywords" (subject w') = Some (JArray items) ∧
            Forall (λ i, ∃ s, i = JString s) items) ∧
  length (attempts w') ≤ length (attempts w) + default 3 maxTries.
Proof.
  intros H. unfold createExtractKeywords in H.
  pose proof (jsonTask_cases "keywords" Tasks.validateKeywords keywordsInstruction
                (default 3 maxTries) w) as Hc.
  rewrite H in Hc. destruct Hc as (_ & Hlen & Hok). split; [|done].
  destruct (Hok eq_refl) as (j & (items & -> & Hitems)%validateKeywords_Valid & Hget).
  by exists items.
Qed.

Lemma summarize_cases w :
  let (w', r) := awaitCall summarize' w in
  shared w' = shared w ∧
  ∃ res, attempts w' = attempts w ++ [{| sent := summaryContext w; result := res |}] ∧
    match r with
    | Fulfilled =>
        ∃ c, chatCompletion (summaryContext w) (Some lowTemperature) (service w)
               = (service w', inr c) ∧
             res = Accepted (message c) (JString (content (message c)))
                     (completion (Chat.usage c)) ∧
             subject w' = setData "summary" (JString (content (message c)))
                            (Some (completion (Chat.usage c))) (subject w)
    | Rejected e =>
        chatCompletion (summaryContext w) (Some lowTemperature) (service w)
          = (service w', inl e) ∧
        res = PortFailed e ∧ subject w' = subject w
    end.
Proof.
  unfold awaitCall, createSummarize, summaryContext. cbn [finish].
  destruct (chatCompletion _ _ (service w)) as [service' [e|c]]; cbn.
  - split; [done|]. by exists (PortFailed e).
  - split; [done|]. eexists. split; [done|]. by exists c.
Qed.

(** X25: the summary task calls the port once, with the system message
    and the content of the message, and leaves the shared context alone;
    if the port rejects, the task rejects with that error and the message
    is as before; otherwise the task fulfils, whatever the response, and
    the message holds the content of the response under [summary], with
    the number of completion tokens as its size. *)
Theorem createSummarize_calls_once w :
  let (w', r) := awaitCall summarize' w in
  shared w' = shared w ∧
  messages (summaryContext w) = [SystemChatMessage summarizeInstruction;
                                 UserChatMessage (content (subject w))] ∧
  length (attempts w') = S (length (attempts w)) ∧
  match r with
  | Fulfilled =>
      ∃ c, chatCompletion (summaryContext w) (Some lowTemperature) (service w)
             = (service w', inr c) ∧
           getData "summary" (subject w') = Some (JString (content (message c))) ∧
           subject w' = setData "summary" (JString (content (message c)))
                          (Some (completion (Chat.usage c))) (subject w)
  | Rejected e =>
      chatCompletion (summaryContext w) (Some lowTemperature) (service w)
        = (service w', inl e) ∧
      subject w' = subject w
  end.
Proof.
  pose proof (summarize_cases w) as H. destruct (awaitCall summarize' w) as [w' r].
  destruct H as (Hs & res & Ha & Hr). split; [done|]. split; [done|].
  split; [rewrite Ha, length_app; cbn; lia|]. destruct r as [|e].
  - destruct Hr as (c & Hc & _ & Hsub). exists c. split; [done|]. split; [|done].
    rewrite Hsub. unfold getData, setData. cbn. by rewrite lookup_insert_eq.
  - by destruct Hr as (Hc & _ & Hsub).
Qed.

Lemma getData_annotatesOnly keys k w w' :
  annotatesOnly keys w w' → k ∉ keys → getData k (subject w') = getData k (subject w).
Proof. intros (_ & _ & _ & _ & Hd & _) Hk. unfold getData. by rewrite Hd. Qed.

Variable validateEntities : Json → Validation.

Abbreviation run' := (runTasks JSON_parse chatCompletion validateEntities).

(** X26: the pipe of the three tasks of test.ts writes under [summary],
    [keywords] and [entities] and nowhere else, never touches the shared
    context, and calls the port at most seven times.  If it fulfils, the
    message holds a string as summary, an array of strings as keywords
    and a value that the entity validator accepted as entities; if the
    first call of the port rejects, it rejects with that error after this
    one call. *)
Theorem runTasks_pipeline w :
  let (w', r) := awaitCall run' w in
  annotatesOnly ["summary"; "keywords"; "entities"] w w' ∧
  length (attempts w') ≤ length (attempts w) + 7 ∧
  (r = Fulfilled →
     (∃ s, getData "summary" (subject w') = Some (JString s)) ∧
     (∃ items, getData "keywords" (subject w') = Some (JArray items) ∧
               Forall (λ i, ∃ s, i = JString s) items) ∧
     (∃ j, getData "entities" (subject w') = Some j ∧ validateEntities j = Valid)) ∧
  (∀ service' e,
     chatCompletion (summaryContext w) (Some lowTemperature) (service w) = (service', inl e) →
     r = Rejected e ∧ length (attempts w') = S (length (attempts w)) ∧
     subject w' = subject w).
Proof.
  unfold runTasks. rewrite awaitCall_pipe_cons.
  pose proof (summarize_cases w) as H1. destruct (awaitCall summarize' w) as [w1 r1].
  destruct H1 as (Hs1 & res1 & Ha1 & Hr1).
  assert (length (attempts w1) = S (length (attempts w))) as Hl1.
  { rewrite Ha1, length_app. cbn. lia. }
  assert (attempts w `prefix_of` attempts w1) as Hp1 by (rewrite Ha1; by apply prefix_app_r).
  destruct r1 as [|e1].
  2:{ destruct Hr1 as (Hc & _ & Hsub).
      split; [by apply annotatesOnly_same|]. split; [lia|]. split; [done|].
      intros service' e He. rewrite He in Hc. injection Hc as _ ->. done. }
  destruct Hr1 as (c & Hc & _ & Hsub1).
  assert (annotatesOnly ["summary"; "keywords"; "entities"] w w1) as A1.
  { eapply annotatesOnly_mono; [|by eapply annotatesOnly_setData]. set_solver. }
  assert (getData "summary" (subject w1) = Some (JString (content (message c)))) as G1.
  { rewrite Hsub1. unfold getData, setData. cbn. by rewrite lookup_insert_eq. }
  pose proof (jsonTask_cases "keywords" Tasks.validateKeywords keywordsInstruction 3 w1) as H2.
  unfold createExtractKeywords, createExtractEntities. cbn [default].
  rewrite awaitCall_pipe_cons.
  destruct (awaitCall _ w1) as [w2 r2]. destruct H2 as (A2 & Hl2 & Hr2).
  assert (annotatesOnly ["summary"; "keywords"; "entities"] w w2) as A12.
  { eapply annotatesOnly_trans; [done|]. eapply annotatesOnly_mono; [|done]. set_solver. }
  destruct r2 as [|e2].
  2:{ split; [done|]. split; [lia|]. split; [done|].
      intros service' e He. rewrite He in Hc. done. }
  destruct (Hr2 eq_refl) as (j2 & (items & -> & Hitems)%validateKeywords_Valid & G2).
  pose proof (jsonTask_cases "entities" validateEntities entitiesInstruction 3 w2) as H3.
  rewrite awaitCall_pipe_cons.
  destruct (awaitCall _ w2) as [w3 r3]. destruct H3 as (A3 & Hl3 & Hr3).
  assert (annotatesOnly ["summary"; "keywords"; "entities"] w w3) as A123.
  { eapply annotatesOnly_trans; [done|]. eapply annotatesOnly_mono; [|done]. set_solver. }
  assert (length (attempts w3) ≤ length (attempts w) + 7) by lia.
  assert (∀ service' e,
            chatCompletion (summaryContext w) (Some lowTemperature) (service w)
              = (service', inl e) → False) as Hno.
  { intros service' e He. rewrite He in Hc. done. }
  destruct r3 as [|e3].
  - rewrite awaitCall_pipe_nil.
    split; [done|]. split; [done|]. split; [|by intros ? ? ?%Hno].
    intros _. destruct (Hr3 eq_refl) as (j3 & Hv3 & G3). split; [|split].
    + exists (content (message c)).
      rewrite (getData_annotatesOnly _ _ _ _ A3), (getData_annotatesOnly _ _ _ _ A2);
        [done|set_solver|set_solver].
    + exists items. split; [|done]. rewrite (getData_annotatesOnly _ _ _ _ A3); [done|set_solver].
    + by exists j3.
  - split; [done|]. split; [done|]. split; [done|]. by intros ? ? ?%Hno.
Qed.

End Extractors.

End ExtractorsSpec.

(** * Properties of the earlier application *)
Module LegacyAppSpec.
Import Run Chat Legacy LegacyApp Messages RunSpec.

Lemma toDouble_exact (z : Z) : (Z.abs z < 2 ^ 53)%Z → toDouble z = Some z.
Proof.
  intros Hz. unfold toDouble.
  assert (Z.log2 (Z.abs z) + 1 <= 53)%Z as Hbits.
  { destruct (decide (Z.abs z = 0)%Z) as [->|Hnz]; [done|].
    assert (Z.log2 (Z.abs z) < 53)%Z; [|lia]. apply Z.log2_lt_pow2; lia. }
  apply Z.leb_le in Hbits. by rewrite Hbits.
Qed.

(** X27: the size of the earlier context is the sum of the sizes of its
    messages, a message without a size counting for 0 and the sizes of
    annotations not at all, as long as the sum stays below 2^53 in
    magnitude: pushing a message then adds its size.  Beyond, the sum is
    rounded as a double is. *)
Theorem contextSize_additive ctx m total :
  contextSize ctx = Some total →
  (Z.abs (total + default 0 (size m)) < 2 ^ 53)%Z →
  contextSize newContext = Some 0%Z ∧
  contextSize (push m ctx) = Some (total + default 0 (size m))%Z ∧
  ∀ k v sz, contextSize (push (setData k v sz m) ctx) = contextSize (push m ctx).
Proof.
  intros Hctx Hsafe.
  assert (∀ m', contextSize (push m' ctx) = toDouble (total + default 0 (size m'))%Z) as H.
  { intros m'. unfold contextSize, push in *. cbn [messages]. rewrite foldl_app. cbn [foldl].
    by rewrite Hctx. }
  split; [done|]. split; [by rewrite H, toDouble_exact|].
  intros k v sz. by rewrite !H.
Qed.

Section Wrap.
Context {Port : Type}.
Variables (JSON_parse : string → option Json) (trim : string → string).
Variables (chatCompletion : @ChatCompletion Port) (key : string)
  (init : Context → Context) (validate : Json → option JsError) (maxTries : nat).

Abbreviation wrappedFn' := (wrappedFn JSON_parse trim chatCompletion key validate maxTries).
Abbreviation wrap' := (wrap JSON_parse trim chatCompletion key init validate maxTries).

Implicit Types (w : World Port).

(** A run of [wrappedFn] with [left] tries to go. *)
Lemma wrappedFn_cases left : ∀ target ctx w,
  let (w', r) := finish (wrappedFn' left target ctx) w in
  calls w ≤ calls w' ∧ calls w' ≤ calls w + left ∧
  (left = 0 → w' = w ∧ r = Rejected (TryError ("Maximum number of tries exceeded ("
                                                +:+ showNat maxTries +:+ ")"))) ∧
  (r = Fulfilled → calls w < calls w') ∧
  (subject w' = subject w ∨
   target = None ∧ calls w' = S (calls w) ∧ r = Fulfilled ∧
   ∃ json sz, validate json = None ∧ subject w' = setData key json (Some sz) (subject w)).
Proof.
  induction left as [|left IH]; intros target ctx w.
  - cbn. split; [lia|]. split; [lia|]. split; [done|]. split; [done|]. by left.
  - cbn [wrappedFn finish].
    destruct (chatCompletion ctx (service w)) as [service' [error|[completionMessage sz]]].
    + cbn. split; [lia|]. split; [lia|]. split; [done|]. split; [done|]. by left.
    + set (w1 := {| subject := subject w; service := service'; calls := S (calls w) |}).
      assert (∀ err,
        let (w', r) := finish (wrappedFn' left (Some (length (messages ctx)))
                                 (push (createErrorMessage err) ctx)) w1 in
        calls w ≤ calls w' ∧ calls w' ≤ calls w + S left ∧
        (S left = 0 → w' = w ∧ r = Rejected (TryError ("Maximum number of tries exceeded ("
                                                       +:+ showNat maxTries +:+ ")"))) ∧
        (r = Fulfilled → calls w < calls w') ∧
        (subject w' = subject w ∨
         target = None ∧ calls w' = S (calls w) ∧ r = Fulfilled ∧
         ∃ json sz, validate json = None ∧
                    subject w' = setData key json (Some sz) (subject w))) as Hagain.
      { intros err. specialize (IH (Some (length (messages ctx)))
                                  (push (createErrorMessage err) ctx) w1).
        destruct (finish _ w1) as [w' r]. cbn in IH.
        destruct IH as (H1 & H2 & _ & H4 & [H5|(? & _)]); [|done].
        split; [lia|]. split; [lia|]. split; [done|]. split; [intros ?; lia|]. by left. }
      destruct (JSON_parse (trim (content completionMessage))) as [json|]; [|apply Hagain].
      destruct (validate json) as [validationError|] eqn:Ev; [apply Hagain|].
      destruct target as [i|]; cbn.
      * split; [lia|]. split; [lia|]. split; [done|]. split; [intros _; lia|]. by left.
      * split; [lia|]. split; [lia|]. split; [done|]. split; [intros _; lia|]. right.
        split; [done|]. split; [done|]. split; [done|]. by exists json, sz.
Qed.

(** X28: a task made by [wrap] calls the service at most [maxTries] times,
    and at least once when it fulfils; with no try allowed it rejects at
    once with a [TryError] and calls nothing. *)
Theorem wrap_bounded_tries w :
  let (w', r) := awaitCall wrap' w in
  calls w ≤ calls w' ∧ calls w' ≤ calls w + maxTries ∧
  (r = Fulfilled → calls w < calls w') ∧
  (maxTries = 0 →
     w' = w ∧ r = Rejected (TryError "Maximum number of tries exceeded (0)")).
Proof.
  unfold awaitCall, wrap.
  match goal with |- context [finish (wrappedFn' _ _ ?c) w] =>
    pose proof (wrappedFn_cases maxTries None c w) as H;
    destruct (finish (wrappedFn' maxTries None c) w) as [w' r] end.
  destruct H as (H1 & H2 & H3 & H4 & _). split; [done|]. split; [done|]. split; [done|].
  intros Hz. destruct (H3 Hz) as [-> ->]. by rewrite Hz.
Qed.

(** X29: a task made by [wrap] annotates the message it was called with
    only if the first response is accepted: once a response has failed to
    parse or to validate, the message stays as it was, whether the task
    then fulfils or not. *)
Theorem wrap_annotates_on_first_try_only w :
  let (w', r) := awaitCall wrap' w in
  subject w' = subject w ∨
  calls w' = S (calls w) ∧ r = Fulfilled ∧
  ∃ json sz, validate json = None ∧ subject w' = setData key json (Some sz) (subject w).
Proof.
  unfold awaitCall, wrap.
  match goal with |- context [finish (wrappedFn' _ _ ?c) w] =>
    pose proof (wrappedFn_cases maxTries None c w) as H;
    destruct (finish (wrappedFn' maxTries None c) w) as [w' r] end.
  destruct H as (_ & _ & _ & _ & [H|(_ & H)]); [by left|by right].
Qed.

End Wrap.

Lemma forallb_Forall_Json (P : Json → bool) (items : list Json) :
  forallb P items = true ↔ Forall (λ i, P i = true) items.
Proof.
  rewrite forallb_forall, Forall_forall. split; intros H x Hx; apply H;
    by apply list_elem_of_In.
Qed.

(** X30: what the two validators of the earlier application accept: the
    keyword validator exactly the non-empty arrays of strings; the people
    validator exactly the non-empty arrays whose elements are objects or
    arrays, an array being an object for [typeof]. *)
Theorem validators_accept (v : Json) :
  (validateKeywords v = None ↔
     ∃ items, v = JArray items ∧ items ≠ [] ∧ Forall (λ i, ∃ s, i = JString s) items) ∧
  (validatePeople v = None ↔
     ∃ items, v = JArray items ∧ items ≠ [] ∧
              Forall (λ i, (∃ l, i = JArray l) ∨ ∃ fields, i = JObject fields) items).
Proof.
  split.
  - destruct v as [| | | |items|]; cbn;
      try (split; [done|by intros (? & ? & _)]).
    destruct items as [|i items]; cbn [length].
    { rewrite bool_decide_eq_true_2 by done. split; [done|]. by intros (? & [= <-] & ? & _). }
    rewrite bool_decide_eq_false_2 by done.
    destruct (forallb _ (i :: items)) eqn:E; cbn.
    + split; [|done]. intros _. exists (i :: items). split; [done|]. split; [done|].
      apply forallb_Forall_Json in E. eapply Forall_impl; [done|].
      intros [] H; cbn in H; try (by apply bool_decide_eq_true in H). by eexists.
    + split; [done|]. intros (l & [= <-] & _ & H). exfalso.
      assert (forallb (λ keyword, bool_decide (typeOf keyword = "string")) (i :: items) = true)
        as E'; [|congruence].
      apply forallb_Forall_Json. eapply Forall_impl; [done|].
      intros ? [s ->]. done.
  - destruct v as [| | | |items|]; cbn;
      try (split; [done|by intros (? & ? & _)]).
    destruct items as [|i items]; cbn [length].
    { rewrite bool_decide_eq_true_2 by done. split; [done|]. by intros (? & [= <-] & ? & _). }
    rewrite bool_decide_eq_false_2 by done.
    destruct (forallb _ (i :: items)) eqn:E; cbn.
    + split; [|done]. intros _. exists (i :: items). split; [done|]. split; [done|].
      apply forallb_Forall_Json in E. eapply Forall_impl; [done|].
      intros [] H; cbn in H; try done; [left|right]; by eexists.
    + split; [done|]. intros (l & [= <-] & _ & H). exfalso.
      assert (forallb (λ person, bool_decide (typeOf person = "object")
                                  && negb (isNull person)) (i :: items) = true)
        as E'; [|congruence].
      apply forallb_Forall_Json. eapply Forall_impl; [done|].
      intros ? [[? ->]|[? ->]]; done.
Qed.

End LegacyAppSpec.

(** * The properties at sample inputs *)
Module Examples.
Import Run Chat Tasks Pipe Messages Completions Extractors Samples Inputs.
Import RunSpec PipeSpec SchedulerSpec MessagesSpec ExtractorsSpec LegacyAppSpec.

Lemma sortedLine_dependenciesFirst : dependenciesFirst sortedLine.
Proof.
  intros t d (td & Hget & Hd). apply get_Some in Hget as [<- Htd].
  repeat (apply elem_of_cons in Htd as [->|Htd]); cbn in Hd;
    repeat (apply elem_of_cons in Hd as [->|Hd]);
    try (by apply elem_of_nil in Hd); try (by apply elem_of_nil in Htd);
    cbv; lia.
Qed.

Lemma topologicalSort_dependenciesFirst_witness :
  NoDup (keys sortedLine) ∧ dependenciesFirst sortedLine ∧
  topologicalSort sortedLine = Normal ["C"; "B"; "A"].
Proof.
  assert (NoDup (keys sortedLine)) as H1 by decide_true.
  pose proof sortedLine_dependenciesFirst as H2.
  split; [done|]. split; [done|].
  exact (topologicalSort_dependenciesFirst sortedLine H1 H2).
Defined.

Lemma delete_breaks_dependents_witness :
  depends lineGraph "A" "B" ∧ "A" ≠ "B" ∧
  ∃ e, topologicalSort (delete "B" lineGraph) = Thrown e ∧
       planFailure (delete "B" lineGraph) e ∧
       execute (delete "B" lineGraph) () = ((), [], Thrown (PlanError e)) ∧
       ∀ res, executeParallel (delete "B" lineGraph) () res →
              res = ((), [], Thrown (PlanError e)).
Proof.
  assert (depends lineGraph "A" "B") as H1 by sample_depends (mk "A" ["B"]).
  assert ("A" ≠ "B") as H2 by done.
  split; [done|]. split; [done|].
  exact (delete_breaks_dependents lineGraph () "A" "B" H1 H2).
Defined.

Lemma pipe_fails_fast_witness :
  awaitCall (pipe [tick]) 0 = (2, Fulfilled) ∧
  awaitCall tickFail 2 = (3, Rejected "boom") ∧
  awaitCall (pipe ([tick] ++ tickFail :: [tick; tick])) 0 = (3, Rejected "boom").
Proof.
  assert (awaitCall (pipe [tick]) 0 = (2, Fulfilled)) as H1 by reflexivity.
  assert (awaitCall tickFail 2 = (3, Rejected "boom")) as H2 by reflexivity.
  split; [done|]. split; [done|].
  exact (pipe_fails_fast [tick] tickFail [tick; tick] 0 2 3 "boom" H1 H2).
Defined.

Lemma tick_keeps : keeps le tick.
Proof. intros w. cbn. split; [lia|]. intros w'. split; [lia|done]. Qed.

Lemma pipe_keeps_witness :
  PreOrder le ∧ Forall (keeps le) [tick; tick] ∧
  keeps le (pipe [tick; tick]) ∧ 0 ≤ (awaitCall (pipe [tick; tick]) 0).1.
Proof.
  assert (PreOrder le) as H1 by apply _.
  assert (Forall (keeps le) [tick; tick]) as H2 by (repeat constructor; apply tick_keeps).
  split; [done|]. split; [done|].
  exact (pipe_keeps le [tick; tick] 0 H1 H2).
Defined.

Lemma execute_as_pipe_witness :
  topologicalSort lineGraph = Normal ["C"; "B"; "A"] ∧
  let '(w', _, c) := execute lineGraph () in
  let (w'', r) := awaitCall (pipe (omap (λ n, task <$> get n lineGraph) ["C"; "B"; "A"])) () in
  w' = w'' ∧
  match r with
  | Fulfilled => c = Normal ()
  | Rejected e =>
      ∃ n, n ∈ ["C"; "B"; "A"] ∧ c = Thrown (AggregateError [e] (taskFailed n))
  end.
Proof.
  assert (topologicalSort lineGraph = Normal ["C"; "B"; "A"]) as H1 by reflexivity.
  split; [done|]. exact (execute_as_pipe lineGraph () ["C"; "B"; "A"] H1).
Defined.



Lemma depFailAfterD_Reachable : Reachable depFail () depFailAfterD.
Proof.
  exists ["D"; "T"], [unitOf "D" (failing "boom") [] AwaitingDeps;
                      unitOf "T" noop [Some 0] AwaitingDeps],
    [("D", 0); ("T", 1)], [0; 0]. repeat split; reflexivity.
Qed.

Lemma executeParallel_runs_once_witness :
  Reachable depFail () depFailAfterD ∧
  NoDup (trace depFailAfterD) ∧
  ∀ n r r', Completed n r ∈ trace depFailAfterD →
            Completed n r' ∈ trace depFailAfterD → r = r'.
Proof.
  pose proof depFailAfterD_Reachable as H1. split; [done|].
  exact (executeParallel_runs_once depFail () depFailAfterD H1).
Defined.

Lemma executeParallel_never_stuck_witness :
  Reachable depFail () depFailAfterD ∧
  ∃ schedule ps' settled,
    run schedule depFailAfterD = Some ps' ∧
    (∀ i, fire i ps' = None) ∧
    trace depFailAfterD `prefix_of` trace ps' ∧
    executeParallel depFail () (world ps', trace ps', parOutcome settled).
Proof.
  pose proof depFailAfterD_Reachable as H1. split; [done|].
  exact (executeParallel_never_stuck depFail () depFailAfterD H1).
Defined.

Lemma lineGraph_fulfils td (r : Settlement string) :
  td ∈ lineGraph → maySettle (task td) r → r = Fulfilled.
Proof.
  intros Htd Hm.
  repeat (apply elem_of_cons in Htd as [->|Htd]); try (by apply elem_of_nil in Htd);
    by apply maySettle_const in Hm.
Qed.

Lemma lineGraph_run :
  executeParallel lineGraph () ((), trace lineDone, Normal ()).
Proof.
  apply (par_settled lineGraph () ["C"; "B"; "A"]
           [unitOf "C" noop [] AwaitingDeps;
            unitOf "B" noop [Some 0] AwaitingDeps;
            unitOf "A" noop [Some 1] AwaitingDeps]
           [("C", 0); ("B", 1); ("A", 2)] [0; 0; 1; 1; 2; 2] lineDone
           [Fulfilled; Fulfilled; Fulfilled]); reflexivity.
Qed.

Lemma executeParallel_all_fulfil_witness :
  topologicalSort lineGraph = Normal ["C"; "B"; "A"] ∧
  (∀ td r, td ∈ lineGraph → maySettle (task td) r → r = Fulfilled) ∧
  executeParallel lineGraph () ((), trace lineDone, Normal ()) ∧
  ∀ n, n ∈ keys lineGraph →
       Invoked n ∈ trace lineDone ∧ Completed n Fulfilled ∈ trace lineDone.
Proof.
  assert (topologicalSort lineGraph = Normal ["C"; "B"; "A"]) as H1 by reflexivity.
  pose proof lineGraph_fulfils as H2. pose proof lineGraph_run as H3.
  split; [done|]. split; [done|]. split; [done|].
  exact (proj2 (executeParallel_all_fulfil lineGraph () _ _ _ _ H1 H2 H3)).
Defined.

Lemma chainGraph_run :
  executeParallel chainGraph ()
    ((), [Invoked "A"; Completed "A" (Rejected "boom")],
     Thrown (AggregateError ["boom"; "boom"; "boom"] "3 tasks failed")).
Proof.
  apply (par_settled chainGraph () ["A"; "B"; "C"]
           [unitOf "A" (failing "boom") [] AwaitingDeps;
            unitOf "B" noop [Some 0] AwaitingDeps;
            unitOf "C" noop [Some 1] AwaitingDeps]
           [("A", 0); ("B", 1); ("C", 2)] [0; 0; 1; 2] chainDone
           [Rejected "boom"; Rejected "boom"; Rejected "boom"]); reflexivity.
Qed.

Lemma executeParallel_errors_are_real_witness :
  topologicalSort chainGraph = Normal ["A"; "B"; "C"] ∧
  executeParallel chainGraph ()
    ((), [Invoked "A"; Completed "A" (Rejected "boom")],
     Thrown (AggregateError ["boom"; "boom"; "boom"] "3 tasks failed")) ∧
  ["boom"; "boom"; "boom"] ≠ [] ∧
  "3 tasks failed" = showNat (length ["boom"; "boom"; "boom"]) +:+ " tasks failed" ∧
  ∀ e, e ∈ ["boom"; "boom"; "boom"] →
       ∃ n, n ∈ keys chainGraph ∧
            Completed n (Rejected e) ∈ [Invoked "A"; Completed "A" (Rejected "boom")].
Proof.
  assert (topologicalSort chainGraph = Normal ["A"; "B"; "C"]) as H1 by reflexivity.
  pose proof chainGraph_run as H2. split; [done|]. split; [done|].
  exact (executeParallel_errors_are_real chainGraph () _ _ _ _ _ H1 H2).
Defined.

Lemma size_set_once_witness :
  setSize 5 (newChatMessage "user" "hi" None) = Normal (newChatMessage "user" "hi" (Some 5%Z)) ∧
  getSize (newChatMessage "user" "hi" (Some 5%Z)) = 5%Z ∧
  ∀ b, setSize b (newChatMessage "user" "hi" (Some 5%Z))
       = Thrown (newError "Cannot set size twice").
Proof.
  assert (setSize 5 (newChatMessage "user" "hi" None)
          = Normal (newChatMessage "user" "hi" (Some 5%Z))) as H1 by reflexivity.
  split; [done|].
  destruct (size_set_once _ _ _ H1) as (_ & H2 & _ & _ & _ & H3). done.
Defined.

Lemma createJsonTask_stores_valid_json_witness :
  let w := sampleWorld [inr "nope"; inr "[]"] in
  let w' := (awaitCall (extractKeywords 3) w).1 in
  awaitCall (extractKeywords 3) w = (w', Fulfilled) ∧
  ∃ a resp j sz,
    last (attempts w') = Some a ∧ result a = Accepted resp j sz ∧
    sampleParse (content resp) = Some j ∧ Tasks.validateKeywords j = Valid ∧
    subject w' = setData "keywords" j (Some sz) (subject w) ∧
    getData "keywords" (subject w') = Some j.
Proof.
  intros w w'.
  assert (awaitCall (extractKeywords 3) w = (w', Fulfilled)) as H1 by (vm_compute; reflexivity).
  split; [done|].
  exact (createJsonTask_stores_valid_json sampleParse "keywords" scripted
           Tasks.validateKeywords "Extract keywords." 3 None w w' H1).
Defined.

Lemma createExtractKeywords_result_witness :
  let w := sampleWorld [inl transportError; inr "[]"] in
  let w' := (awaitCall (createExtractKeywords sampleParse scriptedPort None) w).1 in
  awaitCall (createExtractKeywords sampleParse scriptedPort None) w = (w', Fulfilled) ∧
  (∃ items, getData "keywords" (subject w') = Some (JArray items) ∧
            Forall (λ i, ∃ s, i = JString s) items) ∧
  length (attempts w') ≤ length (attempts w) + 3.
Proof.
  intros w w'.
  assert (awaitCall (createExtractKeywords sampleParse scriptedPort None) w = (w', Fulfilled))
    as H1 by (vm_compute; reflexivity).
  split; [done|].
  exact (createExtractKeywords_result sampleParse scriptedPort None w w' H1).
Defined.

Lemma contextSize_additive_witness :
  let ctx := push (newChatMessage "user" "hi" (Some 7%Z)) newContext in
  let m := newChatMessage "assistant" "ho" (Some 5%Z) in
  LegacyApp.contextSize ctx = Some 7%Z ∧
  (Z.abs (7 + default 0 (size m)) < 2 ^ 53)%Z ∧
  LegacyApp.contextSize (push m ctx) = Some 12%Z ∧
  LegacyApp.contextSize
    (push (newChatMessage "user" "x" (Some 1%Z))
       (push (newChatMessage "user" "y" (Some (2 ^ 53)%Z)) newContext))
  = Some (2 ^ 53)%Z.
Proof.
  intros ctx m.
  assert (LegacyApp.contextSize ctx = Some 7%Z) as H1 by reflexivity.
  assert (Z.abs (7 + default 0 (size m)) < 2 ^ 53)%Z as H2 by (vm_compute; reflexivity).
  split; [done|]. split; [done|].
  split; [exact (proj1 (proj2 (contextSize_additive ctx m 7 H1 H2)))|].
  vm_compute. reflexivity.
Defined.

Lemma wrap_bounded_tries_witness :
  let w := {| Legacy.subject := sampleMessage;
              Legacy.service := [inr "nope"; inr "{}"; inr "[]"; inr "[]"];
              Legacy.calls := 0 |} in
  let (w', r) := awaitCall (LegacyApp.extractKeywords sampleParse id legacyScripted) w in
  (Legacy.calls w ≤ Legacy.calls w' ∧ Legacy.calls w' ≤ Legacy.calls w + 3 ∧
   (r = Fulfilled → Legacy.calls w < Legacy.calls w') ∧
   (3 = 0 →
      w' = w ∧ r = Rejected (Legacy.TryError "Maximum number of tries exceeded (0)"))) ∧
  Legacy.calls w' = 3 ∧
  r = Rejected (Legacy.TryError "Maximum number of tries exceeded (3)").
Proof.
  intros w.
  pose proof (wrap_bounded_tries sampleParse id legacyScripted "keywords"
                (λ ctx, push (newChatMessage "system" LegacyApp.keywordsPrompt None) ctx)
                LegacyApp.validateKeywords 3 w) as H.
  change (awaitCall (Legacy.wrap _ _ _ _ _ _ _) w)
    with (awaitCall (LegacyApp.extractKeywords sampleParse id legacyScripted) w) in H.
  destruct (awaitCall (LegacyApp.extractKeywords sampleParse id legacyScripted) w)
    as [w' r] eqn:E.
  split; [exact H|]. vm_compute in E. injection E as <- <-. done.
Defined.

Lemma wrap_annotates_on_first_try_only_witness :
  let w := {| Legacy.subject := sampleMessage;
              Legacy.service := [inr "nope"; inr "[]"]; Legacy.calls := 0 |} in
  let (w', r) :=
    awaitCall (Legacy.wrap sampleParse id legacyScripted "keywords" id (λ _, None) 3) w in
  (Legacy.subject w' = Legacy.subject w ∨
   Legacy.calls w' = S (Legacy.calls w) ∧ r = Fulfilled ∧
   ∃ json sz, (λ _ : Json, @None JsError) json = None ∧
              Legacy.subject w' = setData "keywords" json (Some sz) (Legacy.subject w)) ∧
  r = Fulfilled ∧ Legacy.calls w' = 2 ∧ Legacy.subject w' = sampleMessage.
Proof.
  intros w.
  pose proof (wrap_annotates_on_first_try_only sampleParse id legacyScripted "keywords" id
                (λ _, None) 3 w) as H.
  destruct (awaitCall _ w) as [w' r] eqn:E.
  split; [exact H|]. vm_compute in E. injection E as <- <-. done.
Defined.

End Examples.
